(** * Tab and tab-group rearrangement: a shallow embedding of
    [src/utils.js] and of the move, navigation, selection and group
    commands of [src/commands.js].

    JavaScript numbers that the code uses as indices, identifiers and
    counters are modelled by [Z] (exact for integers of magnitude below
    2^53; the sum inside [modulo], which can exceed that bound, is
    rounded as a double is); arrays by [list]; [Map] objects by [gmap];
    an exception or a rejected promise by the left injection of a sum.

    A command takes the snapshot it queries from the host ([tabs],
    [tabGroups]) as arguments and yields the mutating calls it issues, in
    the order it issues them, together with its outcome.  The module is
    an ES module, hence strict code: reading or assigning an identifier
    that has no declaration raises a ReferenceError, and the arguments of
    a call are evaluated before the callee is checked to be callable. *)

From Stdlib Require Import ZArith Lia.
From stdpp Require Import base option list gmap strings.

Local Open Scope Z_scope.

(** ** JavaScript values and arrays *)

Module Js.

(** The two exceptions the modelled code can raise: the name of an
    identifier that has no binding, or a property read or call on
    [undefined]. *)
Inductive Error : Type :=
| ReferenceError (name : string)
| TypeError (what : string).

Definition Result (A : Type) : Type := (Error + A)%type.

(** Values used as chunk keys: compared with [===] and possibly
    [undefined]. *)
Class Key (K : Type) := {
  key_eq_dec :: EqDecision K;
  is_undefined : K → bool
}.

#[export] Instance bool_key : Key bool := {| is_undefined := λ _, false |}.
#[export] Instance Z_key : Key Z := {| is_undefined := λ _, false |}.
(** A property that may be missing: [None] is [undefined]. *)
#[export] Instance option_key {K} `{EqDecision K} : Key (option K) :=
  {| is_undefined := λ o, if o is None then true else false |}.

(** A number as [%] and array indexing see it: an integer, or [NaN]. *)
Inductive Number : Type :=
| Finite (n : Z)
| NaN.

(** Numbers are IEEE 754 doubles, with a significand of 53 bits: every
    integer of magnitude up to [2^53] is one, and beyond that only the
    multiples of a power of two are.  [roundToDouble z] is the double
    that [+] returns for an exact integer sum [z]: the nearest one, the
    one with the even significand on a tie.  A result of magnitude
    [2^1024] stands for an infinity. *)
Definition roundToDouble (z : Z) : Z :=
  let magnitude := Z.abs z in
  if magnitude <? 2 ^ 53 then z else
  let exponent := Z.log2 magnitude - 52 in
  let significand := Z.shiftr magnitude exponent in
  let rest := magnitude - Z.shiftl significand exponent in
  let half := Z.shiftl 1 (exponent - 1) in
  let rounded :=
    if (half <? rest) || ((rest =? half) && Z.odd significand)
    then significand + 1
    else significand in
  Z.sgn z * Z.shiftl rounded exponent.

(** [array.at(i)]: a negative index counts from the end. *)
Definition at_ {A} (array : list A) (i : Z) : option A :=
  if i <? 0
  then (if Z.of_nat (length array) + i <? 0 then None
        else array !! Z.to_nat (Z.of_nat (length array) + i))
  else array !! Z.to_nat i.

(** [array[i]]: a negative index is a missing property. *)
Definition index {A} (array : list A) (i : Z) : option A :=
  if i <? 0 then None else array !! Z.to_nat i.

(** [array.splice(start, 1)], the array after the removal. *)
Definition splice1 {A} (array : list A) (start : Z) : list A :=
  let len := Z.of_nat (length array) in
  let from := if start <? 0 then Z.max (len + start) 0 else Z.min start len in
  delete (Z.to_nat from) array.

(** [array.findIndex(p)]: [None] stands for [-1]. *)
Fixpoint findIndex {A} (p : A → bool) (array : list A) : option nat :=
  match array with
  | [] => None
  | x :: rest => if p x then Some 0%nat else S <$> findIndex p rest
  end.

End Js.

(** ** utils.js *)

Module Utils.
Import Js.

(** [partition]: one pass, pushing each element on the left or on the
    right array. *)
Definition partition {Element} (array : list Element) (predicate : Element → bool)
  : list Element * list Element :=
  foldl (λ '(leftPartition, rightPartition) element,
           if predicate element
           then (leftPartition ++ [element], rightPartition)
           else (leftPartition, rightPartition ++ [element]))
        ([], []) array.

(** One iteration of the loop of [chunk].  With no chunk yet,
    [chunks.at(-1) ?? []] destructures to [lastKey = undefined] and
    [currentChunk = undefined]: an [undefined] key then compares equal
    to [lastKey] and [currentChunk.push] is a call on [undefined]. *)
Definition chunk_step {Element K} `{Key K} (callback : Element → K)
    (chunks : list (K * list Element)) (element : Element)
  : Result (list (K * list Element)) :=
  let key := callback element in
  match last chunks with
  | None =>
      if is_undefined key
      then inl (TypeError "currentChunk.push")
      else inr (chunks ++ [(key, [element])])
  | Some (lastKey, currentChunk) =>
      if bool_decide (key = lastKey)
      then inr (removelast chunks ++ [(lastKey, currentChunk ++ [element])])
      else inr (chunks ++ [(key, [element])])
  end.

Fixpoint chunk_loop {Element K} `{Key K} (callback : Element → K)
    (chunks : list (K * list Element)) (array : list Element)
  : Result (list (K * list Element)) :=
  match array with
  | [] => inr chunks
  | element :: rest =>
      match chunk_step callback chunks element with
      | inl e => inl e
      | inr chunks' => chunk_loop callback chunks' rest
      end
  end.

Definition chunk {Element K} `{Key K} (array : list Element) (callback : Element → K)
  : Result (list (K * list Element)) :=
  chunk_loop callback [] array.

(** [modulo]: [((dividend % divisor) + divisor) % divisor] on integers
    that are doubles.  [%] takes the sign of the dividend ([Z.rem]) and
    is exact, and is [NaN] for a zero divisor; [+] rounds its result,
    and an infinite sum makes the second [%] return [NaN].  The sign of
    a zero is not kept: neither [===] nor array indexing sees it. *)
Definition modulo (dividend divisor : Z) : Number :=
  if bool_decide (divisor = 0) then NaN else
  let sum := roundToDouble (Z.rem dividend divisor + divisor) in
  if 2 ^ 1024 <=? Z.abs sum then NaN else Finite (Z.rem sum divisor).

End Utils.

(** ** The host interface: tabs, tab groups and the calls issued to Chrome *)

Module Tab.
Record t : Type := mk {
  id : Z;
  index : Z;
  windowId : Z;
  groupId : Z;
  pinned : bool;
  highlighted : bool
}.
End Tab.

Module TabGroup.
Record t : Type := mk {
  id : Z;
  collapsed : bool
}.
End TabGroup.

Module Chrome.

(** [chrome.tabGroups.TAB_GROUP_ID_NONE], the group id of a tab that is
    in no group; its value in the Chrome API is [-1]. *)
Definition TAB_GROUP_ID_NONE : Z := -1.

(** The second argument of [chrome.tabs.move] and
    [chrome.tabGroups.move]. *)
Record MoveProperties : Type := {
  windowId : option Z;
  index : Z
}.

(** The mutating calls the move commands issue. *)
Inductive Op : Type :=
| TabsMove (tabId : Z) (moveProperties : MoveProperties)
| TabGroupsMove (groupId : Z) (moveProperties : MoveProperties)
| TabsGroup (tabIds : list Z) (groupId : Z)
| TabsUngroup (tabIds : list Z)
| TabsUpdatePinned (tabId : Z)
| WindowsUpdateFocused (windowId : Z)
| TabsHighlight (tabs : list Z) (windowId : Z).

(** A command run: the calls issued so far, in order, and either the
    value reached or the exception that stopped the run. *)
Definition M (A : Type) : Type := (list Op * Js.Result A)%type.

Definition ret {A} (a : A) : M A := ([], inr a).

Definition bind {A B} (m : M A) (k : A → M B) : M B :=
  match m with
  | (ops, inl e) => (ops, inl e)
  | (ops, inr a) => let '(ops', r) := k a in (ops ++ ops', r)
  end.

Definition emit (op : Op) : M unit := ([op], inr tt).
Definition throw {A} (e : Js.Error) : M A := ([], inl e).
Definition lift {A} (r : Js.Result A) : M A := ([], r).

(** Reading an identifier that has no binding in scope. *)
Definition unbound {A} (name : string) : M A := throw (Js.ReferenceError name).

(** Reading a property of a value that may be [undefined]. *)
Definition defined {A} (what : string) (o : option A) : M A :=
  match o with
  | Some a => ret a
  | None => throw (Js.TypeError what)
  end.

Definition issued {A} (m : M A) : list Op := fst m.
Definition outcome {A} (m : M A) : Js.Result A := snd m.

#[export] Instance M_ret : MRet M := @ret.
#[export] Instance M_bind : MBind M := λ A B k m, bind m k.
#[export] Instance M_fmap : FMap M := λ A B f m, bind m (λ a, ret (f a)).

(** [a && b] where evaluating an operand may raise. *)
Definition and_then (a b : M bool) : M bool :=
  x ← a; if x : bool then b else ret false.

(** [for (const x of array) body(x)]. *)
Fixpoint forEach {A} (body : A → M unit) (array : list A) : M unit :=
  match array with
  | [] => ret tt
  | x :: rest => body x;; forEach body rest
  end.

End Chrome.

Infix "&&^" := Chrome.and_then (at level 41, right associativity).


(** ** commands.js: the move commands *)

Module Commands.
Import Js Utils Chrome.

(** [const Direction = { Backward: -1, Forward: 1 }] *)
Inductive Direction : Type := Backward | Forward.

Definition getTabId (tab : Tab.t) : Z := Tab.id tab.
Definition isSelected (tab : Tab.t) : bool := Tab.highlighted tab.
Definition byGroup (tab : Tab.t) : Z := Tab.groupId tab.

(** The module's own [moveTabs]: one [chrome.tabs.move] per tab id. *)
Definition moveTabs (tabIds : list Z) (moveProperties : MoveProperties) : M unit :=
  forEach (λ tabId, emit (TabsMove tabId moveProperties)) tabIds.

(** [Map.groupBy(items, callback)] *)
Definition groupBy {A K} `{Countable K} (items : list A) (callback : A → K)
  : gmap K (list A) :=
  foldl (λ groups value,
           let key := callback value in
           <[key := default [] (groups !! key) ++ [value]]> groups)
        ∅ items.

(** [startIndex = tabs.findIndex(tab => !tab.pinned)] and the two
    slices taken at it. *)
Definition splitPinned (tabs : list Tab.t) : list Tab.t * list Tab.t :=
  match findIndex (λ tab, negb (Tab.pinned tab)) tabs with
  | None => (tabs, [])
  | Some startIndex => (take startIndex tabs, drop startIndex tabs)
  end.

(** [for (let index = start; index < tabPartition.length; index += 2)];
    the loop makes at most [tabPartition.length] iterations. *)
Fixpoint forStep2 {A} (fuel : nat) (index : nat) (tabPartition : list A)
    (body : A → M unit) : M unit :=
  match fuel with
  | O => ret tt
  | S fuel' =>
      match tabPartition !! index with
      | None => ret tt
      | Some entry => body entry;; forStep2 fuel' (index + 2) tabPartition body
      end
  end.

(** [tabPartition[0][0] ? 0 : 1] *)
Definition firstSelectedIndex {A} (tabPartition : list (bool * A)) : nat :=
  match tabPartition with
  | (true, _) :: _ => 0
  | _ => 1
  end.

(** *** moveTabDirection *)

Definition focusIndex (direction : Direction) : Z :=
  match direction with Backward => 0 | Forward => -1 end.
Definition anchorIndex (direction : Direction) : Z :=
  match direction with Backward => -1 | Forward => 0 end.
Definition focusOffset (direction : Direction) : Z :=
  match direction with Backward => -1 | Forward => 1 end.
Definition anchorOffset (direction : Direction) : Z :=
  match direction with Backward => 1 | Forward => 0 end.

(** [ungroupTabs]: the forward variant reverses the tab ids. *)
Definition ungroupTabs (direction : Direction) (tabIds : list Z) : M unit :=
  match direction with
  | Backward => emit (TabsUngroup tabIds)
  | Forward => emit (TabsUngroup (reverse tabIds))
  end.

(** [moveGroupToTab]: both variants assign the awaited tab to
    [targetTab], an identifier that has no declaration in the scope of
    the closure.  Only the calls up to that assignment are modelled. *)
Definition moveGroupToTab (direction : Direction) (groupId tabId : Z) : M unit :=
  match direction with
  | Backward =>
      emit (TabGroupsMove groupId {| windowId := None; index := -1 |});;
      unbound "targetTab"
  | Forward => unbound "targetTab"
  end.

(** The shape the loop body expects of [targetInfo] and [anchorInfo];
    neither identifier is declared anywhere in the module. *)
Record Info : Type := {
  tabId : Z;
  tabIndex : Z;
  tabIds : list Z;
  groupId : Z;
  isInGroup : bool
}.

(** The fifteen arms of the [if]/[else if] chain of the unpinned loop,
    in source order, and falling off its end. *)
Inductive Branch : Type :=
| LooseToLoose          (* 1:  anchor and target ungrouped *)
| PartialOutOfGroup     (* 2:  [[...] __[A] [A]__] [B] *)
| FullGroupPastTab      (* 3:  __[[A] [A] [A]]__ [B] *)
| LooseAnchorPastTab    (* 4:  __[A] [A] [A] [[B] [B] [B]]__ [C] *)
| PartialAnchorPastTab  (* 5:  [[...] __[A] [A]] [B] [B] [B]__ [C] *)
| FullAnchorPastTab     (* 6:  __[[A] [A] [A]] [B] [B] [B]__ [C] *)
| JoinFocusGroup        (* 7:  __[A] [A] [[B]__ [C]] *)
| WithinGroup           (* 8:  [__[A] [A] [A]__ [B]] *)
| JoinVisibleGroup      (* 9:  __[A] [A] [A]__ [[B]] *)
| PastCollapsedGroup    (* 10: __[A] [A] [A]__ [[...]] *)
| PartialBeforeGroup    (* 11: [[...] __[A] [A]__] [[B]] *)
| FullGroupPastGroup    (* 12: __[[A] [A] [A]]__ [[B]] *)
| LooseAnchorPastGroup  (* 13: __[A] [A] [A] [[B] [B] [B]]__ [[C]] *)
| PartialAnchorPastGroup (* 14: [[...] __[A] [A]] [B] [B] [B]__ [[C]] *)
| FullAnchorPastGroup   (* 15: __[[A] [A] [A]] [B] [B] [B]__ [[C]] *)
| NoBranch.

Section Snapshot.
Variable direction : Direction.
(** The results of [chrome.tabs.query] and [chrome.tabGroups.query]. *)
Variable tabs : list Tab.t.
Variable tabGroups : list TabGroup.t.

Definition tabsByGroup : gmap Z (list Tab.t) := groupBy tabs byGroup.

Definition groupIdToSelPartition : gmap Z (list Tab.t * list Tab.t) :=
  (λ tabs, partition tabs isSelected) <$> tabsByGroup.

(** [new Map(tabGroups.map(({ id, collapsed }) => [id, collapsed]))] *)
Definition collapsedInfo : gmap Z bool :=
  foldl (λ info tabGroup, <[TabGroup.id tabGroup := TabGroup.collapsed tabGroup]> info)
        ∅ tabGroups.

(** [groupIdToSelPartition.get(groupId)[1].length] *)
Definition otherLength (groupId : Z) : M nat :=
  '(_, otherTabs) ← defined "groupIdToSelPartition.get(groupId)[1]"
                      (groupIdToSelPartition !! groupId);
  ret (length otherTabs).

Section Run.
(** One selected chunk and the tabs read off it. *)
Variable tabSelection : list Tab.t.
Variables focusTab anchorTab : Tab.t.
Variable targetTab : option Tab.t.

Definition targetGroupId : M Z :=
  Tab.groupId <$> defined "targetTab.groupId" targetTab.

Let anchorGroup := Tab.groupId anchorTab.
Let focusGroup := Tab.groupId focusTab.
Let value (b : bool) : M bool := ret b.
Let target (p : Z → bool) : M bool := p <$> targetGroupId.
Let others (p : nat → bool) : M bool := p <$> otherLength anchorGroup.
Let isNone (g : Z) : bool := bool_decide (g = TAB_GROUP_ID_NONE).
Let same (g h : Z) : bool := bool_decide (g = h).
Let nonEmpty (n : nat) : bool := bool_decide (n ≠ 0%nat).
Let empty (n : nat) : bool := bool_decide (n = 0%nat).

(** The conditions of the chain, each with its operands in source
    order. *)
Definition selectBranch : M Branch :=
  c ← value (isNone anchorGroup) &&^ target isNone;
  if c : bool then ret LooseToLoose else
  c ← others nonEmpty &&^ value (same anchorGroup focusGroup) &&^ target isNone;
  if c : bool then ret PartialOutOfGroup else
  c ← others empty &&^ value (same anchorGroup focusGroup) &&^ target isNone;
  if c : bool then ret FullGroupPastTab else
  c ← value (isNone anchorGroup) &&^ value (negb (same anchorGroup focusGroup))
        &&^ target isNone;
  if c : bool then ret LooseAnchorPastTab else
  c ← others nonEmpty &&^ value (negb (same anchorGroup focusGroup)) &&^ target isNone;
  if c : bool then ret PartialAnchorPastTab else
  c ← others empty &&^ value (negb (same anchorGroup focusGroup)) &&^ target isNone;
  if c : bool then ret FullAnchorPastTab else
  c ← target (λ g, negb (same g anchorGroup)) &&^ target (λ g, same g focusGroup);
  if c : bool then ret JoinFocusGroup else
  c ← target (λ g, same g anchorGroup) &&^ target (λ g, same g focusGroup);
  if c : bool then ret WithinGroup else
  c ← value (isNone anchorGroup) &&^ value (same anchorGroup focusGroup)
        &&^ target (λ g, bool_decide (collapsedInfo !! g = Some false));
  if c : bool then ret JoinVisibleGroup else
  c ← value (isNone anchorGroup) &&^ value (same anchorGroup focusGroup)
        &&^ target (λ g, bool_decide (collapsedInfo !! g = Some true));
  if c : bool then ret PastCollapsedGroup else
  c ← others nonEmpty &&^ value (same anchorGroup focusGroup)
        &&^ target (λ g, negb (isNone g));
  if c : bool then ret PartialBeforeGroup else
  c ← others empty &&^ value (same anchorGroup focusGroup)
        &&^ target (λ g, negb (isNone g));
  if c : bool then ret FullGroupPastGroup else
  c ← value (isNone anchorGroup) &&^ value (negb (same anchorGroup focusGroup))
        &&^ target (λ g, negb (isNone g));
  if c : bool then ret LooseAnchorPastGroup else
  c ← others nonEmpty &&^ value (negb (same anchorGroup focusGroup))
        &&^ target (λ g, negb (isNone g));
  if c : bool then ret PartialAnchorPastGroup else
  c ← (isInGroup <$> unbound "anchorInfo") &&^ others empty
        &&^ value (negb (same anchorGroup focusGroup))
        &&^ target (λ g, negb (isNone g));
  if c : bool then ret FullAnchorPastGroup else
  ret NoBranch.

(** [chrome.tabs.move(targetInfo.tabId, { index: anchorInfo.tabIndex })] *)
Definition moveTargetToAnchor : M unit :=
  targetInfo ← unbound "targetInfo";
  anchorInfo ← unbound "anchorInfo";
  emit (TabsMove (tabId targetInfo)
                 {| windowId := None; index := tabIndex anchorInfo |}).

(** [moveGroupToTab(targetInfo.groupId, anchorInfo.tabId)] *)
Definition moveTargetGroupToAnchor : M unit :=
  targetInfo ← unbound "targetInfo";
  anchorInfo ← unbound "anchorInfo";
  moveGroupToTab direction (groupId targetInfo) (tabId anchorInfo).

(** [ungroupTabs(anchorInfo.tabIds)] *)
Definition ungroupAnchor : M unit :=
  anchorInfo ← unbound "anchorInfo";
  ungroupTabs direction (tabIds anchorInfo).

(** [chrome.tabs.group({ tabIds: tabSelection.map(tab => tab.id),
    groupId: targetTab.groupId })] *)
Definition groupSelectionWithTarget : M unit :=
  groupId ← targetGroupId;
  emit (TabsGroup (Tab.id <$> tabSelection) groupId).

(** The bodies of the chain: what each arm pushes on [movedTabs].  The
    first arm also logs a line to the console, which is no call to the
    host. *)
Definition runBranch (branch : Branch) : M unit :=
  match branch with
  | LooseToLoose => moveTargetToAnchor
  | PartialOutOfGroup => ungroupAnchor
  | FullGroupPastTab => moveTargetToAnchor
  | LooseAnchorPastTab => moveTargetToAnchor
  | PartialAnchorPastTab => ungroupAnchor;; moveTargetToAnchor
  | FullAnchorPastTab => moveTargetToAnchor
  | JoinFocusGroup => groupSelectionWithTarget
  | WithinGroup => moveTargetToAnchor
  | JoinVisibleGroup => groupSelectionWithTarget
  | PastCollapsedGroup => moveTargetGroupToAnchor
  | PartialBeforeGroup => ungroupTabs direction (getTabId <$> tabSelection)
  | FullGroupPastGroup => moveTargetGroupToAnchor
  | LooseAnchorPastGroup => moveTargetGroupToAnchor
  | PartialAnchorPastGroup => ungroupAnchor;; moveTargetGroupToAnchor
  | FullAnchorPastGroup => moveTargetGroupToAnchor
  | NoBranch => ret tt
  end.
End Run.

(** The body of the loop over the unpinned chunks. *)
Definition moveOtherChunk (entry : bool * list Tab.t) : M unit :=
  let '(_, tabSelection) := entry in
  focusTab ← defined "focusTab.index" (at_ tabSelection (focusIndex direction));
  anchorTab ← defined "anchorTab.groupId" (at_ tabSelection (anchorIndex direction));
  let targetTab := Js.index tabs (Tab.index focusTab + focusOffset direction) in
  branch ← selectBranch focusTab anchorTab targetTab;
  runBranch tabSelection targetTab branch.

(** The body of the loop over the pinned chunks: the move is issued
    while the arguments of [moveTabs.push(...)] are evaluated, and the
    call then fails, [moveTabs] being a function without a [push]
    property. *)
Definition movePinnedChunk (entry : bool * list Tab.t) : M unit :=
  let '(_, tabSelection) := entry in
  focusTab ← defined "focusTab.index" (at_ tabSelection (focusIndex direction));
  anchorTab ← defined "anchorTab.index" (at_ tabSelection (anchorIndex direction));
  targetTab ← defined "targetTab.id"
                (Js.index tabs (Tab.index focusTab + focusOffset direction));
  emit (TabsMove (Tab.id targetTab)
                 {| windowId := None; index := Tab.index anchorTab |});;
  throw (TypeError "moveTabs.push is not a function").

(** The boundary step of the pinned block. *)
Definition dropPinnedBoundary (tabPartition : list (bool * list Tab.t))
  : M (list (bool * list Tab.t)) :=
  if bool_decide (length tabPartition ≠ 0%nat) then
    '(isSelected, _) ← defined "tabPartition.at(focusIndex)"
                         (at_ tabPartition (focusIndex direction));
    if isSelected : bool
    then ret (splice1 tabPartition (focusIndex direction))
    else ret tabPartition
  else ret tabPartition.

(** The boundary step of the unpinned block, with its ungrouping. *)
Definition dropOtherBoundary (tabPartition : list (bool * list Tab.t))
  : M (list (bool * list Tab.t)) :=
  if bool_decide (length tabPartition ≠ 0%nat) then
    '(isSelected, tabSelection) ← defined "tabPartition.at(focusIndex)"
                                    (at_ tabPartition (focusIndex direction));
    if isSelected : bool then
      anchorTab ← defined "anchorTab.groupId" (at_ tabSelection (anchorIndex direction));
      focusTab ← defined "focusTab.groupId" (at_ tabSelection (focusIndex direction));
      c ← ret (bool_decide (Tab.groupId anchorTab = Tab.groupId focusTab))
            &&^ ret (bool_decide (Tab.groupId focusTab ≠ TAB_GROUP_ID_NONE))
            &&^ ((λ n, bool_decide (n = 0%nat)) <$> otherLength (Tab.groupId focusTab));
      (if c : bool then ungroupTabs direction (getTabId <$> tabSelection) else ret tt);;
      ret (splice1 tabPartition (focusIndex direction))
    else ret tabPartition
  else ret tabPartition.

Definition everySelectedChunk (tabPartition : list (bool * list Tab.t))
    (body : bool * list Tab.t → M unit) : M unit :=
  if bool_decide (length tabPartition ≠ 0%nat)
  then forStep2 (length tabPartition) (firstSelectedIndex tabPartition)
                tabPartition body
  else ret tt.

Definition moveTabDirection : M unit :=
  let '(pinnedTabs, otherTabs) := splitPinned tabs in
  tabPartition ← lift (chunk pinnedTabs isSelected);
  tabPartition ← dropPinnedBoundary tabPartition;
  everySelectedChunk tabPartition movePinnedChunk;;
  tabPartition ← lift (chunk otherTabs isSelected);
  tabPartition ← dropOtherBoundary tabPartition;
  everySelectedChunk tabPartition moveOtherChunk.

End Snapshot.

(** *** moveTabEdgeDirection *)

Section Edge.
Variable direction : Direction.
Variable tabs : list Tab.t.

Definition edgeIndex : Z :=
  match direction with Backward => 0 | Forward => -1 end.

Definition toOrdered {A} (array : list A) : list A :=
  match direction with Backward => array | Forward => reverse array end.

(** [chunk(otherTabs, byGroup).map(...)]: each chunk with its selected
    and its other tabs. *)
Definition edgeEntry (entry : Z * list Tab.t) : Z * list Tab.t * list Tab.t :=
  let '(groupId, tabs) := entry in
  let '(selectedTabs, otherTabs) := partition tabs isSelected in
  (groupId, selectedTabs, otherTabs).

Definition edgePartition (otherTabs : list Tab.t)
  : Result (list (Z * list Tab.t * list Tab.t)) :=
  match chunk otherTabs byGroup with
  | inl e => inl e
  | inr chunks => inr (edgeEntry <$> chunks)
  end.

(** The callback mapped over the ordered chunks. *)
Definition moveEdgeChunk (pinnedTabs : list Tab.t)
    (entry : Z * list Tab.t * list Tab.t) : M unit :=
  let '(groupId, selectedTabs, otherTabs) := entry in
  if bool_decide (groupId ≠ TAB_GROUP_ID_NONE)
     && bool_decide (length otherTabs = 0%nat)
  then
    emit (TabGroupsMove groupId
            {| windowId := None;
               index := if bool_decide (edgeIndex = 0)
                        then Z.of_nat (length pinnedTabs)
                        else edgeIndex |})
  else if bool_decide (groupId ≠ TAB_GROUP_ID_NONE)
          && bool_decide (length otherTabs ≠ 0%nat)
  then
    groupTabs ← defined "tabsByGroup.get(groupId).at"
                  (tabsByGroup tabs !! groupId);
    edgeTab ← defined "tabsByGroup.get(groupId).at(tabIndex).index"
                (at_ groupTabs edgeIndex);
    moveTabs (getTabId <$> selectedTabs)
             {| windowId := None; index := Tab.index edgeTab |}
  else
    moveTabs (getTabId <$> selectedTabs)
             {| windowId := None; index := edgeIndex |}.

Definition moveTabEdgeDirection : M unit :=
  let '(pinnedTabs, otherTabs) := splitPinned tabs in
  tabPartition ← lift (edgePartition otherTabs);
  moveTabs (getTabId <$> List.filter isSelected (toOrdered pinnedTabs))
           {| windowId := None; index := edgeIndex |};;
  forEach (moveEdgeChunk pinnedTabs) (toOrdered tabPartition).

End Edge.

(** *** moveTabsToWindow *)

Record Context : Type := { tab : Tab.t }.

Section Window.
(** What the host resolves the issued calls to: the tab moved by
    [chrome.tabs.move], the tab updated by [chrome.tabs.update], the
    tabs listed by the query that follows a group move, and
    [chrome.tabs.get]. *)
Variable movedTab : Z → MoveProperties → Tab.t.
Variable updatedTab : Z → Tab.t.
Variable groupTabs : Z → list Tab.t.
Variable gotTab : Z → Tab.t.

(** The calls of the array passed to [Promise.all] are issued first,
    in array order; the [then] callbacks are taken in the same order
    once every call is issued. *)
Definition moveTabsToWindow (cx : Context) (windowId : Z) (tabs : list Tab.t)
  : M unit :=
  if bool_decide (Tab.windowId (tab cx) = windowId) then ret tt else
  let '(pinnedTabs, otherTabs) := splitPinned tabs in
  let moveProperties := {| windowId := Some windowId; index := -1 |} in
  let pinnedIds := Tab.id <$> List.filter isSelected pinnedTabs in
  moveTabs pinnedIds moveProperties;;
  chunks ← lift (chunk otherTabs byGroup);
  forEach (λ '(groupId, tabs),
             let selectedTabs := List.filter isSelected tabs in
             if bool_decide (groupId ≠ TAB_GROUP_ID_NONE)
                && bool_decide (length selectedTabs = length tabs)
             then emit (TabGroupsMove groupId moveProperties)
             else moveTabs (Tab.id <$> selectedTabs) moveProperties)
          chunks;;
  let pinnedMoved := (λ tabId, movedTab tabId moveProperties) <$> pinnedIds in
  forEach (λ tab, emit (TabsUpdatePinned (Tab.id tab))) pinnedMoved;;
  let movedTabChunks :=
    ((λ tab, updatedTab (Tab.id tab)) <$> pinnedMoved)
    :: ((λ '(groupId, tabs),
           let selectedTabs := List.filter isSelected tabs in
           if bool_decide (groupId ≠ TAB_GROUP_ID_NONE)
              && bool_decide (length selectedTabs = length tabs)
           then groupTabs groupId
           else (λ tab, movedTab (Tab.id tab) moveProperties) <$> selectedTabs)
        <$> chunks) in
  let activeTab := gotTab (Tab.id (tab cx)) in
  emit (WindowsUpdateFocused windowId);;
  emit (TabsHighlight (Tab.index <$> (activeTab :: concat movedTabChunks)) windowId).

End Window.

End Commands.

(** ** Specification vocabulary *)

Module Spec.
Import Js Utils Chrome Commands.

Section Chunked.
Context {Element K : Type} `{Key K} (classify : Element → K).

(** A run is not empty and all its elements carry its key. *)
Definition uniform (c : K * list Element) : Prop :=
  c.2 ≠ [] ∧ Forall (λ x, classify x = c.1) c.2.

(** No two keys that follow each other are equal. *)
Definition adjacent_differ (keys : list K) : Prop :=
  ∀ i a b, keys !! i = Some a → keys !! S i = Some b → a ≠ b.

(** [chunks] is the division of [S] into its maximal runs. *)
Record chunked (S : list Element) (chunks : list (K * list Element)) : Prop := {
  chunked_concat : concat chunks.*2 = S;
  chunked_uniform : Forall uniform chunks;
  chunked_adjacent : adjacent_differ chunks.*1
}.

(** The run at position [i] cannot be extended on either side: the
    element of [S] just before it and the one just after it, when
    they exist, carry another key. *)
Definition maximal_runs (chunks : list (K * list Element)) : Prop :=
  ∀ i k run, chunks !! i = Some (k, run) →
    (∀ x, last (concat (take i chunks).*2) = Some x → classify x ≠ k) ∧
    (∀ x, head (concat (drop (S i) chunks).*2) = Some x → classify x ≠ k).
End Chunked.

Fixpoint takeWhile {A} (p : A → bool) (l : list A) : list A :=
  match l with
  | x :: rest => if p x then x :: takeWhile p rest else []
  | [] => []
  end.

Fixpoint dropWhile {A} (p : A → bool) (l : list A) : list A :=
  match l with
  | x :: rest => if p x then dropWhile p rest else l
  | [] => []
  end.

(** The chunk list of one block of elements that carry the key [k]. *)
Definition block {A K} (k : K) (l : list A) : list (K * list A) :=
  match l with [] => [] | _ => [(k, l)] end.

(** The chunks by selection of a region whose selection is the run
    [selected] at the boundary, the tabs [behind] it being unselected. *)
Definition boundaryChunks (direction : Direction) (behind selected : list Tab.t)
  : list (bool * list Tab.t) :=
  match direction with
  | Backward => block true selected ++ block false behind
  | Forward => block false behind ++ block true selected
  end.

(** The selected run that touches the end of [region] lying in the
    direction of travel, and the tabs of [region] behind that run. *)
Definition boundaryRun (direction : Direction) (region : list Tab.t) : list Tab.t :=
  match direction with
  | Backward => takeWhile isSelected region
  | Forward => reverse (takeWhile isSelected (reverse region))
  end.

Definition behindBoundary (direction : Direction) (region : list Tab.t) : list Tab.t :=
  match direction with
  | Backward => dropWhile isSelected region
  | Forward => reverse (dropWhile isSelected (reverse region))
  end.

(** NoEligibleRun: every selected tab of [region] belongs to the run at
    the boundary. *)
Definition noEligibleRun (direction : Direction) (region : list Tab.t) : bool :=
  forallb (λ tab, negb (isSelected tab)) (behindBoundary direction region).

(** Both ends of [run] lie in one and the same tab group. *)
Definition withinOneGroup (run : list Tab.t) : bool :=
  match head run, last run with
  | Some first, Some final =>
      bool_decide (Tab.groupId first = Tab.groupId final)
      && bool_decide (Tab.groupId first ≠ TAB_GROUP_ID_NONE)
  | _, _ => false
  end.

(** [run] lies in one tab group, and every tab of the strip that is in
    this group is selected. *)
Definition fullySelectedGroupRun (tabs run : list Tab.t) : bool :=
  match head run with
  | Some first =>
      withinOneGroup run
      && forallb (λ tab, isSelected tab
                         || negb (bool_decide (Tab.groupId tab = Tab.groupId first)))
                 tabs
  | None => false
  end.

(** The group is recorded as collapsed in the snapshot. *)
Definition isCollapsed (tabGroups : list TabGroup.t) (groupId : Z) : bool :=
  bool_decide (collapsedInfo tabGroups !! groupId = Some true).

(** The call changes the membership of a collapsed group: it adds tabs
    to one, or removes from its group a tab that is in one. *)
Definition mutatesCollapsed (tabs : list Tab.t) (tabGroups : list TabGroup.t)
    (op : Op) : bool :=
  match op with
  | TabsGroup _ groupId => isCollapsed tabGroups groupId
  | TabsUngroup tabIds =>
      existsb (λ tab, bool_decide (Tab.id tab ∈ tabIds)
                      && isCollapsed tabGroups (Tab.groupId tab)) tabs
  | _ => false
  end.

(** The call leaves the membership of every collapsed group alone. *)
Definition sparesCollapsed (tabs : list Tab.t) (tabGroups : list TabGroup.t)
    (op : Op) : Prop :=
  mutatesCollapsed tabs tabGroups op = false.

(** Every tab of [run] is a selected tab of the strip. *)
Definition selectedRun (tabs : list Tab.t) (run : list Tab.t) : Prop :=
  Forall (λ tab, isSelected tab = true ∧ tab ∈ tabs) run.

(** No selected tab lies in a collapsed group. *)
Definition noHiddenSelection (tabs : list Tab.t) (tabGroups : list TabGroup.t) : bool :=
  forallb (λ tab, negb (isSelected tab && isCollapsed tabGroups (Tab.groupId tab))) tabs.

(** Chunks by selection of tabs of the strip: neighbouring keys differ
    and the tabs of a chunk are selected or not as its key says. *)
Definition selectionChunks (tabs : list Tab.t) (tabPartition : list (bool * list Tab.t))
  : Prop :=
  adjacent_differ tabPartition.*1
  ∧ Forall (λ entry, Forall (λ tab, isSelected tab = entry.1 ∧ tab ∈ tabs) entry.2)
           tabPartition.

Definition uniqueIds (tabs : list Tab.t) : bool :=
  bool_decide (NoDup (Tab.id <$> tabs)).


(** The call repositions, on its own, the tab with the given id. *)
Definition movesTab (tabId : Z) (op : Op) : bool :=
  match op with TabsMove moved _ => bool_decide (moved = tabId) | _ => false end.

(** Folding the issued calls over a host state. *)
Definition applyAll {Host} (apply : Op → Host → Host) (ops : list Op) (host : Host)
  : Host :=
  foldl (λ h op, apply op h) host ops.

End Spec.

(** ** The scenarios of the specification *)

Module Scenario.
Import Chrome Commands.

Definition G1 : Z := 1.
Definition G2 : Z := 2.
Definition window : Z := 1.

(** [[pinned: P1] [A(G1) B(G1) selected] [C ungrouped]] *)
Module FullGroup.
Definition P1 := Tab.mk 100 0 window TAB_GROUP_ID_NONE true false.
Definition A := Tab.mk 101 1 window G1 false true.
Definition B := Tab.mk 102 2 window G1 false true.
Definition C := Tab.mk 103 3 window TAB_GROUP_ID_NONE false false.
Definition tabs := [P1; A; B; C].
Definition tabGroups := [TabGroup.mk G1 false].
End FullGroup.

(** [[A(G1) selected, B(G1) unselected] [C ungrouped]] *)
Module PartialGroup.
Definition A := Tab.mk 101 0 window G1 false true.
Definition B := Tab.mk 102 1 window G1 false false.
Definition C := Tab.mk 103 2 window TAB_GROUP_ID_NONE false false.
Definition tabs := [A; B; C].
Definition tabGroups := [TabGroup.mk G1 false].
End PartialGroup.

(** A fully selected group at the end of the strip: [[X] [[A]]] with
    [A] selected. *)
Module GroupAtEnd.
Definition X := Tab.mk 100 0 window TAB_GROUP_ID_NONE false false.
Definition A := Tab.mk 101 1 window G1 false true.
Definition tabs := [X; A].
Definition tabGroups := [TabGroup.mk G1 false].
End GroupAtEnd.

(** A partly selected group at the end of the strip: [[[B] [A]]] with
    [A] selected. *)
Module PartialAtEnd.
Definition B := Tab.mk 100 0 window G1 false false.
Definition A := Tab.mk 101 1 window G1 false true.
Definition tabs := [B; A].
Definition tabGroups := [TabGroup.mk G1 false].
End PartialAtEnd.

(** A selection that reaches into a collapsed group:
    [[A] [[B] [C]]] with [A], [B] selected and the group collapsed. *)
Module IntoCollapsed.
Definition A := Tab.mk 101 0 window TAB_GROUP_ID_NONE false true.
Definition B := Tab.mk 102 1 window G1 false true.
Definition C := Tab.mk 103 2 window G1 false false.
Definition tabs := [A; B; C].
Definition tabGroups := [TabGroup.mk G1 true].
End IntoCollapsed.

(** A selected loose tab in front of a visible group, with a collapsed
    group further on: [[A] [[B]] [[C]]] with [A] selected and the group
    of [C] collapsed. *)
Module BeforeVisible.
Definition A := Tab.mk 101 0 window TAB_GROUP_ID_NONE false true.
Definition B := Tab.mk 102 1 window G1 false false.
Definition C := Tab.mk 103 2 window G2 false false.
Definition tabs := [A; B; C].
Definition tabGroups := [TabGroup.mk G1 false; TabGroup.mk G2 true].
End BeforeVisible.

(** A selected pinned tab next to the unpinned region and a selected
    loose tab at the end of the strip: [[P1] | [X] [Y]] with [P1], [Y]
    selected. *)
Module LooseAtEnd.
Definition P1 := Tab.mk 100 0 window TAB_GROUP_ID_NONE true true.
Definition X := Tab.mk 101 1 window TAB_GROUP_ID_NONE false false.
Definition Y := Tab.mk 102 2 window TAB_GROUP_ID_NONE false true.
Definition tabs := [P1; X; Y].
Definition tabGroups : list TabGroup.t := [].
End LooseAtEnd.

(** Two pinned tabs, the first one selected: [[P1] [P2] |]. *)
Module PinnedPair.
Definition P1 := Tab.mk 100 0 window TAB_GROUP_ID_NONE true true.
Definition P2 := Tab.mk 101 1 window TAB_GROUP_ID_NONE true false.
Definition tabs := [P1; P2].
Definition tabGroups : list TabGroup.t := [].
End PinnedPair.

(** Two pinned tabs, then a loose tab, then a fully selected group. *)
Module BehindPinned.
Definition P1 := Tab.mk 100 0 window TAB_GROUP_ID_NONE true false.
Definition P2 := Tab.mk 101 1 window TAB_GROUP_ID_NONE true false.
Definition X := Tab.mk 102 2 window TAB_GROUP_ID_NONE false false.
Definition A := Tab.mk 103 3 window G1 false true.
Definition B := Tab.mk 104 4 window G1 false true.
Definition tabs := [P1; P2; X; A; B].
Definition run := [A; B].
Definition chunks := [(TAB_GROUP_ID_NONE, [X]); (G1, run)].
End BehindPinned.

End Scenario.

(** ** utils.js: numbers, clamping and relative navigation *)

Module Navigation.
Import Js Utils Chrome Commands.

(** [clamp]: [Math.max(min, Math.min(value, max))]. *)
Definition clamp (value min max : Z) : Z := Z.max min (Z.min value max).

(** An argument that is a number or an object such as the command
    context. *)
Inductive Value : Type :=
| VNumber (n : Z)
| VObject.

(** [n + value] as a number: adding an object to a number concatenates
    strings, and the string is not a number. *)
Definition plusValue (n : Z) (value : Value) : Number :=
  match value with
  | VNumber d => Finite (n + d)
  | VObject => NaN
  end.

(** [a % b]: [NaN] for a [NaN] operand and for a zero divisor. *)
Definition remainder (a b : Number) : Number :=
  match a, b with
  | Finite x, Finite y => if bool_decide (y = 0) then NaN else Finite (Z.rem x y)
  | _, _ => NaN
  end.

Definition plus (a b : Number) : Number :=
  match a, b with
  | Finite x, Finite y => Finite (x + y)
  | _, _ => NaN
  end.

(** [modulo] on every number the callers can pass. *)
Definition moduloNumber (dividend divisor : Number) : Number :=
  remainder (plus (remainder dividend divisor) divisor) divisor.

(** [array[index]] for a number: [NaN] names no element. *)
Definition indexNumber {A} (array : list A) (index : Number) : option A :=
  match index with
  | Finite i => Js.index array i
  | NaN => None
  end.

(** [array.findIndex(p)] as a number: [-1] when nothing is found. *)
Definition findIndexNumber {A} (p : A → bool) (array : list A) : Z :=
  match findIndex p array with
  | Some i => Z.of_nat i
  | None => -1
  end.



End Navigation.

Module Window.
Record t : Type := mk {
  id : Z;
  state : string
}.
End Window.

Module WindowNavigation.
Import Js Utils Chrome Commands Navigation.

(** [getOpenWindowRelative(windowId, delta)], on the windows the host
    lists. *)
Definition getOpenWindowRelative (allWindows : list Window.t) (windowId : Z)
    (delta : Value) : option Window.t :=
  let windows :=
    List.filter (λ window, bool_decide (Window.state window ≠ "minimized")) allWindows in
  let windowIndex :=
    findIndexNumber (λ window, bool_decide (Window.id window = windowId)) windows in
  let index :=
    moduloNumber (plusValue windowIndex delta) (Finite (Z.of_nat (length windows))) in
  indexNumber windows index.

End WindowNavigation.

(** ** commands.js: the commands around the move commands *)

Module MoreCommands.
Import Js Utils Chrome Commands Navigation WindowNavigation.

(** The calls these commands issue beside those of [Op]. *)
Inductive Call : Type :=
| TabsUpdateActive (tabId : Z)
| WindowsFocus (windowId : Z)
| TabGroupsUpdateCollapsed (groupId : Z) (collapsed : bool)
| TabGroupsUpdateColor (groupId : Z) (color : option string)
| TabsDuplicate (tabId : Z)
| TabsHighlightIndices (tabs : list (option Z)) (windowId : Z).

(** A run of such a command. *)
Definition Run (A : Type) : Type := (list Call * Js.Result A)%type.

Definition finish {A} (a : A) : Run A := ([], inr a).

Definition andThen {A B} (m : Run A) (k : A → Run B) : Run B :=
  match m with
  | (calls, inl e) => (calls, inl e)
  | (calls, inr a) => let '(calls', r) := k a in (calls ++ calls', r)
  end.

Definition call (c : Call) : Run unit := ([c], inr tt).
Definition raise {A} (e : Js.Error) : Run A := ([], inl e).

#[export] Instance Run_ret : MRet Run := @finish.
#[export] Instance Run_bind : MBind Run := λ A B k m, andThen m k.

(** [array.slice(start, end)]: a negative bound counts from the end, and
    both bounds are brought back into the array. *)
Definition sliceBound (len i : Z) : Z :=
  if i <? 0 then Z.max (len + i) 0 else Z.min i len.

Definition slice {A} (array : list A) (start : Z) (final : option Z) : list A :=
  let len := Z.of_nat (length array) in
  let k := sliceBound len start in
  let e := match final with Some e => sliceBound len e | None => len end in
  take (Z.to_nat (e - k)) (drop (Z.to_nat k) array).

(** *** focusTabRelative, focusTabByIndex, focusWindowRelative *)



Definition focusWindowRelative (allWindows : list Window.t) (cx : Context)
    (delta : Z) : Run unit :=
  match getOpenWindowRelative allWindows (Tab.windowId (tab cx)) (VNumber delta) with
  | None => raise (TypeError "window.id")
  | Some window => call (WindowsFocus (Window.id window))
  end.

(** *** cycleTabGroupColor *)



(** *** toggleCollapseTabGroups *)

(** [selectedTabs] is the result of the query for highlighted tabs. *)
Definition activeGroupIds (selectedTabs : list Tab.t) : gset Z :=
  list_to_set (Tab.groupId <$> selectedTabs) ∖ {[TAB_GROUP_ID_NONE]}.

Definition toggleCollapseTabGroups (selectedTabs : list Tab.t)
    (allTabGroups : list TabGroup.t) : Run unit :=
  let '(activeGroups, collapsibleGroups) :=
    partition allTabGroups
              (λ tabGroup, bool_decide (TabGroup.id tabGroup ∈ activeGroupIds selectedTabs)) in
  let someExpanded :=
    existsb (λ tabGroup, negb (TabGroup.collapsed tabGroup)) collapsibleGroups in
  (((λ tabGroup, TabGroupsUpdateCollapsed (TabGroup.id tabGroup) someExpanded)
      <$> collapsibleGroups)
   ++ ((λ tabGroup, TabGroupsUpdateCollapsed (TabGroup.id tabGroup) false)
         <$> activeGroups),
   inr tt).

(** *** grabTab *)

(** [tabs] is the result of the query for highlighted tabs. *)
Definition grabTab (tabs : list Tab.t) (cx : Context) : M unit :=
  let currentTabIndex :=
    findIndexNumber (λ tab, bool_decide (Tab.id tab = Tab.id (Commands.tab cx))) tabs in
  let leftTabs := slice tabs 0 (Some currentTabIndex) in
  let rightTabs := slice tabs (currentTabIndex + 1) None in
  moveTabs (getTabId <$> leftTabs)
           {| windowId := None; index := Tab.index (Commands.tab cx) |};;
  moveTabs (reverse (getTabId <$> rightTabs))
           {| windowId := None; index := Tab.index (Commands.tab cx) + 1 |};;
  if bool_decide (Tab.groupId (Commands.tab cx) ≠ TAB_GROUP_ID_NONE)
  then emit (TabsGroup
               ((leftTabs ≫= λ tab, if Tab.pinned tab then [] else [Tab.id tab])
                ++ (getTabId <$> rightTabs))
               (Tab.groupId (Commands.tab cx)))
  else ret tt.

(** *** moveTabPreviousWindow *)

Section PreviousWindow.
Variable movedTab : Z → MoveProperties → Tab.t.
Variable updatedTab : Z → Tab.t.
Variable groupTabs : Z → list Tab.t.
Variable gotTab : Z → Tab.t.

Definition moveTabPreviousWindow (allWindows : list Window.t) (cx : Context)
    (tabs : list Tab.t) : M unit :=
  previousWindow ← defined "previousWindow.id"
                     (getOpenWindowRelative allWindows (Tab.windowId (Commands.tab cx))
                                            (VNumber (-1)));
  moveTabsToWindow movedTab updatedTab groupTabs gotTab cx (Window.id previousWindow) tabs.

End PreviousWindow.

(** *** selectTabsInGroup and selectRightTabs *)

(** The values of [tab.pinned || tab.groupId]: [true], or a group id. *)
Inductive GroupKey : Type :=
| KTrue
| KNumber (groupId : Z).

#[export] Instance GroupKey_eq_dec : EqDecision GroupKey.
Proof. solve_decision. Defined.

#[export] Instance GroupKey_key : Key GroupKey := {| is_undefined := λ _, false |}.

Definition byPinnedOrGroup (tab : Tab.t) : GroupKey :=
  if Tab.pinned tab then KTrue else KNumber (Tab.groupId tab).

Definition selectTabsInGroup (allTabs : list Tab.t) (cx : Context) : M unit :=
  chunks ← lift (chunk allTabs byPinnedOrGroup);
  let tabsToHighlight :=
    Tab.index (Commands.tab cx)
    :: concat ((λ '(_, tabs), if existsb isSelected tabs then Tab.index <$> tabs else [])
                 <$> chunks) in
  emit (TabsHighlight tabsToHighlight (Tab.windowId (Commands.tab cx))).

Definition selectRightTabs (tabs : list Tab.t) (cx : Context) : M unit :=
  let startIndex := findIndexNumber (λ tab, Tab.highlighted tab) tabs in
  let rightTabs := slice tabs startIndex None in
  emit (TabsHighlight (Tab.index <$> (Commands.tab cx :: rightTabs))
                      (Tab.windowId (Commands.tab cx))).

(** *** selectTabDirection *)

(** [for (let index = start; index < tabPartition.length; index += 2)]
    with a body that pushes items on an array; the loop makes at most
    [tabPartition.length] iterations. *)
Fixpoint forStep2Push {A B} (fuel index : nat) (tabPartition : list A)
    (body : A → M (list B)) (pushed : list B) : M (list B) :=
  match fuel with
  | O => ret pushed
  | S fuel' =>
      match tabPartition !! index with
      | None => ret pushed
      | Some entry =>
          items ← body entry;
          forStep2Push fuel' (index + 2) tabPartition body (pushed ++ items)
      end
  end.

(** The [switch] on the direction: [[anchorIndex, focusIndex]], chosen
    by the selection state of the neighbour of the current tab. *)
Definition selectionEnds (direction : Direction) (currentTab : Tab.t)
    (allTabs : list Tab.t) : M (Z * Z) :=
  match direction with
  | Backward =>
      facing ← (if Tab.index currentTab <? Z.of_nat (length allTabs) - 1
                then Tab.highlighted
                       <$> defined "allTabs[currentTab.index + 1].highlighted"
                             (Js.index allTabs (Tab.index currentTab + 1))
                else ret false);
      ret (if facing : bool then (0, -1) else (-1, 0))
  | Forward =>
      facing ← (if 0 <? Tab.index currentTab
                then Tab.highlighted
                       <$> defined "allTabs[currentTab.index - 1].highlighted"
                             (Js.index allTabs (Tab.index currentTab - 1))
                else ret false);
      ret (if facing : bool then (-1, 0) else (0, -1))
  end.

(** The body of the loop over the selected chunks: the indices of the
    tabs in the new range of the chunk. *)
Definition selectionRange (direction : Direction) (allTabs : list Tab.t)
    (anchorIndex focusIndex : Z) (entry : bool * list Tab.t) : M (list Z) :=
  let focusOffset := match direction with Backward => -1 | Forward => 1 end in
  let '(_, selectedTabs) := entry in
  anchorTab ← defined "selectedTabs.at(anchorIndex).index" (at_ selectedTabs anchorIndex);
  focusTab ← defined "selectedTabs.at(focusIndex).index" (at_ selectedTabs focusIndex);
  let anchorTabIndex := Tab.index anchorTab in
  let focusTabIndex :=
    clamp (Tab.index focusTab + focusOffset) 0 (Z.of_nat (length allTabs) - 1) in
  let '(startIndex, endIndex) :=
    if anchorTabIndex <? focusTabIndex
    then (anchorTabIndex, focusTabIndex)
    else (focusTabIndex, anchorTabIndex) in
  ret (Tab.index <$> slice allTabs startIndex (Some (endIndex + 1))).

(** [allTabs] is the result of the query for the tabs of the window. *)
Definition selectTabDirection (direction : Direction) (allTabs : list Tab.t)
    (cx : Context) : M unit :=
  let currentTab := Commands.tab cx in
  '(anchorIndex, focusIndex) ← selectionEnds direction currentTab allTabs;
  tabPartition ← lift (chunk allTabs (λ tab, Tab.highlighted tab));
  defined "tabPartition[0][0]" (tabPartition !! 0%nat);;
  tabsToHighlight ←
    forStep2Push (length tabPartition) (firstSelectedIndex tabPartition) tabPartition
                 (selectionRange direction allTabs anchorIndex focusIndex)
                 [Tab.index currentTab];
  emit (TabsHighlight tabsToHighlight (Tab.windowId currentTab)).

(** *** flipTabSelection *)

(** [while (focusIndex < allTabs.length - 1
            && allTabs[focusIndex + 1].highlighted) focusIndex++]:
    one unit of fuel for each evaluation of the condition, of which
    there are at most [allTabs.length + 1]. *)
Fixpoint scanForward (fuel : nat) (allTabs : list Tab.t) (focusIndex : Z) : M Z :=
  match fuel with
  | O => ret focusIndex
  | S fuel' =>
      selected ← (if focusIndex <? Z.of_nat (length allTabs) - 1
                  then Tab.highlighted
                         <$> defined "allTabs[focusIndex + 1].highlighted"
                               (Js.index allTabs (focusIndex + 1))
                  else ret false);
      if selected : bool then scanForward fuel' allTabs (focusIndex + 1)
      else ret focusIndex
  end.

(** [while (focusIndex > 0 && allTabs[focusIndex - 1].highlighted)
    focusIndex--]. *)
Fixpoint scanBackward (fuel : nat) (allTabs : list Tab.t) (focusIndex : Z) : M Z :=
  match fuel with
  | O => ret focusIndex
  | S fuel' =>
      selected ← (if 0 <? focusIndex
                  then Tab.highlighted
                         <$> defined "allTabs[focusIndex - 1].highlighted"
                               (Js.index allTabs (focusIndex - 1))
                  else ret false);
      if selected : bool then scanBackward fuel' allTabs (focusIndex - 1)
      else ret focusIndex
  end.

(** [allTabs] and [selectedTabs] are the results of the two queries. *)
Definition flipTabSelection (allTabs selectedTabs : list Tab.t) (cx : Context) : M unit :=
  let tabIndex := Tab.index (Commands.tab cx) in
  focusIndex ← scanForward (S (length allTabs)) allTabs tabIndex;
  focusIndex ← (if bool_decide (tabIndex = focusIndex)
                then scanBackward (S (length allTabs)) allTabs focusIndex
                else ret focusIndex);
  emit (TabsHighlight (focusIndex :: (Tab.index <$> selectedTabs))
                      (Tab.windowId (Commands.tab cx))).

(** *** duplicateTab *)

(** [map.set(key, value)] and [map.get(key)] on a [Map] kept as the
    list of its entries in insertion order: setting a key that is
    present replaces its value in place. *)
Fixpoint mapSet {V} (key : Z) (value : V) (entries : list (Z * V)) : list (Z * V) :=
  match entries with
  | [] => [(key, value)]
  | (k, v) :: rest =>
      if bool_decide (k = key) then (k, value) :: rest
      else (k, v) :: mapSet key value rest
  end.

Fixpoint mapGet {V} (key : Z) (entries : list (Z * V)) : option V :=
  match entries with
  | [] => None
  | (k, v) :: rest => if bool_decide (k = key) then Some v else mapGet key rest
  end.

(** [for (const x of array)] with the state the body updates. *)
Fixpoint forEachFrom {A S} (body : S → A → Run S) (state : S) (array : list A) : Run S :=
  match array with
  | [] => finish state
  | x :: rest => state' ← body state x; forEachFrom body state' rest
  end.

Section Duplicate.
(** The tab [chrome.tabs.duplicate(tabId)] resolves to. *)
Variable duplicated : Z → Tab.t.

(** The body of the loop over the chunks.  The block of a fully
    selected group declares [const groupId] on its second line and
    reads [groupId] on its first: the read is in the temporal dead zone
    of the declaration, and the rest of the block is never reached. *)
Definition duplicateChunk (duplicatedTabMap : list (Z * Z))
    (entry : Z * list Tab.t * list Tab.t) : Run (list (Z * Z)) :=
  let '(groupId, selectedTabs, otherTabs) := entry in
  (((λ tab, TabsDuplicate (Tab.id tab)) <$> selectedTabs, inr tt) : Run unit);;
  if bool_decide (groupId ≠ TAB_GROUP_ID_NONE) && bool_decide (length otherTabs = 0%nat)
  then raise (ReferenceError "groupId")
  else finish (foldl (λ entries tab,
                        mapSet (Tab.id tab) (Tab.index (duplicated (Tab.id tab))) entries)
                     duplicatedTabMap selectedTabs).

(** [tabs] is the result of the query for the tabs of the window. *)
Definition duplicateTab (tabs : list Tab.t) (cx : Context) : Run unit :=
  match chunk tabs byGroup with
  | inl e => raise e
  | inr chunks =>
      duplicatedTabMap ← forEachFrom duplicateChunk [] (edgeEntry <$> chunks);
      call (TabsHighlightIndices
              (mapGet (Tab.id (tab cx)) duplicatedTabMap
               :: (Some <$> duplicatedTabMap.*2))
              (Tab.windowId (tab cx)))
  end.

End Duplicate.

End MoreCommands.

(** ** Sample data for the commands around the move commands *)

Module Example.
Import Chrome Commands.

(** Three windows, the second one minimized. *)
Definition windows : list Window.t :=
  [Window.mk 1 "normal"; Window.mk 2 "minimized"; Window.mk 3 "maximized"].


Definition cx (tab : Tab.t) : Context := {| tab := tab |}.

(** A host that puts every tab it moves, updates or gets at the start
    of window 2, lists no tab for a group, and puts the duplicate of a
    tab at the position that follows the id of the tab. *)
Definition movedTab (tabId : Z) (moveProperties : MoveProperties) : Tab.t :=
  Tab.mk tabId 0 2 TAB_GROUP_ID_NONE false true.
Definition updatedTab (tabId : Z) : Tab.t :=
  Tab.mk tabId 0 2 TAB_GROUP_ID_NONE true true.
Definition groupTabs (groupId : Z) : list Tab.t := [].
Definition gotTab (tabId : Z) : Tab.t :=
  Tab.mk tabId 0 2 TAB_GROUP_ID_NONE false true.
Definition duplicated (tabId : Z) : Tab.t :=
  Tab.mk (tabId + 1000) (tabId - 99) Scenario.window TAB_GROUP_ID_NONE false false.

End Example.

(** ** Vocabulary for the commands around the move commands *)

Module MoreSpec.
Import Js Chrome Commands MoreCommands.

(** The windows that are not minimized, in the order of the host. *)
Definition openWindows (allWindows : list Window.t) : list Window.t :=
  List.filter (λ window, bool_decide (Window.state window ≠ "minimized")) allWindows.

(** The calls a run issued, and its result. *)
Definition calls {A} (m : Run A) : list Call := m.1.
Definition result {A} (m : Run A) : Js.Result A := m.2.

(** The groups whose [collapsed] flag the calls set, in call order. *)
Definition updatedGroups (cs : list Call) : list Z :=
  omap (λ c, match c with TabGroupsUpdateCollapsed g _ => Some g | _ => None end) cs.

(** A group with a selected tab. *)
Definition activeGroup (selectedTabs : list Tab.t) (groupId : Z) : Prop :=
  groupId ≠ Chrome.TAB_GROUP_ID_NONE
  ∧ ∃ tab, tab ∈ selectedTabs ∧ Tab.groupId tab = groupId.

(** The tabs the calls move one by one, in call order. *)
Definition movedIds (ops : list Chrome.Op) : list Z :=
  omap (λ op, match op with Chrome.TabsMove tabId _ => Some tabId | _ => None end) ops.

(** The call changes the group of tabs and moves nothing. *)
Definition regroups (op : Chrome.Op) : bool :=
  match op with
  | Chrome.TabsGroup _ _ | Chrome.TabsUngroup _ => true
  | _ => false
  end.

(** What [moveTabsToWindow] issues for one chunk of the unpinned tabs:
    one move of the group when the chunk is a fully selected group, and
    one move per selected tab otherwise. *)
Definition windowChunkOps (windowId : Z) (entry : Z * list Tab.t) : list Chrome.Op :=
  let moveProperties := {| Chrome.windowId := Some windowId; Chrome.index := -1 |} in
  if bool_decide (entry.1 ≠ Chrome.TAB_GROUP_ID_NONE)
     && bool_decide (length (List.filter isSelected entry.2) = length entry.2)
  then [Chrome.TabGroupsMove entry.1 moveProperties]
  else (λ tab, Chrome.TabsMove (Tab.id tab) moveProperties)
         <$> List.filter isSelected entry.2.

(** The chunk is a group all of whose tabs are selected. *)
Definition fullySelectedGroup (entry : Z * list Tab.t) : bool :=
  bool_decide (entry.1 ≠ Chrome.TAB_GROUP_ID_NONE) && forallb isSelected entry.2.

(** Every tab of the strip carries its position as its index. *)
Definition indexed (tabs : list Tab.t) : Prop :=
  ∀ i t, tabs !! i = Some t → Tab.index t = Z.of_nat i.

(** A strip with one selected run: [pre ++ run ++ post], the tabs of
    [run] selected and no other tab. *)
Definition oneRun (pre run post : list Tab.t) : Prop :=
  indexed (pre ++ run ++ post) ∧ run ≠ []
  ∧ Forall (λ t, isSelected t = true) run
  ∧ Forall (λ t, isSelected t = false) pre
  ∧ Forall (λ t, isSelected t = false) post.

(** The run with the tab next to it in the direction of travel, if
    there is one. *)
Definition extended (direction : Direction) (pre run post : list Tab.t) : list Tab.t :=
  match direction with
  | Backward => drop (length pre - 1) pre ++ run
  | Forward => run ++ take 1 post
  end.

(** The position of the end of the run opposite to the direction of
    travel, and the positions of the run that are not that end. *)
Definition nearEnd (direction : Direction) (pre run : list Tab.t) : Z :=
  match direction with
  | Backward => Z.of_nat (length pre + length run) - 1
  | Forward => Z.of_nat (length pre)
  end.

Definition pastNearEnd (direction : Direction) (pre run : list Tab.t) (position : Z)
  : Prop :=
  match direction with
  | Backward => Z.of_nat (length pre) ≤ position < Z.of_nat (length pre + length run) - 1
  | Forward => Z.of_nat (length pre) < position ≤ Z.of_nat (length pre + length run) - 1
  end.

(** The run without the tab at its end opposite to the direction of
    travel. *)
Definition shrunk (direction : Direction) (run : list Tab.t) : list Tab.t :=
  match direction with
  | Backward => take (length run - 1) run
  | Forward => drop 1 run
  end.

End MoreSpec.

(** * Properties of utils.js *)

Section UtilsFacts.
Import Js Utils Spec.

Lemma partition_loop {A} (p : A → bool) (l left right : list A) :
  foldl (λ '(leftPartition, rightPartition) element,
           if p element
           then (leftPartition ++ [element], rightPartition)
           else (leftPartition, rightPartition ++ [element]))
        (left, right) l
  = (left ++ List.filter p l, right ++ List.filter (λ x, negb (p x)) l).
Proof.
  revert left right. induction l as [|x l IH]; intros left right; simpl.
  - by rewrite !app_nil_r.
  - destruct (p x); simpl; rewrite IH; by rewrite <- ?app_assoc.
Qed.

Lemma partition_filter {A} (l : list A) (p : A → bool) :
  partition l p = (List.filter p l, List.filter (λ x, negb (p x)) l).
Proof. unfold partition. by rewrite partition_loop. Qed.

Lemma filter_sublist {A} (p : A → bool) (l : list A) :
  List.filter p l `sublist_of` l.
Proof.
  induction l as [|x l IH]; simpl; [constructor|].
  destruct (p x); by constructor.
Qed.

Lemma filter_split_perm {A} (p : A → bool) (l : list A) :
  List.filter p l ++ List.filter (λ x, negb (p x)) l ≡ₚ l.
Proof.
  induction l as [|x l IH]; simpl; [done|].
  destruct (p x); simpl.
  - by rewrite IH.
  - rewrite <- Permutation_middle. by rewrite IH.
Qed.

(** [((a % n) + n) % n] on exact integers. *)
Lemma rem_wraps (dividend divisor : Z) :
  0 < divisor → Z.rem (Z.rem dividend divisor + divisor) divisor = dividend mod divisor.
Proof.
  intros Hpos.
  pose proof (Z.rem_bound_abs dividend divisor ltac:(lia)) as Habs.
  pose proof (Z.quot_rem' dividend divisor) as Hqr.
  set (r := Z.rem dividend divisor) in *.
  rewrite Z.rem_mod_nonneg by lia.
  pose proof (Z.div_mod (r + divisor) divisor ltac:(lia)) as Hdm.
  pose proof (Z.mod_pos_bound (r + divisor) divisor Hpos) as Hb.
  apply (Z.mod_unique_pos _ _ (dividend ÷ divisor + (r + divisor) / divisor - 1));
    [done|].
  set (q := (r + divisor) / divisor) in *.
  set (m := (r + divisor) mod divisor) in *.
  lia.
Qed.

(** An integer of magnitude below [2^53] is a double. *)
Lemma roundToDouble_exact (z : Z) : Z.abs z < 2 ^ 53 → roundToDouble z = z.
Proof.
  intros Hz. unfold roundToDouble.
  by destruct (Z.ltb_spec (Z.abs z) (2 ^ 53)); [|lia].
Qed.

(** For a divisor up to [2^52] the sum inside [modulo] is below [2^53],
    hence exact. *)
Lemma modulo_mod (dividend divisor : Z) :
  0 < divisor ≤ 2 ^ 52 → modulo dividend divisor = Finite (dividend mod divisor).
Proof.
  intros [Hpos Hle]. unfold modulo. rewrite bool_decide_eq_false_2 by lia.
  pose proof (Z.rem_bound_abs dividend divisor ltac:(lia)) as Habs.
  assert (2 ^ 53 = 2 * 2 ^ 52) as Hpow by done.
  rewrite roundToDouble_exact by lia.
  assert (2 ^ 53 < 2 ^ 1024) as Hbig by (by apply Z.pow_lt_mono_r).
  destruct (Z.leb_spec (2 ^ 1024) (Z.abs (Z.rem dividend divisor + divisor))); [lia|].
  by rewrite rem_wraps.
Qed.

(** *** chunk *)

Context {Element K : Type} `{Key K} (classify : Element → K).

Lemma adjacent_differ_one (a : K) : adjacent_differ [a].
Proof. intros i x y _ Hy. by destruct i. Qed.

Lemma adjacent_differ_snoc (keys : list K) (a b : K) :
  adjacent_differ (keys ++ [a]) → a ≠ b → adjacent_differ ((keys ++ [a]) ++ [b]).
Proof.
  intros Hadj Hab i x y Hx Hy.
  destruct (decide (S i < length (keys ++ [a]))%nat) as [Hlt|Hge].
  - rewrite lookup_app_l in Hx by lia. rewrite lookup_app_l in Hy by lia. eauto.
  - pose proof (lookup_lt_Some _ _ _ Hy) as Hlen.
    rewrite !length_app in Hlen. rewrite length_app in Hge. simpl in Hlen, Hge.
    assert (i = length keys) as -> by lia.
    rewrite lookup_app_l in Hx by (rewrite length_app; simpl; lia).
    rewrite list_lookup_middle in Hx by done.
    rewrite lookup_app_r in Hy by (rewrite length_app; simpl; lia).
    rewrite length_app in Hy. simpl in Hy.
    replace (S (length keys) - (length keys + 1))%nat with 0%nat in Hy by lia.
    simpl in Hy. congruence.
Qed.

Lemma chunk_step_first (x : Element) :
  is_undefined (classify x) = false →
  chunk_step classify [] x = inr [(classify x, [x])].
Proof. intros Hdef. unfold chunk_step. simpl. by rewrite Hdef. Qed.

Lemma chunk_step_same (chunks : list (K * list Element)) (k : K)
    (run : list Element) (x : Element) :
  classify x = k →
  chunk_step classify (chunks ++ [(k, run)]) x = inr (chunks ++ [(k, run ++ [x])]).
Proof.
  intros Hk. unfold chunk_step. rewrite last_snoc.
  rewrite bool_decide_eq_true_2 by done. by rewrite removelast_last.
Qed.

Lemma chunk_step_other (chunks : list (K * list Element)) (k : K)
    (run : list Element) (x : Element) :
  classify x ≠ k →
  chunk_step classify (chunks ++ [(k, run)]) x
  = inr ((chunks ++ [(k, run)]) ++ [(classify x, [x])]).
Proof.
  intros Hk. unfold chunk_step. rewrite last_snoc.
  by rewrite bool_decide_eq_false_2.
Qed.

(** A block of elements that all carry the key of the last chunk joins
    that chunk. *)
Lemma chunk_loop_same (chunks : list (K * list Element)) (k : K)
    (run block : list Element) :
  Forall (λ x, classify x = k) block →
  chunk_loop classify (chunks ++ [(k, run)]) block = inr (chunks ++ [(k, run ++ block)]).
Proof.
  revert run. induction block as [|x block IH]; intros run Hall; simpl.
  - by rewrite app_nil_r.
  - inversion Hall as [|? ? Hx Hrest]; subst.
    rewrite chunk_step_same by done. rewrite IH by done.
    by rewrite <- app_assoc.
Qed.

Lemma chunk_loop_app (chunks chunks' : list (K * list Element)) (l1 l2 : list Element) :
  chunk_loop classify chunks l1 = inr chunks' →
  chunk_loop classify chunks (l1 ++ l2) = chunk_loop classify chunks' l2.
Proof.
  revert chunks. induction l1 as [|x l1 IH]; intros chunks Hl1; simpl in *.
  - by inversion Hl1.
  - destruct (chunk_step classify chunks x); [done|]. by apply IH.
Qed.

(** The loop keeps the chunks a division into maximal runs of what has
    been read so far. *)
Lemma chunk_loop_chunked (read rest : list Element) (chunks : list (K * list Element)) :
  chunked classify read chunks →
  (chunks = [] → ∀ x, head rest = Some x → is_undefined (classify x) = false) →
  ∃ chunks', chunk_loop classify chunks rest = inr chunks'
             ∧ chunked classify (read ++ rest) chunks'.
Proof.
  revert read chunks. induction rest as [|x rest IH]; intros read chunks Hinv Hdef.
  - exists chunks. by rewrite app_nil_r.
  - destruct Hinv as [Hcat Hunif Hadj]. simpl.
    replace (read ++ x :: rest) with ((read ++ [x]) ++ rest)
      by (by rewrite <- app_assoc).
    destruct chunks as [|c chunks _] using rev_ind.
    + rewrite chunk_step_first by (by apply Hdef).
      apply IH; [|done]. simpl in Hcat. subst read.
      split; simpl.
      * done.
      * repeat constructor; done.
      * apply adjacent_differ_one.
    + destruct c as [k run].
      rewrite fmap_app, concat_app in Hcat. simpl in Hcat.
      rewrite app_nil_r in Hcat.
      apply Forall_app in Hunif as [Hunif Hlast].
      apply Forall_singleton in Hlast as [Hne Hrun]. simpl in *.
      destruct (decide (classify x = k)) as [Heq|Hneq].
      * rewrite chunk_step_same by done.
        apply IH; [|by intros ?%app_nil; intuition].
        split.
        -- rewrite fmap_app, concat_app. simpl. rewrite app_nil_r.
           rewrite <- Hcat. by rewrite <- app_assoc.
        -- apply Forall_app. split; [done|]. apply Forall_singleton.
           split; simpl; [by destruct run|].
           apply Forall_app. split; [done|]. by apply Forall_singleton.
        -- rewrite fmap_app in *. done.
      * rewrite chunk_step_other by done.
        apply IH; [|by intros ?%app_nil; intuition].
        split.
        -- rewrite !fmap_app, !concat_app. simpl. rewrite !app_nil_r.
           by rewrite <- Hcat.
        -- apply Forall_app. split.
           ++ apply Forall_app. split; [done|]. by apply Forall_singleton.
           ++ apply Forall_singleton. split; simpl; [done|]. by apply Forall_singleton.
        -- rewrite !fmap_app in *. simpl in *.
           apply adjacent_differ_snoc; [done|]. congruence.
Qed.

Lemma chunk_chunked (S : list Element) :
  (∀ x, head S = Some x → is_undefined (classify x) = false) →
  ∃ chunks, chunk S classify = inr chunks ∧ chunked classify S chunks.
Proof.
  intros Hdef. unfold chunk.
  apply (chunk_loop_chunked [] S []); [|done].
  split; [done|constructor|]. intros i a b Ha. by destruct i.
Qed.

Lemma chunked_maximal (S : list Element) (chunks : list (K * list Element)) :
  chunked classify S chunks → maximal_runs classify chunks.
Proof.
  intros [_ Hunif Hadj] i k run Hi. split; intros x Hx.
  - destruct i as [|j]; [done|].
    destruct (lookup_lt_is_Some_2 chunks j) as [[k' run'] Hj].
    { apply lookup_lt_Some in Hi. lia. }
    rewrite (take_S_r _ _ _ Hj), fmap_app, concat_app in Hx.
    simpl in Hx. rewrite app_nil_r in Hx.
    pose proof (proj1 (Forall_lookup _ _) Hunif _ _ Hj) as [Hne Hrun].
    simpl in *.
    destruct run' as [|y run' _] using rev_ind; [done|].
    rewrite app_assoc, last_snoc in Hx. inversion Hx; subst y.
    assert (classify x = k') as ->.
    { apply (proj1 (Forall_forall _ _) Hrun). set_solver. }
    apply (Hadj j); by rewrite list_lookup_fmap, ?Hj, ?Hi.
  - destruct (chunks !! Datatypes.S i) as [[k' run']|] eqn:Hj.
    + rewrite (drop_S _ _ _ Hj) in Hx. simpl in Hx.
      pose proof (proj1 (Forall_lookup _ _) Hunif _ _ Hj) as [Hne Hrun].
      simpl in *. destruct run' as [|y run']; [done|].
      simpl in Hx. inversion Hx; subst y.
      assert (classify x = k') as ->.
      { apply (proj1 (Forall_forall _ _) Hrun). set_solver. }
      intros ->.
      apply (Hadj i k k);
        [by rewrite list_lookup_fmap, Hi|by rewrite list_lookup_fmap, Hj|done].
    + apply lookup_ge_None in Hj. by rewrite drop_ge in Hx.
Qed.

Lemma concat_lookup_incl {A} (ls : list (list A)) (i : nat) (l : list A) :
  ls !! i = Some l → l ⊆ concat ls.
Proof.
  revert i. induction ls as [|l' ls IH]; intros [|i] Hi; simplify_eq/=.
  - set_solver.
  - specialize (IH _ Hi). set_solver.
Qed.

(** Every run of a division lies within the sequence. *)
Lemma chunked_run_incl (S : list Element) (chunks : list (K * list Element))
    (i : nat) (k : K) (run : list Element) :
  chunked classify S chunks → chunks !! i = Some (k, run) → run ⊆ S.
Proof.
  intros [Hcat _ _] Hi. rewrite <- Hcat.
  apply (concat_lookup_incl _ i). by rewrite list_lookup_fmap, Hi.
Qed.

End UtilsFacts.

(** * The claims about utils.js *)

Section UtilsClaims.
Import Js Utils Spec.

(** The division computed by [chunk], for a classifier whose key for the
    first element is not [undefined]: the runs concatenate to the
    sequence, each is a non-empty block carrying one key, no two
    neighbouring runs share a key, and no run can be extended. *)
Lemma chunk_spec {Element K} `{Key K} (S : list Element) (classify : Element → K) :
  (∀ x, head S = Some x → is_undefined (classify x) = false) →
  ∃ chunks, chunk S classify = inr chunks
            ∧ concat chunks.*2 = S
            ∧ Forall (uniform classify) chunks
            ∧ adjacent_differ chunks.*1
            ∧ maximal_runs classify chunks.
Proof.
  intros Hdef. destruct (chunk_chunked classify S Hdef) as (chunks & Hrun & Hch).
  exists chunks. pose proof (chunked_maximal _ _ _ Hch). by destruct Hch.
Qed.

(** C5, at an input where the code departs from it: a classifier that
    reads a property missing on the first element returns [undefined]
    there, and [chunk] raises a TypeError instead of returning the
    runs. *)
Theorem chunk_missing_first_key :
  chunk [1; 2; 2] (λ n : Z, if bool_decide (n = 1) then None else Some n)
  = inl (TypeError "currentChunk.push").
Proof. reflexivity. Qed.

(** C6: [partition] returns the elements that satisfy the predicate and
    those that do not, each in their original relative order, and every
    element of the sequence lands in exactly one of the two. *)
Theorem partition_stable_split {A} (S : list A) (P : A → bool) :
  ∃ matching nonMatching,
    partition S P = (matching, nonMatching)
    ∧ matching = List.filter P S
    ∧ nonMatching = List.filter (λ x, negb (P x)) S
    ∧ (∀ x, x ∈ matching → P x = true)
    ∧ (∀ x, x ∈ nonMatching → P x = false)
    ∧ matching `sublist_of` S
    ∧ nonMatching `sublist_of` S
    ∧ matching ++ nonMatching ≡ₚ S
    ∧ (length matching + length nonMatching = length S)%nat.
Proof.
  eexists _, _. split; [apply partition_filter|].
  split; [done|]. split; [done|].
  split. { intros x Hx%list_elem_of_In%filter_In. tauto. }
  split. { intros x Hx%list_elem_of_In%filter_In. by destruct Hx, (P x). }
  split; [apply filter_sublist|]. split; [apply filter_sublist|].
  split; [apply filter_split_perm|].
  rewrite <- length_app. by rewrite filter_split_perm.
Qed.

(** C7, at an input where the code departs from it: with a classifier
    that returns [undefined] for the first element, [chunk] does not
    return normally. *)
Theorem chunk_undefined_key_raises :
  chunk [Tab.mk 1 0 1 (-1) false false] (λ _ : Tab.t, @None bool)
  = inl (TypeError "currentChunk.push").
Proof. reflexivity. Qed.

(** C10 as amended: for a strictly positive divisor up to [2^52],
    [modulo] returns a number, the one value between 0 and the divisor
    that is congruent to the dividend, for negative dividends too. *)
Theorem modulo_wraps (dividend divisor : Z) :
  0 < divisor ≤ 2 ^ 52 →
  ∃ r, modulo dividend divisor = Finite r
       ∧ 0 ≤ r < divisor
       ∧ (divisor | dividend - r)
       ∧ ∀ r', 0 ≤ r' < divisor → (divisor | dividend - r') → r' = r.
Proof.
  intros Hdivisor. rewrite modulo_mod by done.
  assert (0 < divisor) as Hpos by lia.
  pose proof (Z.mod_pos_bound dividend divisor Hpos) as Hb.
  pose proof (Z.div_mod dividend divisor ltac:(lia)) as Hdm.
  exists (dividend mod divisor). split; [done|]. split; [done|]. split.
  - exists (dividend / divisor). lia.
  - intros r Hr [q Hq]. apply (Z.mod_unique_pos _ _ q); lia.
Qed.

Lemma modulo_wraps_witness :
  0 < 5 ≤ 2 ^ 52
  ∧ ∃ r, modulo (-1) 5 = Finite r
         ∧ 0 ≤ r < 5
         ∧ (5 | -1 - r)
         ∧ ∀ r', 0 ≤ r' < 5 → (5 | -1 - r') → r' = r.
Proof. split; [done | apply (modulo_wraps (-1) 5); done]. Defined.

(** The claim C10 as it stands fails for a divisor above [2^52]: with
    the dividend [2^53 - 2] and the divisor [2^53 - 1], both of them
    doubles, the sum [2^54 - 3] inside [modulo] is no double and is
    rounded to [2^54 - 4]; the result [2^53 - 3] is not congruent to
    the dividend. *)
Lemma modulo_large_divisor_rounds :
  0 < 2 ^ 53 - 1
  ∧ modulo (2 ^ 53 - 2) (2 ^ 53 - 1) = Finite (2 ^ 53 - 3)
  ∧ ¬ (2 ^ 53 - 1 | (2 ^ 53 - 2) - (2 ^ 53 - 3)).
Proof.
  split; [done|]. split; [by vm_compute|].
  intros [q Hq].
  change (2 ^ 53 - 2 - (2 ^ 53 - 3)) with 1 in Hq.
  change (2 ^ 53 - 1) with 9007199254740991 in Hq. lia.
Qed.

End UtilsClaims.

(** * The claims about the move commands *)

Section ScenarioClaims.
Import Js Utils Chrome Commands Spec Scenario.

(** C3, at the scenario itself: the chain reaches the arm of a fully
    selected group followed by a loose tab, whose body reads
    [targetInfo], an identifier without a binding; the run stops there
    and no call is issued. *)
Theorem full_group_forward_raises :
  moveTabDirection Forward FullGroup.tabs FullGroup.tabGroups
  = ([], inl (ReferenceError "targetInfo")).
Proof. vm_compute. reflexivity. Qed.

(** The arm taken in the scenario of C3. *)
Lemma full_group_forward_branch :
  selectBranch FullGroup.tabs FullGroup.tabGroups
               FullGroup.B FullGroup.A (Some FullGroup.C)
  = ([], inr FullGroupPastTab).
Proof. vm_compute. reflexivity. Qed.



(** The loop over the pinned chunks issues the move of the target while
    it evaluates the arguments of [moveTabs.push], and then fails on the
    call. *)
Lemma pinned_forward_moves_then_raises :
  moveTabDirection Forward PinnedPair.tabs PinnedPair.tabGroups
  = ([TabsMove (Tab.id PinnedPair.P2)
               {| windowId := None; index := Tab.index PinnedPair.P1 |}],
     inl (TypeError "moveTabs.push is not a function")).
Proof. vm_compute. reflexivity. Qed.

(** C9: called with the window the tabs are already in,
    [moveTabsToWindow] returns at once; no call is issued, so the host
    is left as it was whatever the calls would do. *)
Theorem moveTabsToWindow_same_window
    (movedTab : Z → MoveProperties → Tab.t) (updatedTab : Z → Tab.t)
    (groupTabs : Z → list Tab.t) (gotTab : Z → Tab.t)
    (cx : Context) (tabs : list Tab.t) :
  moveTabsToWindow movedTab updatedTab groupTabs gotTab
                   cx (Tab.windowId (tab cx)) tabs
  = ([], inr tt)
  ∧ ∀ (Host : Type) (apply : Op → Host → Host) (host : Host),
      applyAll apply
        (issued (moveTabsToWindow movedTab updatedTab groupTabs gotTab
                                  cx (Tab.windowId (tab cx)) tabs))
        host
      = host.
Proof.
  unfold moveTabsToWindow. rewrite bool_decide_eq_true_2 by done. done.
Qed.

(** With another window as destination the same call does issue moves. *)
Lemma moveTabsToWindow_other_window :
  issued (moveTabsToWindow (λ _ _, FullGroup.A) (λ _, FullGroup.A) (λ _, [])
                           (λ _, FullGroup.A)
                           {| tab := FullGroup.A |} 2 FullGroup.tabs)
  = [TabGroupsMove G1 {| windowId := Some 2; index := -1 |};
     WindowsUpdateFocused 2;
     TabsHighlight [1] 2].
Proof. vm_compute. reflexivity. Qed.

End ScenarioClaims.

(** * Runs of commands *)

Section RunFacts.
Import Js Utils Chrome Commands Spec.

Lemma bind_unfold {A B} (m : M A) (k : A → M B) :
  m ≫= k = match m with
           | (ops, inl e) => (ops, inl e)
           | (ops, inr a) => (ops ++ issued (k a), outcome (k a))
           end.
Proof.
  unfold mbind, M_bind, bind. destruct m as [ops [e|a]]; [done|].
  by destruct (k a).
Qed.

Lemma bind_ok {A B} (m : M A) (k : A → M B) (ops : list Op) (a : A) :
  m = (ops, inr a) → m ≫= k = (ops ++ issued (k a), outcome (k a)).
Proof. intros ->. by rewrite bind_unfold. Qed.

Lemma bind_silent {A B} (m : M A) (k : A → M B) (a : A) :
  m = ([], inr a) → m ≫= k = k a.
Proof. intros ->. rewrite bind_unfold. simpl. by destruct (k a). Qed.

Lemma bind_issued {A B} (m : M A) (k : A → M B) :
  issued (m ≫= k)
  = issued m ++ match outcome m with inr a => issued (k a) | inl _ => [] end.
Proof.
  rewrite bind_unfold. destruct m as [ops [e|a]]; simpl; [|done].
  by rewrite app_nil_r.
Qed.

(** A property of every call of [m] and of every continuation holds of
    every call of the sequence. *)
Lemma bind_Forall {A B} (P : Op → Prop) (m : M A) (k : A → M B) :
  Forall P (issued m) →
  (∀ a, outcome m = inr a → Forall P (issued (k a))) →
  Forall P (issued (m ≫= k)).
Proof.
  intros Hm Hk. rewrite bind_issued. apply Forall_app. split; [done|].
  destruct (outcome m) as [e|a]; [constructor|by apply Hk].
Qed.

Lemma forEach_ok {A} (body : A → M unit) (array : list A) :
  (∀ x, x ∈ array → outcome (body x) = inr tt) →
  forEach body array = (concat ((λ x, issued (body x)) <$> array), inr tt).
Proof.
  induction array as [|x array IH]; intros Hok; simpl; [done|].
  rewrite bind_unfold.
  pose proof (Hok x ltac:(set_solver)) as Hx.
  destruct (body x) as [ops [e|[]]]; simpl in *; [done|].
  rewrite IH by (intros; apply Hok; set_solver). done.
Qed.

Lemma forEach_Forall {A} (P : Op → Prop) (body : A → M unit) (array : list A) :
  (∀ x, x ∈ array → Forall P (issued (body x))) →
  Forall P (issued (forEach body array)).
Proof.
  induction array as [|x array IH]; intros Hall; simpl; [constructor|].
  apply bind_Forall; [apply Hall; set_solver|].
  intros _ _. apply IH. intros; apply Hall; set_solver.
Qed.

Lemma moveTabs_run (tabIds : list Z) (moveProperties : MoveProperties) :
  moveTabs tabIds moveProperties
  = ((λ tabId, TabsMove tabId moveProperties) <$> tabIds, inr tt).
Proof.
  unfold moveTabs. rewrite forEach_ok by done.
  f_equal. induction tabIds as [|x l IH]; [done|]. cbn in *. by rewrite IH.
Qed.

(** The fuel given to the loop is enough: any amount that covers the
    chunks from [index] on yields the same run. *)
Lemma forStep2_fuel {A} (fuel fuel' index : nat) (tabPartition : list A)
    (body : A → M unit) :
  (length tabPartition ≤ index + fuel)%nat →
  (length tabPartition ≤ index + fuel')%nat →
  forStep2 fuel index tabPartition body = forStep2 fuel' index tabPartition body.
Proof.
  revert fuel' index. induction fuel as [|fuel IH]; intros [|fuel'] index Hf Hf'; simpl.
  - done.
  - by rewrite lookup_ge_None_2 by lia.
  - by rewrite lookup_ge_None_2 by lia.
  - destruct (tabPartition !! index); [|done].
    f_equal. by rewrite (IH fuel' (index + 2)%nat) by lia.
Qed.

(** *** Arrays *)

Lemma at_elem {A} (array : list A) (i : Z) (x : A) :
  at_ array i = Some x → x ∈ array.
Proof.
  unfold at_. repeat case_match; try done; apply list_elem_of_lookup_2.
Qed.

Lemma at_first {A} (x : A) (array : list A) : at_ (x :: array) 0 = Some x.
Proof. done. Qed.

Lemma at_last {A} (array : list A) (x : A) : at_ (array ++ [x]) (-1) = Some x.
Proof.
  unfold at_. simpl. rewrite length_app. simpl.
  rewrite (proj2 (Z.ltb_ge _ 0)) by lia.
  replace (Z.to_nat (Z.of_nat (length array + 1) + -1)) with (length array) by lia.
  by rewrite list_lookup_middle.
Qed.

Lemma splice1_first {A} (x : A) (array : list A) : splice1 (x :: array) 0 = array.
Proof. done. Qed.

Lemma splice1_last {A} (array : list A) (x : A) : splice1 (array ++ [x]) (-1) = array.
Proof.
  unfold splice1. simpl. rewrite length_app. simpl.
  replace (Z.to_nat (Z.max (Z.of_nat (length array + 1) + -1) 0))
    with (length array) by lia.
  induction array as [|y array IH]; simpl; [done|]. by rewrite IH.
Qed.

(** *** The pinned prefix *)

Lemma findIndex_spec {A} (p : A → bool) (array : list A) :
  match findIndex p array with
  | None => Forall (λ x, p x = false) array
  | Some n => Forall (λ x, p x = false) (take n array)
              ∧ ∃ x, array !! n = Some x ∧ p x = true
  end.
Proof.
  induction array as [|x array IH]; simpl; [constructor|].
  destruct (p x) eqn:Hx.
  - split; [constructor|]. by exists x.
  - destruct (findIndex p array) as [n|]; simpl.
    + destruct IH as [Hpre Hn]. split; [by constructor|done].
    + by constructor.
Qed.

(** The first slice holds pinned tabs only, the second one starts with
    a tab that is not pinned, and together they are the strip. *)
Lemma splitPinned_spec (tabs : list Tab.t) :
  tabs = (splitPinned tabs).1 ++ (splitPinned tabs).2
  ∧ Forall (λ tab, Tab.pinned tab = true) (splitPinned tabs).1
  ∧ ∀ tab, head (splitPinned tabs).2 = Some tab → Tab.pinned tab = false.
Proof.
  unfold splitPinned.
  pose proof (findIndex_spec (λ tab, negb (Tab.pinned tab)) tabs) as Hspec.
  destruct (findIndex _ tabs) as [n|]; simpl.
  - destruct Hspec as [Hpre (x & Hx & Hpx)].
    split; [by rewrite take_drop|]. split.
    + eapply Forall_impl; [done|]. intros tab. simpl. by destruct (Tab.pinned tab).
    + intros tab. rewrite (drop_S _ _ _ Hx). simpl. intros [= <-].
      by destruct (Tab.pinned x).
  - split; [by rewrite app_nil_r|]. split; [|done].
    eapply Forall_impl; [done|]. intros tab. simpl. by destruct (Tab.pinned tab).
Qed.

(** *** Map.groupBy *)

Lemma groupBy_loop_keeps {A} (callback : A → Z) (items : list A)
    (groups : gmap Z (list A)) (x : A) :
  (∃ group, groups !! callback x = Some group ∧ x ∈ group) →
  ∃ group,
    foldl (λ groups value,
             let key := callback value in
             <[key := default [] (groups !! key) ++ [value]]> groups)
          groups items !! callback x = Some group
    ∧ x ∈ group.
Proof.
  revert groups. induction items as [|y items IH]; intros groups Hx; simpl; [done|].
  apply IH. destruct Hx as (group & Hgroup & Hin).
  destruct (decide (callback y = callback x)) as [Heq|Hne].
  - rewrite Heq, lookup_insert_eq, Hgroup. simpl. eexists. split; [done|]. set_solver.
  - rewrite lookup_insert_ne by done. eauto.
Qed.

(** Every item is found in the group of its key. *)
Lemma groupBy_lookup {A} (items : list A) (callback : A → Z) (x : A) :
  x ∈ items →
  ∃ group, groupBy items callback !! callback x = Some group ∧ x ∈ group.
Proof.
  unfold groupBy. generalize (∅ : gmap Z (list A)).
  induction items as [|y items IH]; intros groups Hx; [by inversion Hx|].
  simpl. apply elem_of_cons in Hx as [->|Hx]; [|by apply IH].
  apply groupBy_loop_keeps. rewrite lookup_insert_eq.
  eexists. split; [done|]. set_solver.
Qed.

End RunFacts.

(** * The edge move *)

Section EdgeFacts.
Import Js Utils Chrome Commands Spec.

Lemma elem_of_concat {A} (x : A) (ls : list (list A)) :
  x ∈ concat ls → ∃ i l, ls !! i = Some l ∧ x ∈ l.
Proof.
  induction ls as [|l ls IH]; simpl; [by intros ?%elem_of_nil|].
  intros [Hx|Hx]%elem_of_app.
  - by exists 0%nat, l.
  - destruct (IH Hx) as (i & l' & Hi & Hl'). by exists (S i), l'.
Qed.

(** The lists of a concatenation without duplicates are disjoint. *)
Lemma concat_disjoint {A} (ls : list (list A)) (i j : nat) (a b : list A) (x : A) :
  NoDup (concat ls) → ls !! i = Some a → ls !! j = Some b → i ≠ j →
  x ∈ a → x ∈ b → False.
Proof.
  revert i j. induction ls as [|l ls IH]; intros i j Hnd Hi Hj Hij Ha Hb; [done|].
  simpl in Hnd. apply NoDup_app in Hnd as (_ & Hdisj & Hnd).
  destruct i as [|i], j as [|j]; simplify_eq/=.
  - apply (Hdisj x Ha). by eapply concat_lookup_incl.
  - apply (Hdisj x Hb). by eapply concat_lookup_incl.
  - eapply (IH i j); eauto.
Qed.

(** Tabs of a strip with unique ids are told apart by their id. *)
Lemma unique_id {A} (f : A → Z) (l : list A) (x y : A) :
  NoDup (f <$> l) → x ∈ l → y ∈ l → f x = f y → x = y.
Proof.
  intros Hnd (i & Hi)%list_elem_of_lookup (j & Hj)%list_elem_of_lookup Hxy.
  assert (i = j) as ->; [|congruence].
  apply (NoDup_lookup _ _ _ (f x) Hnd); rewrite list_lookup_fmap.
  - by rewrite Hi.
  - rewrite Hj. simpl. by rewrite Hxy.
Qed.

Lemma at_nonempty {A} (array : list A) (i : Z) :
  array ≠ [] → i = 0 ∨ i = -1 → is_Some (at_ array i).
Proof.
  intros Hne [-> | ->].
  - destruct array; [done|]. by eexists.
  - destruct array as [|x array _] using rev_ind; [done|].
    rewrite at_last. by eexists.
Qed.

Lemma partition_all {A} (p : A → bool) (l : list A) :
  forallb p l = true → partition l p = (l, []).
Proof.
  intros Hall. rewrite partition_filter. f_equal.
  - induction l as [|x l IH]; simpl in *; [done|].
    apply andb_true_iff in Hall as [-> Hall]. by rewrite IH.
  - induction l as [|x l IH]; simpl in *; [done|].
    apply andb_true_iff in Hall as [-> Hall]. simpl. by apply IH.
Qed.

Lemma chunk_byGroup (region : list Tab.t) :
  ∃ chunks, chunk region byGroup = inr chunks ∧ chunked byGroup region chunks.
Proof. by apply chunk_chunked. Qed.

(** The callback of the edge move returns normally on every chunk of
    the strip, and the only tabs it moves on their own are tabs of that
    chunk. *)
Lemma moveEdgeChunk_run (direction : Direction) (tabs pinnedTabs : list Tab.t)
    (groupId : Z) (run : list Tab.t) :
  run ≠ [] → Forall (λ tab, byGroup tab = groupId) run → run ⊆ tabs →
  let entry := (groupId, (partition run isSelected).1, (partition run isSelected).2) in
  outcome (moveEdgeChunk direction tabs pinnedTabs entry) = inr tt
  ∧ Forall (λ op, ∀ tabId, movesTab tabId op = true → tabId ∈ getTabId <$> run)
           (issued (moveEdgeChunk direction tabs pinnedTabs entry)).
Proof.
  intros Hne Hkey Hincl. rewrite partition_filter. simpl.
  assert (∀ props,
    Forall (λ op, ∀ tabId, movesTab tabId op = true → tabId ∈ getTabId <$> run)
           ((λ tabId, TabsMove tabId props) <$> (getTabId <$> List.filter isSelected run)))
    as Hmoves.
  { intros props. apply Forall_fmap, Forall_fmap, Forall_forall.
    intros tab Htab%list_elem_of_In%filter_In tabId. simpl.
    intros <-%bool_decide_eq_true. apply list_elem_of_fmap.
    exists tab. split; [done|]. apply list_elem_of_In. tauto. }
  unfold moveEdgeChunk.
  destruct (bool_decide (groupId ≠ TAB_GROUP_ID_NONE)); simpl.
  - destruct (bool_decide (length _ = 0%nat)) eqn:Hlen; simpl.
    { split; [done|]. repeat constructor. by intros tabId. }
    rewrite bool_decide_eq_false in Hlen. rewrite bool_decide_eq_true_2 by done.
    assert (∃ x, x ∈ run) as [x Hxrun].
    { destruct run as [|x run']; [done|]. exists x. set_solver. }
    destruct (groupBy_lookup tabs byGroup x) as (group & Hgroup & Hx);
      [set_solver|].
    rewrite (proj1 (Forall_forall _ _) Hkey x Hxrun) in Hgroup.
    unfold tabsByGroup. rewrite Hgroup.
    rewrite (bind_silent _ _ group) by done.
    destruct (at_nonempty group (edgeIndex direction)) as [edgeTab HedgeTab].
    { intros ->. by apply elem_of_nil in Hx. }
    { destruct direction; auto. }
    rewrite HedgeTab. rewrite (bind_silent _ _ edgeTab) by done.
    rewrite moveTabs_run. split; [done|]. apply Hmoves.
  - rewrite moveTabs_run. split; [done|]. apply Hmoves.
Qed.

(** C8: in an edge move to the start of the strip, a chunk of the
    unpinned region that carries a group and is wholly selected gets one
    call, a move of the whole group to the index that equals the number
    of tabs of the pinned prefix: every tab before that index is pinned,
    the tab at it is not, and the index is the number of pinned tabs of
    the strip when no pinned tab lies outside the prefix.  The command
    returns normally, so the call is issued, and when tab ids are
    distinct no other call of the command moves a tab of that chunk on
    its own: the order of its members is the one the group move keeps. *)
Theorem moveTabFirst_full_group (tabs : list Tab.t)
    (chunks : list (Z * list Tab.t)) (i : nat) (groupId : Z) (run : list Tab.t) :
  let pinnedTabs := (splitPinned tabs).1 in
  let otherTabs := (splitPinned tabs).2 in
  let groupMove :=
    TabGroupsMove groupId
      {| windowId := None; index := Z.of_nat (length pinnedTabs) |} in
  chunk otherTabs byGroup = inr chunks →
  chunks !! i = Some (groupId, run) →
  groupId ≠ TAB_GROUP_ID_NONE →
  forallb isSelected run = true →
  moveEdgeChunk Backward tabs pinnedTabs (edgeEntry (groupId, run))
  = ([groupMove], inr tt)
  ∧ (∃ before after,
       moveTabEdgeDirection Backward tabs = (before ++ groupMove :: after, inr tt)
       ∧ (uniqueIds tabs = true →
          ∀ tab op, tab ∈ run → op ∈ before ++ after →
                    movesTab (Tab.id tab) op = false))
  ∧ Forall (λ tab, Tab.pinned tab = true) pinnedTabs
  ∧ (∀ tab, tabs !! length pinnedTabs = Some tab → Tab.pinned tab = false)
  ∧ (Forall (λ tab, Tab.pinned tab = false) otherTabs →
     length pinnedTabs = length (List.filter Tab.pinned tabs)).
Proof.
  intros pinnedTabs otherTabs groupMove Hchunk Hi Hgroup Hall.
  destruct (splitPinned_spec tabs) as (Htabs & Hpinned & Hhead).
  fold pinnedTabs otherTabs in Htabs, Hpinned, Hhead.
  destruct (chunk_byGroup otherTabs) as (chunks' & Hchunk' & Hch).
  rewrite Hchunk in Hchunk'. inversion Hchunk'; subst chunks'. clear Hchunk'.
  assert (edgeEntry (groupId, run) = (groupId, run, [])) as Hentry.
  { unfold edgeEntry. by rewrite partition_all. }
  assert (moveEdgeChunk Backward tabs pinnedTabs (groupId, run, [])
          = ([groupMove], inr tt)) as Hmove.
  { unfold moveEdgeChunk. by rewrite !bool_decide_eq_true_2 by done. }
  split; [by rewrite Hentry|]. split; [|split; [done|split]].
  - assert (∀ j g r, chunks !! j = Some (g, r) →
              outcome (moveEdgeChunk Backward tabs pinnedTabs (edgeEntry (g, r))) = inr tt
              ∧ Forall (λ op, ∀ tabId, movesTab tabId op = true → tabId ∈ getTabId <$> r)
                       (issued (moveEdgeChunk Backward tabs pinnedTabs (edgeEntry (g, r)))))
      as Hruns.
    { intros j g r Hj.
      pose proof (proj1 (Forall_lookup _ _) (chunked_uniform _ _ _ Hch) _ _ Hj)
        as [Hne Hkey].
      pose proof (chunked_run_incl _ _ _ _ _ _ Hch Hj) as Hincl.
      assert (r ⊆ tabs) as Hsub.
      { intros x Hx. rewrite Htabs. apply elem_of_app. right. by apply Hincl. }
      generalize (moveEdgeChunk_run Backward tabs pinnedTabs g r Hne Hkey Hsub).
      unfold edgeEntry. by destruct (partition r isSelected) as [sel others]. }
    assert ((edgeEntry <$> chunks) !! i = Some (groupId, run, [])) as Hlookup.
    { rewrite list_lookup_fmap, Hi. simpl. f_equal. exact Hentry. }
    set (body := moveEdgeChunk Backward tabs pinnedTabs).
    set (pinnedMoves :=
           (λ tabId, TabsMove tabId {| windowId := None; index := 0 |})
             <$> (getTabId <$> List.filter isSelected pinnedTabs)).
    exists (pinnedMoves ++ concat ((λ x, issued (body x)) <$> take i (edgeEntry <$> chunks))),
           (concat ((λ x, issued (body x)) <$> drop (S i) (edgeEntry <$> chunks))).
    split.
    + unfold moveTabEdgeDirection.
      destruct (splitPinned tabs) as [pinned others] eqn:Hsplit.
      simpl in pinnedTabs, otherTabs. subst pinnedTabs otherTabs.
      unfold edgePartition. rewrite Hchunk.
      rewrite (bind_silent _ _ (edgeEntry <$> chunks)) by done.
      rewrite moveTabs_run. unfold toOrdered, edgeIndex.
      erewrite bind_ok by done. fold body.
      rewrite forEach_ok.
      * simpl. f_equal. rewrite <- app_assoc. f_equal.
        rewrite <- (take_drop_middle (edgeEntry <$> chunks) i (groupId, run, [])) at 1
          by done.
        rewrite fmap_app, concat_app, fmap_cons. f_equal.
        cbn [concat]. cbv beta. unfold body at 1. by rewrite Hmove.
      * intros entry ([g r] & -> & (j & Hj)%list_elem_of_lookup)%list_elem_of_fmap.
        by apply (Hruns j).
    + intros Hids%bool_decide_eq_true tab op Htab Hop.
      apply not_true_is_false. intros Hmoves.
      assert (tab ∈ otherTabs) as Hother
        by (by eapply (chunked_run_incl _ _ _ _ _ _ Hch Hi)).
      assert (NoDup tabs) as Hnd by (by eapply NoDup_fmap_1).
      assert (∀ j g r, j ≠ i → chunks !! j = Some (g, r) →
                op ∈ issued (body (edgeEntry (g, r))) → False) as Hdisj.
      { intros j g r Hji Hj Hin.
        destruct (Hruns j g r Hj) as [_ Hissued].
        pose proof (proj1 (Forall_forall _ _) Hissued op Hin _ Hmoves) as Hid.
        apply list_elem_of_fmap in Hid as (tab' & Hid & Htab').
        assert (tab = tab') as <-.
        { apply (unique_id Tab.id tabs); [done| | |done]; rewrite Htabs.
          - apply elem_of_app. by right.
          - apply elem_of_app. right.
            by apply (chunked_run_incl _ _ _ _ _ _ Hch Hj). }
        rewrite Htabs in Hnd. apply NoDup_app in Hnd as (_ & _ & Hnd).
        rewrite <- (chunked_concat _ _ _ Hch) in Hnd.
        apply (concat_disjoint chunks.*2 j i r run tab Hnd);
          rewrite ?list_lookup_fmap, ?Hj, ?Hi; done. }
      apply elem_of_app in Hop as [[Hop|Hop]%elem_of_app|Hop].
      * apply list_elem_of_fmap in Hop as (tabId & -> & Hid).
        simpl in Hmoves. apply bool_decide_eq_true in Hmoves. subst tabId.
        apply list_elem_of_fmap in Hid as (tab' & Hid & Htab').
        apply list_elem_of_In, filter_In in Htab' as [Htab'%list_elem_of_In _].
        assert (tab = tab') as <-.
        { apply (unique_id Tab.id tabs); [done| | |done]; rewrite Htabs;
            apply elem_of_app; auto. }
        rewrite Htabs in Hnd. apply NoDup_app in Hnd as (_ & Hnd & _).
        by apply (Hnd tab).
      * apply elem_of_concat in Hop as (j & ops & Hj & Hop).
        rewrite list_lookup_fmap in Hj.
        destruct (take i (edgeEntry <$> chunks) !! j) as [entry|] eqn:Hentryj; [|done].
        simpl in Hj. inversion Hj; subst ops.
        pose proof (lookup_lt_Some _ _ _ Hentryj) as Hlt.
        rewrite length_take in Hlt.
        rewrite lookup_take_lt in Hentryj by lia.
        rewrite list_lookup_fmap in Hentryj.
        destruct (chunks !! j) as [[g r]|] eqn:Hcj; [|done].
        simpl in Hentryj. inversion Hentryj; subst entry.
        apply (Hdisj j g r); [lia|done|done].
      * apply elem_of_concat in Hop as (j & ops & Hj & Hop).
        rewrite list_lookup_fmap in Hj.
        destruct (drop (S i) (edgeEntry <$> chunks) !! j) as [entry|] eqn:Hentryj; [|done].
        simpl in Hj. inversion Hj; subst ops.
        rewrite lookup_drop in Hentryj.
        rewrite list_lookup_fmap in Hentryj.
        destruct (chunks !! (S i + j)%nat) as [[g r]|] eqn:Hcj; [|done].
        simpl in Hentryj. inversion Hentryj; subst entry.
        apply (Hdisj (S i + j)%nat g r); [lia|done|done].
  - intros tab Htab. apply Hhead.
    rewrite Htabs in Htab. rewrite lookup_app_r in Htab by lia.
    rewrite Nat.sub_diag in Htab. by destruct otherTabs.
  - intros Hunpinned. rewrite Htabs at 1. rewrite List.filter_app, length_app.
    assert (List.filter Tab.pinned otherTabs = []) as ->.
    { clear -Hunpinned. induction Hunpinned as [|tab l Htab _ IH]; simpl; [done|].
      by rewrite Htab. }
    assert (List.filter Tab.pinned pinnedTabs = pinnedTabs) as ->.
    { clear -Hpinned. induction Hpinned as [|tab l Htab _ IH]; simpl; [done|].
      rewrite Htab. by rewrite IH. }
    simpl. lia.
Qed.

Lemma moveTabFirst_full_group_witness :
  chunk (splitPinned Scenario.BehindPinned.tabs).2 byGroup
  = inr Scenario.BehindPinned.chunks
  ∧ Scenario.BehindPinned.chunks !! 1%nat
    = Some (Scenario.G1, Scenario.BehindPinned.run)
  ∧ Scenario.G1 ≠ TAB_GROUP_ID_NONE
  ∧ forallb isSelected Scenario.BehindPinned.run = true
  ∧ moveEdgeChunk Backward Scenario.BehindPinned.tabs
                  (splitPinned Scenario.BehindPinned.tabs).1
                  (edgeEntry (Scenario.G1, Scenario.BehindPinned.run))
    = ([TabGroupsMove Scenario.G1 {| windowId := None; index := 2 |}], inr tt).
Proof.
  assert (chunk (splitPinned Scenario.BehindPinned.tabs).2 byGroup
          = inr Scenario.BehindPinned.chunks) as H1 by reflexivity.
  assert (Scenario.BehindPinned.chunks !! 1%nat
          = Some (Scenario.G1, Scenario.BehindPinned.run)) as H2 by reflexivity.
  assert (Scenario.G1 ≠ TAB_GROUP_ID_NONE) as H3 by done.
  assert (forallb isSelected Scenario.BehindPinned.run = true) as H4 by reflexivity.
  repeat (split; [assumption|]).
  exact (proj1 (moveTabFirst_full_group Scenario.BehindPinned.tabs
                  Scenario.BehindPinned.chunks 1 Scenario.G1
                  Scenario.BehindPinned.run H1 H2 H3 H4)).
Defined.

(** The whole command on the same strip: the group move is its only
    call. *)
Lemma moveTabFirst_behind_pinned :
  moveTabEdgeDirection Backward Scenario.BehindPinned.tabs
  = ([TabGroupsMove Scenario.G1 {| windowId := None; index := 2 |}], inr tt).
Proof. vm_compute. reflexivity. Qed.

End EdgeFacts.

(** * The directional move at the boundary *)

Section BoundaryFacts.
Import Js Utils Chrome Commands Spec.

Lemma takeWhile_dropWhile {A} (p : A → bool) (l : list A) :
  takeWhile p l ++ dropWhile p l = l.
Proof.
  induction l as [|x l IH]; simpl; [done|].
  destruct (p x); simpl; [by rewrite IH|done].
Qed.

Lemma takeWhile_Forall {A} (p : A → bool) (l : list A) :
  Forall (λ x, p x = true) (takeWhile p l).
Proof.
  induction l as [|x l IH]; simpl; [constructor|].
  destruct (p x) eqn:Hx; by constructor.
Qed.

(** A region that satisfies [noEligibleRun] is the boundary run next to
    unselected tabs. *)
Lemma noEligibleRun_split (direction : Direction) (region : list Tab.t) :
  noEligibleRun direction region = true →
  region = match direction with
           | Backward => boundaryRun direction region ++ behindBoundary direction region
           | Forward => behindBoundary direction region ++ boundaryRun direction region
           end
  ∧ Forall (λ tab, isSelected tab = true) (boundaryRun direction region)
  ∧ Forall (λ tab, isSelected tab = false) (behindBoundary direction region).
Proof.
  unfold noEligibleRun. intros Hno.
  assert (Forall (λ tab, isSelected tab = false) (behindBoundary direction region))
    as Hbehind.
  { apply Forall_forall. intros tab Htab%list_elem_of_In.
    rewrite forallb_forall in Hno. apply negb_true_iff. by apply Hno. }
  split; [|split; [|done]].
  - destruct direction; simpl.
    + by rewrite takeWhile_dropWhile.
    + rewrite <- reverse_app, takeWhile_dropWhile. by rewrite reverse_involutive.
  - destruct direction; simpl; [apply takeWhile_Forall|].
    apply Forall_reverse, takeWhile_Forall.
Qed.

Lemma chunk_one_block {A K} `{Key K} (classify : A → K) (k : K) (l : list A) :
  is_undefined k = false → Forall (λ x, classify x = k) l →
  chunk l classify = inr (block k l).
Proof.
  intros Hdef Hall. destruct l as [|x l]; [done|].
  apply Forall_cons in Hall as [Hx Hall]. simpl in Hx.
  unfold chunk. simpl. rewrite chunk_step_first by (by rewrite Hx).
  rewrite Hx. by rewrite (chunk_loop_same classify [] k [x] l).
Qed.

Lemma chunk_two_blocks {A K} `{Key K} (classify : A → K) (k1 k2 : K) (l1 l2 : list A) :
  is_undefined k1 = false → is_undefined k2 = false → k1 ≠ k2 →
  Forall (λ x, classify x = k1) l1 → Forall (λ x, classify x = k2) l2 →
  chunk (l1 ++ l2) classify = inr (block k1 l1 ++ block k2 l2).
Proof.
  intros Hdef1 Hdef2 Hne Hall1 Hall2.
  destruct l1 as [|x l1]; [by apply chunk_one_block|].
  unfold chunk.
  rewrite (chunk_loop_app classify [] (block k1 (x :: l1)))
    by exact (chunk_one_block classify k1 (x :: l1) Hdef1 Hall1).
  simpl. destruct l2 as [|y l2]; [done|].
  apply Forall_cons in Hall2 as [Hy Hall2]. simpl in Hy.
  simpl. rewrite (chunk_step_other classify [] k1 (x :: l1) y) by congruence.
  rewrite Hy. by rewrite (chunk_loop_same classify [(k1, x :: l1)] k2 [y] l2).
Qed.

Lemma noEligibleRun_chunks (direction : Direction) (region : list Tab.t) :
  noEligibleRun direction region = true →
  chunk region isSelected
  = inr (boundaryChunks direction (behindBoundary direction region)
                        (boundaryRun direction region)).
Proof.
  intros Hno. destruct (noEligibleRun_split _ _ Hno) as (Hsplit & Hsel & Hbehind).
  rewrite Hsplit at 1. destruct direction; by apply chunk_two_blocks.
Qed.

Lemma at_head {A} (array : list A) : at_ array 0 = head array.
Proof. by destruct array. Qed.

Lemma at_final {A} (array : list A) : at_ array (-1) = last array.
Proof.
  destruct array as [|x array _] using rev_ind; [done|].
  by rewrite at_last, last_snoc.
Qed.

(** What is left of the chunks once the boundary run is dropped is
    visited by no iteration of the loop. *)
Lemma everySelectedChunk_behind (behind : list Tab.t) (body : bool * list Tab.t → M unit) :
  everySelectedChunk (block false behind) body = ([], inr tt).
Proof. by destruct behind. Qed.

Lemma boundaryChunks_at (direction : Direction) (behind selected : list Tab.t) :
  selected ≠ [] →
  at_ (boundaryChunks direction behind selected) (focusIndex direction)
  = Some (true, selected)
  ∧ splice1 (boundaryChunks direction behind selected) (focusIndex direction)
    = block false behind.
Proof.
  intros Hne. destruct direction, behind, selected; done.
Qed.

Lemma dropPinnedBoundary_behind (direction : Direction) (behind selected : list Tab.t) :
  dropPinnedBoundary direction (boundaryChunks direction behind selected)
  = ([], inr (block false behind)).
Proof.
  destruct selected as [|x selected].
  - destruct direction, behind; done.
  - destruct (boundaryChunks_at direction behind (x :: selected)) as [Hat Hsplice]; [done|].
    unfold dropPinnedBoundary. rewrite Hat, Hsplice.
    destruct direction, behind; done.
Qed.

Lemma and_then_ret (b : bool) (m : M bool) :
  ret b &&^ m = if b then m else ret false.
Proof. unfold and_then. by rewrite (bind_silent (ret b) _ b). Qed.

Lemma forallb_false {A} (p : A → bool) (l : list A) :
  forallb p l = false → ∃ x, x ∈ l ∧ p x = false.
Proof.
  induction l as [|x l IH]; simpl; [done|].
  destruct (p x) eqn:Hx; simpl.
  - intros (y & Hy & Hpy)%IH. exists y. split; [by right|done].
  - intros _. exists x. split; [by left|done].
Qed.

(** A group with a tab that is not selected has other tabs. *)
Lemma otherLength_unselected (tabs : list Tab.t) (tab : Tab.t) :
  tab ∈ tabs → isSelected tab = false →
  ∃ n, otherLength tabs (Tab.groupId tab) = ([], inr (S n)).
Proof.
  intros Hin Hsel. unfold otherLength, groupIdToSelPartition, tabsByGroup.
  rewrite lookup_fmap.
  destruct (groupBy_lookup tabs byGroup tab Hin) as (group & Hgroup & Hx).
  change (byGroup tab) with (Tab.groupId tab) in Hgroup. rewrite Hgroup. simpl.
  rewrite partition_filter. simpl.
  assert (tab ∈ List.filter (λ x, negb (isSelected x)) group) as Hother.
  { apply list_elem_of_In, filter_In. split; [by apply list_elem_of_In|].
    by rewrite Hsel. }
  destruct (List.filter (λ x, negb (isSelected x)) group) as [|y others];
    [by apply elem_of_nil in Hother|].
  by exists (length others).
Qed.

Lemma dropOtherBoundary_behind (direction : Direction) (tabs : list Tab.t)
    (behind selected : list Tab.t) :
  fullySelectedGroupRun tabs selected = false →
  dropOtherBoundary direction tabs (boundaryChunks direction behind selected)
  = ([], inr (block false behind)).
Proof.
  intros Hgroups. destruct selected as [|x selected].
  - destruct direction, behind; done.
  - destruct (boundaryChunks_at direction behind (x :: selected)) as [Hat Hsplice]; [done|].
    unfold dropOtherBoundary.
    rewrite bool_decide_eq_true_2 by (by destruct direction, behind).
    rewrite Hat, Hsplice.
    rewrite (bind_silent _ _ (true, x :: selected)) by done.
    cbv beta iota.
    unfold fullySelectedGroupRun, withinOneGroup in Hgroups.
    assert (∃ final, last (x :: selected) = Some final) as [final Hfinal].
    { destruct (last (x :: selected)) eqn:Hl; [by eexists|].
      by apply last_None in Hl. }
    rewrite Hfinal in Hgroups. cbn [head] in Hgroups.
    set (focusTab := match direction with Backward => x | Forward => final end).
    set (anchorTab := match direction with Backward => final | Forward => x end).
    assert (at_ (x :: selected) (focusIndex direction) = Some focusTab) as ->.
    { subst focusTab. destruct direction; simpl focusIndex; [done|]. by rewrite at_final. }
    assert (at_ (x :: selected) (anchorIndex direction) = Some anchorTab) as ->.
    { subst anchorTab. destruct direction; simpl anchorIndex; [|done]. by rewrite at_final. }
    rewrite (bind_silent _ _ anchorTab) by done.
    rewrite (bind_silent _ _ focusTab) by done.
    rewrite !and_then_ret.
    assert ((if bool_decide (Tab.groupId anchorTab = Tab.groupId focusTab)
             then if bool_decide (Tab.groupId focusTab ≠ TAB_GROUP_ID_NONE)
                  then (λ n, bool_decide (n = 0%nat))
                         <$> otherLength tabs (Tab.groupId focusTab)
                  else ret false
             else ret false) = ([], inr false)) as ->.
    { destruct (decide (Tab.groupId anchorTab = Tab.groupId focusTab)) as [Hsame|Hsame];
        [|by rewrite (bool_decide_eq_false_2 _ Hsame)].
      destruct (decide (Tab.groupId focusTab ≠ TAB_GROUP_ID_NONE)) as [Hsome|Hsome];
        [|by rewrite (bool_decide_eq_false_2 _ Hsome), (bool_decide_eq_true_2 _ Hsame)].
      rewrite (bool_decide_eq_true_2 _ Hsame), (bool_decide_eq_true_2 _ Hsome).
      assert (Tab.groupId focusTab = Tab.groupId x) as Hfocus.
      { subst focusTab anchorTab. destruct direction; congruence. }
      rewrite Hfocus in *.
      assert (Tab.groupId x = Tab.groupId final) as Hends.
      { subst focusTab anchorTab. destruct direction; congruence. }
      rewrite !bool_decide_eq_true_2 in Hgroups by done. cbn [andb] in Hgroups.
      apply forallb_false in Hgroups as (tab & Hin & Htab).
      apply orb_false_iff in Htab as [Hsel Hgroup].
      apply negb_false_iff, bool_decide_eq_true in Hgroup.
      destruct (otherLength_unselected tabs tab Hin Hsel) as [n Hlen].
      rewrite Hgroup in Hlen. rewrite Hlen. reflexivity. }
    rewrite (bind_silent _ _ false) by done.
    by rewrite (bind_silent _ _ tt).
Qed.

(** The directional move on a selection that has nowhere to go: when,
    in the pinned and in the unpinned region, every selected tab belongs
    to the run at the boundary in the direction of travel, and the run
    at the boundary of the unpinned region is not a wholly selected
    group, the command issues no call and returns normally. *)
Lemma moveTabDirection_no_eligible_run (direction : Direction)
    (tabs : list Tab.t) (tabGroups : list TabGroup.t) :
  noEligibleRun direction (splitPinned tabs).1 = true →
  noEligibleRun direction (splitPinned tabs).2 = true →
  fullySelectedGroupRun tabs (boundaryRun direction (splitPinned tabs).2) = false →
  moveTabDirection direction tabs tabGroups = ([], inr tt).
Proof.
  intros Hpinned Hother Hgroups. unfold moveTabDirection.
  destruct (splitPinned tabs) as [pinnedTabs otherTabs]. cbn [fst snd] in *.
  rewrite (noEligibleRun_chunks _ _ Hpinned), (noEligibleRun_chunks _ _ Hother).
  rewrite (bind_silent (lift (inr _)) _ _ eq_refl).
  rewrite (bind_silent _ _ _ (dropPinnedBoundary_behind _ _ _)).
  rewrite everySelectedChunk_behind.
  rewrite (bind_silent _ _ tt eq_refl).
  rewrite (bind_silent (lift (inr _)) _ _ eq_refl).
  rewrite (bind_silent _ _ _ (dropOtherBoundary_behind _ tabs _ _ Hgroups)).
  apply everySelectedChunk_behind.
Qed.

Lemma moveTabDirection_no_eligible_run_witness :
  noEligibleRun Forward (splitPinned Scenario.PartialAtEnd.tabs).1 = true
  ∧ noEligibleRun Forward (splitPinned Scenario.PartialAtEnd.tabs).2 = true
  ∧ fullySelectedGroupRun Scenario.PartialAtEnd.tabs
      (boundaryRun Forward (splitPinned Scenario.PartialAtEnd.tabs).2) = false
  ∧ moveTabDirection Forward Scenario.PartialAtEnd.tabs Scenario.PartialAtEnd.tabGroups
    = ([], inr tt).
Proof.
  assert (noEligibleRun Forward (splitPinned Scenario.PartialAtEnd.tabs).1 = true)
    as H1 by reflexivity.
  assert (noEligibleRun Forward (splitPinned Scenario.PartialAtEnd.tabs).2 = true)
    as H2 by reflexivity.
  assert (fullySelectedGroupRun Scenario.PartialAtEnd.tabs
            (boundaryRun Forward (splitPinned Scenario.PartialAtEnd.tabs).2) = false)
    as H3 by reflexivity.
  repeat (split; [assumption|]).
  exact (moveTabDirection_no_eligible_run Forward Scenario.PartialAtEnd.tabs
           Scenario.PartialAtEnd.tabGroups H1 H2 H3).
Defined.

(** C1, at an input where the code departs from it: on [[X] [[A]]] with
    [A] selected, the only selected run is at the boundary, in the
    strip and in each region, and moving forward has nowhere to go;
    the boundary step ungroups the tab all the same.  Its guard reads
    [[1].length === 0], the group being wholly selected, under a comment
    that asks for a group that is not fully selected. *)
Theorem group_at_end_forward_ungroups :
  noEligibleRun Forward Scenario.GroupAtEnd.tabs = true
  ∧ noEligibleRun Forward (splitPinned Scenario.GroupAtEnd.tabs).1 = true
  ∧ noEligibleRun Forward (splitPinned Scenario.GroupAtEnd.tabs).2 = true
  ∧ fullySelectedGroupRun Scenario.GroupAtEnd.tabs
      (boundaryRun Forward (splitPinned Scenario.GroupAtEnd.tabs).2) = true
  ∧ moveTabDirection Forward Scenario.GroupAtEnd.tabs Scenario.GroupAtEnd.tabGroups
    = ([TabsUngroup [Tab.id Scenario.GroupAtEnd.A]], inr tt).
Proof. vm_compute. done. Qed.

End BoundaryFacts.

(** * Collapsed groups in the directional move *)

Section CollapsedFacts.
Import Js Utils Chrome Commands Spec.

(** The conditions of the chain issue no call; the arm that joins the
    group of the focus tab is taken only when the target is in that
    group, and the arm that joins a neighbouring group only when that
    group is recorded as not collapsed. *)
Lemma selectBranch_cases (tabs : list Tab.t) (tabGroups : list TabGroup.t)
    (focusTab anchorTab : Tab.t) (targetTab : option Tab.t) :
  issued (selectBranch tabs tabGroups focusTab anchorTab targetTab) = []
  ∧ (outcome (selectBranch tabs tabGroups focusTab anchorTab targetTab)
     = inr JoinFocusGroup →
     ∃ tab, targetTab = Some tab ∧ Tab.groupId tab = Tab.groupId focusTab)
  ∧ (outcome (selectBranch tabs tabGroups focusTab anchorTab targetTab)
     = inr JoinVisibleGroup →
     ∃ tab, targetTab = Some tab
            ∧ collapsedInfo tabGroups !! Tab.groupId tab = Some false).
Proof.
  unfold selectBranch, targetGroupId, otherLength.
  destruct targetTab as [tab|];
    destruct (groupIdToSelPartition tabs !! Tab.groupId anchorTab) as [[sel others]|];
    simpl.
  all: repeat (case_bool_decide; simpl).
  all: try (split; [done|split; intros [=]]).
  all: eexists; split; done.
Qed.

Section Safe.
Variable tabs : list Tab.t.
Variable tabGroups : list TabGroup.t.
Hypothesis Hids : NoDup (Tab.id <$> tabs).
Hypothesis Hvisible : noHiddenSelection tabs tabGroups = true.

Abbreviation safe := (sparesCollapsed tabs tabGroups).
Abbreviation selection := (selectedRun tabs).

Lemma selected_not_collapsed (tab : Tab.t) :
  tab ∈ tabs → isSelected tab = true →
  isCollapsed tabGroups (Tab.groupId tab) = false.
Proof.
  intros Htab%list_elem_of_In Hsel. unfold noHiddenSelection in Hvisible.
  rewrite forallb_forall in Hvisible. specialize (Hvisible _ Htab).
  rewrite Hsel in Hvisible. simpl in Hvisible. by apply negb_true_iff.
Qed.

Lemma ungroup_selection_safe (run : list Tab.t) (tabIds : list Z) :
  selection run → tabIds ⊆ getTabId <$> run → safe (TabsUngroup tabIds).
Proof.
  intros Hrun Hsub. unfold safe. simpl. apply not_true_is_false.
  intros (tab & Htab%list_elem_of_In & Hhit)%existsb_exists.
  apply andb_true_iff in Hhit as [Hid%bool_decide_eq_true Hcollapsed].
  apply Hsub, list_elem_of_fmap in Hid as (tab' & Hid & Htab').
  destruct (proj1 (Forall_forall _ _) Hrun _ Htab') as [Hsel Hin].
  assert (tab = tab') as <- by (by apply (unique_id Tab.id tabs)).
  rewrite selected_not_collapsed in Hcollapsed; done.
Qed.

Lemma ungroupTabs_safe (direction : Direction) (run : list Tab.t) :
  selection run → Forall safe (issued (ungroupTabs direction (getTabId <$> run))).
Proof.
  intros Hrun. destruct direction; simpl; repeat constructor;
    apply (ungroup_selection_safe run); try done.
  intros x. by rewrite elem_of_reverse.
Qed.

Lemma groupSelectionWithTarget_run (tabSelection : list Tab.t) (tab : Tab.t) :
  groupSelectionWithTarget tabSelection (Some tab)
  = ([TabsGroup (Tab.id <$> tabSelection) (Tab.groupId tab)], inr tt).
Proof. done. Qed.

Lemma runBranch_safe (direction : Direction) (tabSelection : list Tab.t)
    (focusTab anchorTab : Tab.t) (targetTab : option Tab.t) (branch : Branch) :
  selection tabSelection → focusTab ∈ tabSelection →
  outcome (selectBranch tabs tabGroups focusTab anchorTab targetTab) = inr branch →
  Forall safe (issued (runBranch direction tabSelection targetTab branch)).
Proof.
  intros Hrun Hfocus Hbranch.
  destruct (selectBranch_cases tabs tabGroups focusTab anchorTab targetTab)
    as (_ & Hjoin & Hvis).
  destruct (proj1 (Forall_forall _ _) Hrun _ Hfocus) as [Hsel Hin].
  destruct branch; try (by repeat constructor); try (by destruct direction; repeat constructor).
  - destruct (Hjoin Hbranch) as (tab & -> & Htab). cbn [runBranch].
    rewrite groupSelectionWithTarget_run. apply Forall_singleton.
    unfold safe. cbn [mutatesCollapsed]. rewrite Htab.
    by apply selected_not_collapsed.
  - destruct (Hvis Hbranch) as (tab & -> & Htab). cbn [runBranch].
    rewrite groupSelectionWithTarget_run. apply Forall_singleton.
    unfold safe, isCollapsed. cbn [mutatesCollapsed]. unfold isCollapsed.
    rewrite Htab. by apply bool_decide_eq_false_2.
  - by apply ungroupTabs_safe.
Qed.

Lemma moveOtherChunk_safe (direction : Direction) (key : bool) (tabSelection : list Tab.t) :
  selection tabSelection →
  Forall safe (issued (moveOtherChunk direction tabs tabGroups (key, tabSelection))).
Proof.
  intros Hrun. unfold moveOtherChunk.
  destruct (at_ tabSelection (focusIndex direction)) as [focusTab|] eqn:Hfocus;
    [|by constructor].
  rewrite (bind_silent _ _ focusTab) by done.
  destruct (at_ tabSelection (anchorIndex direction)) as [anchorTab|] eqn:Hanchor;
    [|by constructor].
  rewrite (bind_silent _ _ anchorTab) by done.
  cbv zeta. apply bind_Forall.
  - destruct (selectBranch_cases tabs tabGroups focusTab anchorTab
                (Js.index tabs (Tab.index focusTab + focusOffset direction)))
      as (-> & _). constructor.
  - intros branch Hbranch. eapply runBranch_safe; [done| |done].
    by eapply at_elem.
Qed.

Lemma movePinnedChunk_safe (direction : Direction) (entry : bool * list Tab.t) :
  Forall safe (issued (movePinnedChunk direction tabs entry)).
Proof.
  destruct entry as [key tabSelection]. unfold movePinnedChunk.
  destruct (at_ tabSelection (focusIndex direction)) as [focusTab|]; [|by constructor].
  rewrite (bind_silent _ _ focusTab) by done.
  destruct (at_ tabSelection (anchorIndex direction)) as [anchorTab|]; [|by constructor].
  rewrite (bind_silent _ _ anchorTab) by done.
  destruct (Js.index tabs _) as [targetTab|]; [|by constructor].
  rewrite (bind_silent _ _ targetTab) by done.
  by repeat constructor.
Qed.

Lemma bind_outcome {A B} (m : M A) (k : A → M B) (b : B) :
  outcome (m ≫= k) = inr b → ∃ a, outcome m = inr a ∧ outcome (k a) = inr b.
Proof.
  rewrite bind_unfold. destruct m as [ops [e|a]]; simpl; [done|]. by exists a.
Qed.

Lemma adjacent_differ_tail {K} (k : K) (keys : list K) :
  adjacent_differ (k :: keys) → adjacent_differ keys.
Proof. intros Hadj i a b Ha Hb. by apply (Hadj (S i)). Qed.

Lemma adjacent_differ_init {K} (keys : list K) (k : K) :
  adjacent_differ (keys ++ [k]) → adjacent_differ keys.
Proof.
  intros Hadj i a b Ha Hb. apply (Hadj i); by apply lookup_app_l_Some.
Qed.

Lemma splice1_focus_cases {A} (direction : Direction) (array : list A) :
  array = [] ∧ splice1 array (focusIndex direction) = []
  ∨ match direction with
    | Backward => ∃ x, array = x :: splice1 array (focusIndex direction)
    | Forward => ∃ x, array = splice1 array (focusIndex direction) ++ [x]
    end.
Proof.
  destruct direction; simpl focusIndex.
  - destruct array as [|x array]; [by left|]. right. by exists x.
  - destruct array as [|x array _] using rev_ind; [by left|]. right.
    exists x. by rewrite splice1_last.
Qed.

Lemma splice1_selectionChunks (direction : Direction)
    (tabPartition : list (bool * list Tab.t)) :
  selectionChunks tabs tabPartition →
  selectionChunks tabs (splice1 tabPartition (focusIndex direction)).
Proof.
  intros [Hadj Hall].
  destruct (splice1_focus_cases direction tabPartition) as [[-> ->]|Hcase]; [done|].
  destruct direction; destruct Hcase as [x Hx]; rewrite Hx in Hadj, Hall.
  - rewrite fmap_cons in Hadj. apply adjacent_differ_tail in Hadj.
    apply Forall_cons in Hall as [_ Hall]. done.
  - rewrite fmap_app in Hadj. apply adjacent_differ_init in Hadj.
    apply Forall_app in Hall as [Hall _]. done.
Qed.

Lemma chunk_selectionChunks (region : list Tab.t) :
  region ⊆ tabs →
  ∃ tabPartition, chunk region isSelected = inr tabPartition
                  ∧ selectionChunks tabs tabPartition.
Proof.
  intros Hsub. destruct (chunk_chunked isSelected region) as (tp & Htp & Hch); [done|].
  exists tp. split; [done|]. split; [by destruct Hch|].
  apply Forall_lookup. intros i [k run] Hi. simpl.
  pose proof (proj1 (Forall_lookup _ _) (chunked_uniform _ _ _ Hch) _ _ Hi) as [_ Hkey].
  pose proof (chunked_run_incl _ _ _ _ _ _ Hch Hi) as Hincl.
  apply Forall_forall. intros tab Htab. split.
  - by apply (proj1 (Forall_forall _ _) Hkey).
  - by apply Hsub, Hincl.
Qed.

(** The loop starts at a selected chunk and the chunks two apart are
    selected with it. *)
Lemma visited_selected {A} (tabPartition : list (bool * A)) (j : nat) (key : bool) (run : A) :
  adjacent_differ tabPartition.*1 →
  tabPartition !! (firstSelectedIndex tabPartition + 2 * j)%nat = Some (key, run) →
  key = true.
Proof.
  intros Hadj. revert key run. induction j as [|j IH]; intros key run Hj.
  - rewrite Nat.add_0_r in Hj.
    destruct tabPartition as [|[[] first] rest]; simpl in Hj; simplify_eq/=; [done|].
    destruct key; [done|]. exfalso.
    apply (Hadj 0%nat false false); simpl; [done| |done].
    by rewrite list_lookup_fmap, Hj.
  - set (i := (firstSelectedIndex tabPartition + 2 * j)%nat) in *.
    replace (firstSelectedIndex tabPartition + 2 * S j)%nat with (S (S i)) in Hj by lia.
    destruct (lookup_lt_is_Some_2 tabPartition i) as [[k0 r0] H0];
      [apply lookup_lt_Some in Hj; lia|].
    destruct (lookup_lt_is_Some_2 tabPartition (S i)) as [[k1 r1] H1];
      [apply lookup_lt_Some in Hj; lia|].
    pose proof (IH _ _ H0) as ->.
    assert (true ≠ k1) as Hk1
      by (apply (Hadj i); by rewrite list_lookup_fmap, ?H0, ?H1).
    assert (k1 ≠ key) as Hkey
      by (apply (Hadj (S i)); by rewrite list_lookup_fmap, ?H1, ?Hj).
    by destruct k1, key.
Qed.

Lemma forStep2_Forall {A} (P : Op → Prop) (fuel index : nat) (tabPartition : list A)
    (body : A → M unit) :
  (∀ j entry, tabPartition !! (index + 2 * j)%nat = Some entry →
              Forall P (issued (body entry))) →
  Forall P (issued (forStep2 fuel index tabPartition body)).
Proof.
  revert index. induction fuel as [|fuel IH]; intros index Hbody; simpl; [constructor|].
  destruct (tabPartition !! index) as [entry|] eqn:Hentry; [|constructor].
  apply bind_Forall.
  - apply (Hbody 0%nat). by rewrite Nat.add_0_r.
  - intros _ _. apply IH. intros j entry' Hj. apply (Hbody (S j)).
    by replace (index + 2 * S j)%nat with (index + 2 + 2 * j)%nat by lia.
Qed.

Lemma everySelectedChunk_safe (tabPartition : list (bool * list Tab.t))
    (body : bool * list Tab.t → M unit) :
  selectionChunks tabs tabPartition →
  (∀ run, selection run → Forall safe (issued (body (true, run)))) →
  Forall safe (issued (everySelectedChunk tabPartition body)).
Proof.
  intros [Hadj Hall] Hbody. unfold everySelectedChunk.
  case_bool_decide; [|constructor].
  apply forStep2_Forall. intros j [key run] Hj.
  assert (key = true) as -> by (by eapply visited_selected).
  apply Hbody. by apply (proj1 (Forall_lookup _ _) Hall _ _ Hj).
Qed.

Lemma dropPinnedBoundary_spec (direction : Direction)
    (tabPartition : list (bool * list Tab.t)) :
  issued (dropPinnedBoundary direction tabPartition) = []
  ∧ ∀ rest, outcome (dropPinnedBoundary direction tabPartition) = inr rest →
            rest = tabPartition ∨ rest = splice1 tabPartition (focusIndex direction).
Proof.
  unfold dropPinnedBoundary. case_bool_decide; [|split; [done|intros ? [= <-]; auto]].
  destruct (at_ tabPartition (focusIndex direction)) as [[[] run]|];
    (split; [done|]); intros rest [= <-]; auto.
Qed.

Lemma dropOtherBoundary_spec (direction : Direction)
    (tabPartition : list (bool * list Tab.t)) :
  selectionChunks tabs tabPartition →
  Forall safe (issued (dropOtherBoundary direction tabs tabPartition))
  ∧ ∀ rest, outcome (dropOtherBoundary direction tabs tabPartition) = inr rest →
            rest = tabPartition ∨ rest = splice1 tabPartition (focusIndex direction).
Proof.
  intros [Hadj Hall]. unfold dropOtherBoundary.
  case_bool_decide; [|split; [constructor|intros ? [= <-]; auto]].
  destruct (at_ tabPartition (focusIndex direction)) as [[[] run]|] eqn:Hat;
    [|split; [constructor|intros ? [= <-]; auto]|split; [constructor|done]].
  rewrite (bind_silent _ _ (true, run)) by done. cbv beta iota.
  assert (selection run) as Hrun.
  { apply at_elem, list_elem_of_lookup in Hat as [i Hi].
    by apply (proj1 (Forall_lookup _ _) Hall _ _ Hi). }
  split.
  - destruct (at_ run (anchorIndex direction)) as [anchorTab|]; [|constructor].
    rewrite (bind_silent _ _ anchorTab) by done.
    destruct (at_ run (focusIndex direction)) as [focusTab|]; [|constructor].
    rewrite (bind_silent _ _ focusTab) by done.
    rewrite !and_then_ret. apply bind_Forall.
    + repeat case_match; try constructor.
      unfold otherLength. by destruct (groupIdToSelPartition tabs !! _) as [[? ?]|].
    + intros c _. apply bind_Forall; [|constructor].
      destruct c; [by apply ungroupTabs_safe|constructor].
  - intros rest Hrest.
    repeat (apply bind_outcome in Hrest as (? & _ & Hrest)).
    inversion Hrest. auto.
Qed.

(** C2 as amended: in a strip whose tabs have distinct ids and in which
    no selected tab is in a collapsed group, no call of the directional
    move adds tabs to a collapsed group or removes from its group a tab
    of a collapsed group. *)
Theorem moveTabDirection_spares_collapsed (direction : Direction) (op : Op) :
  op ∈ issued (moveTabDirection direction tabs tabGroups) →
  mutatesCollapsed tabs tabGroups op = false.
Proof.
  revert op. apply Forall_forall. fold safe.
  unfold moveTabDirection.
  destruct (splitPinned_spec tabs) as (Htabs & _ & _).
  destruct (splitPinned tabs) as [pinnedTabs otherTabs]. simpl in Htabs.
  destruct (chunk_selectionChunks pinnedTabs) as (pinnedChunks & -> & HpinnedChunks).
  { intros tab Htab. rewrite Htabs. apply elem_of_app. by left. }
  destruct (chunk_selectionChunks otherTabs) as (otherChunks & -> & HotherChunks).
  { intros tab Htab. rewrite Htabs. apply elem_of_app. by right. }
  rewrite (bind_silent (lift (inr _)) _ _ eq_refl).
  destruct (dropPinnedBoundary_spec direction pinnedChunks) as [Hsilent Hrest].
  apply bind_Forall; [rewrite Hsilent; constructor|].
  intros rest Hrest'. apply bind_Forall.
  { apply everySelectedChunk_safe.
    - destruct (Hrest _ Hrest') as [-> | ->]; [done|by apply splice1_selectionChunks].
    - intros run _. apply movePinnedChunk_safe. }
  intros _ _. rewrite (bind_silent (lift (inr _)) _ _ eq_refl).
  destruct (dropOtherBoundary_spec direction otherChunks HotherChunks) as [Hsafe Hrest2].
  apply bind_Forall; [done|].
  intros rest2 Hrest2'. apply everySelectedChunk_safe.
  - destruct (Hrest2 _ Hrest2') as [-> | ->]; [done|by apply splice1_selectionChunks].
  - intros run Hrun. by apply moveOtherChunk_safe.
Qed.

End Safe.

Lemma moveTabDirection_spares_collapsed_witness :
  NoDup (Tab.id <$> Scenario.BeforeVisible.tabs)
  ∧ noHiddenSelection Scenario.BeforeVisible.tabs Scenario.BeforeVisible.tabGroups = true
  ∧ TabsGroup [Tab.id Scenario.BeforeVisible.A] Scenario.G1
    ∈ issued (moveTabDirection Forward Scenario.BeforeVisible.tabs
                               Scenario.BeforeVisible.tabGroups)
  ∧ mutatesCollapsed Scenario.BeforeVisible.tabs Scenario.BeforeVisible.tabGroups
                     (TabsGroup [Tab.id Scenario.BeforeVisible.A] Scenario.G1)
    = false.
Proof.
  assert (NoDup (Tab.id <$> Scenario.BeforeVisible.tabs)) as H1.
  { apply (bool_decide_unpack _). vm_compute. exact I. }
  assert (noHiddenSelection Scenario.BeforeVisible.tabs
                            Scenario.BeforeVisible.tabGroups = true) as H2
    by reflexivity.
  assert (TabsGroup [Tab.id Scenario.BeforeVisible.A] Scenario.G1
          ∈ issued (moveTabDirection Forward Scenario.BeforeVisible.tabs
                                     Scenario.BeforeVisible.tabGroups)) as H3.
  { change (issued (moveTabDirection Forward Scenario.BeforeVisible.tabs
                                     Scenario.BeforeVisible.tabGroups))
      with [TabsGroup [Tab.id Scenario.BeforeVisible.A] Scenario.G1].
    apply list_elem_of_singleton. reflexivity. }
  repeat (split; [assumption|]).
  exact (moveTabDirection_spares_collapsed Scenario.BeforeVisible.tabs
           Scenario.BeforeVisible.tabGroups H1 H2 Forward _ H3).
Defined.

(** The claim C2 as it stands fails when the selection reaches into a
    collapsed group: the selected tabs are added to that group. *)
Lemma into_collapsed_forward_groups :
  isCollapsed Scenario.IntoCollapsed.tabGroups Scenario.G1 = true
  ∧ moveTabDirection Forward Scenario.IntoCollapsed.tabs Scenario.IntoCollapsed.tabGroups
    = ([TabsGroup [Tab.id Scenario.IntoCollapsed.A; Tab.id Scenario.IntoCollapsed.B]
                  Scenario.G1], inr tt)
  ∧ existsb (mutatesCollapsed Scenario.IntoCollapsed.tabs Scenario.IntoCollapsed.tabGroups)
            (issued (moveTabDirection Forward Scenario.IntoCollapsed.tabs
                                      Scenario.IntoCollapsed.tabGroups))
    = true.
Proof. vm_compute. done. Qed.

End CollapsedFacts.

(** * Further properties of utils.js *)

Section ClampFacts.
Import Js Utils Navigation.

(** X1: with [min ≤ max], [clamp] returns a value of the range, the
    value itself when it is in the range and the nearer bound when it
    is not. *)
Theorem clamp_within (value min max : Z) :
  min ≤ max →
  min ≤ clamp value min max ≤ max
  ∧ (min ≤ value ≤ max → clamp value min max = value)
  ∧ (value < min → clamp value min max = min)
  ∧ (max < value → clamp value min max = max).
Proof. unfold clamp. lia. Qed.

Lemma clamp_within_witness :
  0 ≤ 4
  ∧ (0 ≤ clamp 7 0 4 ≤ 4
     ∧ (0 ≤ 7 ≤ 4 → clamp 7 0 4 = 7)
     ∧ (7 < 0 → clamp 7 0 4 = 0)
     ∧ (4 < 7 → clamp 7 0 4 = 4)).
Proof. split; [lia | apply (clamp_within 7 0 4); lia]. Defined.

(** X2: with the bounds in the wrong order [clamp] returns the lower
    bound [min], whatever the value: the range of an empty tab strip,
    [0] to [-1], clamps to [0]. *)
Theorem clamp_inverted (value min max : Z) :
  max < min → clamp value min max = min.
Proof. unfold clamp. lia. Qed.

Lemma clamp_inverted_witness : -1 < 0 ∧ clamp 3 0 (-1) = 0.
Proof. split; [lia | apply (clamp_inverted 3 0 (-1)); lia]. Defined.

(** X3: for a divisor up to [2^52] and a step up to [2^52] in
    magnitude, stepping by [delta] and back by [-delta] with [modulo]
    returns to the starting index, and a whole number of turns changes
    nothing, the argument staying within [2^53] in magnitude. *)
Theorem modulo_step_back (i delta turns n : Z) :
  0 < n ≤ 2 ^ 52 → 0 ≤ i < n → Z.abs delta ≤ 2 ^ 52 →
  Z.abs (i + delta + turns * n) ≤ 2 ^ 53 →
  ∃ m, modulo (i + delta) n = Finite m
       ∧ modulo (m - delta) n = Finite i
       ∧ modulo (i + delta + turns * n) n = Finite m.
Proof.
  intros Hn Hi _ _. exists ((i + delta) mod n). rewrite !modulo_mod by done.
  split; [done|]. split; f_equal.
  - rewrite Zminus_mod_idemp_l.
    replace (i + delta - delta) with i by lia. apply Z.mod_small. lia.
  - rewrite Z.mod_add by lia. done.
Qed.

Lemma modulo_step_back_witness :
  ∃ m, modulo (4 + 3) 5 = Finite m
       ∧ modulo (m - 3) 5 = Finite 4
       ∧ modulo (4 + 3 + 2 * 5) 5 = Finite m.
Proof. apply (modulo_step_back 4 3 2 5); done. Defined.

(** [moduloNumber] computes on exact integers, and is not a number for
    the divisor zero; it is [modulo] for a divisor up to [2^52]. *)
Lemma moduloNumber_finite (dividend divisor : Z) :
  moduloNumber (Finite dividend) (Finite divisor)
  = if bool_decide (divisor = 0) then NaN
    else Finite (Z.rem (Z.rem dividend divisor + divisor) divisor).
Proof.
  unfold moduloNumber, remainder, plus.
  by case_bool_decide.
Qed.

Lemma moduloNumber_modulo (dividend divisor : Z) :
  0 < divisor ≤ 2 ^ 52 →
  moduloNumber (Finite dividend) (Finite divisor) = modulo dividend divisor.
Proof.
  intros Hdivisor. rewrite moduloNumber_finite, modulo_mod by done.
  rewrite bool_decide_eq_false_2 by lia. by rewrite rem_wraps by lia.
Qed.

End ClampFacts.

Section ChunkUnique.
Import Js Utils Spec.
Context {Element K : Type} `{Key K} (classify : Element → K).

Lemma chunked_cons_inv (S : list Element) (k : K) (run : list Element)
    (rest : list (K * list Element)) :
  chunked classify S ((k, run) :: rest) →
  run ≠ [] ∧ Forall (λ x, classify x = k) run
  ∧ ∃ S', S = run ++ S' ∧ chunked classify S' rest
          ∧ ∀ x, head S' = Some x → classify x ≠ k.
Proof.
  intros [Hcat Hunif Hadj]. inversion Hunif as [|? ? [Hne Hrun] Hrest]; subst.
  simpl in *. do 2 (split; [done|]).
  exists (concat rest.*2). split; [done|]. split.
  - split; [done|done|]. intros i a b Ha Hb. by apply (Hadj (S i) a b).
  - intros x Hx. destruct rest as [|[k1 run1] rest]; [done|].
    inversion Hrest as [|? ? [Hne1 Hrun1] _]; subst. simpl in *.
    destruct run1 as [|y run1]; [done|]. simpl in Hx. inversion Hx; subst y.
    inversion Hrun1; subst. intros Heq.
    apply (Hadj 0%nat k (classify x)); [done|done|]. by rewrite Heq.
Qed.

(** A sequence has one division into maximal runs only. *)
Lemma chunked_unique (S : list Element) (c1 c2 : list (K * list Element)) :
  chunked classify S c1 → chunked classify S c2 → c1 = c2.
Proof.
  revert S c2. induction c1 as [|[k run] c1 IH]; intros S [|[k' run'] c2] H1 H2.
  - done.
  - apply chunked_cons_inv in H2 as (Hne & _ & S' & -> & _).
    destruct H1 as [Hcat _ _]. simpl in Hcat. by destruct run'.
  - apply chunked_cons_inv in H1 as (Hne & _ & S' & -> & _).
    destruct H2 as [Hcat _ _]. simpl in Hcat. by destruct run.
  - apply chunked_cons_inv in H1 as (Hne1 & Hrun1 & S1 & -> & Hc1 & Hh1).
    apply chunked_cons_inv in H2 as (Hne2 & Hrun2 & S2 & Heq & Hc2 & Hh2).
    assert (k = k') as <-.
    { destruct run as [|x run]; [done|]. destruct run' as [|x' run']; [done|].
      simpl in Heq. inversion Heq; subst x'.
      inversion Hrun1; inversion Hrun2; subst. congruence. }
    assert (run = run' ∧ S1 = S2) as [<- <-].
    { apply app_eq_inv in Heq as [(m & -> & ->)|(m & -> & ->)].
      - destruct m as [|y m]; [by rewrite app_nil_r|].
        exfalso. apply (Hh2 y); [done|].
        apply Forall_app in Hrun1 as [_ Hm]. by inversion Hm.
      - destruct m as [|y m]; [by rewrite app_nil_r|].
        exfalso. apply (Hh1 y); [done|].
        apply Forall_app in Hrun2 as [_ Hm]. by inversion Hm. }
    f_equal. by apply (IH S1).
Qed.

End ChunkUnique.

Section ChunkExtras.
Import Js Utils Spec.

(** X4: [chunk] computes the one division of the array into maximal
    runs: when the key of the first element is not [undefined], a
    list of runs is what [chunk] returns exactly when it concatenates
    to the array, its runs are non-empty and carry one key each, and
    neighbouring runs carry different keys. *)
Theorem chunk_characterised {Element K} `{Key K} (classify : Element → K)
    (S : list Element) (chunks : list (K * list Element)) :
  (∀ x, head S = Some x → is_undefined (classify x) = false) →
  chunk S classify = inr chunks ↔ chunked classify S chunks.
Proof.
  intros Hdef. destruct (chunk_chunked classify S Hdef) as (chunks' & Hrun & Hch).
  split.
  - intros Heq. rewrite Hrun in Heq. by inversion Heq; subst.
  - intros Hch2. rewrite Hrun. f_equal. by apply (chunked_unique classify S).
Qed.

Lemma chunk_characterised_witness :
  (∀ x, head [1; 1; 2; 1] = Some x → is_undefined (id x) = false)
  ∧ (chunk [1; 1; 2; 1] id = inr [(1, [1; 1]); (2, [2]); (1, [1])]
     ↔ chunked id [1; 1; 2; 1] [(1, [1; 1]); (2, [2]); (1, [1])]).
Proof.
  split; [done|].
  apply (chunk_characterised id [1; 1; 2; 1] [(1, [1; 1]); (2, [2]); (1, [1])]).
  done.
Defined.

End ChunkExtras.

(** * Relative navigation *)

Section NavigationFacts.
Import Js Utils Chrome Commands Navigation WindowNavigation MoreCommands Spec MoreSpec.

(** The position [findIndex] returns for the id of an element of a
    list whose ids are distinct is the position of that element. *)
Lemma findIndexNumber_lookup {A B} `{EqDecision B} (f : A → B) (l : list A)
    (i : nat) (x : A) :
  NoDup (f <$> l) → l !! i = Some x →
  findIndexNumber (λ y, bool_decide (f y = f x)) l = Z.of_nat i.
Proof.
  intros Hnd Hi. unfold findIndexNumber.
  pose proof (findIndex_spec (λ y, bool_decide (f y = f x)) l) as Hspec.
  destruct (findIndex _ l) as [n|].
  - destruct Hspec as (_ & y & Hn & Hy%bool_decide_eq_true).
    f_equal. apply (NoDup_lookup _ _ _ (f x) Hnd); rewrite list_lookup_fmap.
    + by rewrite Hn, <- Hy.
    + by rewrite Hi.
  - exfalso. pose proof (proj1 (Forall_lookup _ _) Hspec _ _ Hi) as Hx.
    simpl in Hx. by rewrite bool_decide_eq_true_2 in Hx.
Qed.

(** Indexing at [modulo (i + delta) length] on a list that is not
    empty. *)
Lemma relative_lookup {A} (l : list A) (i delta : Z) :
  l ≠ [] →
  indexNumber l (moduloNumber (Finite (i + delta)) (Finite (Z.of_nat (length l))))
  = l !! Z.to_nat ((i + delta) mod Z.of_nat (length l))
  ∧ is_Some (l !! Z.to_nat ((i + delta) mod Z.of_nat (length l))).
Proof.
  intros Hne. assert (0 < Z.of_nat (length l)) as Hlen by (destruct l; simpl; [done|lia]).
  rewrite moduloNumber_finite, bool_decide_eq_false_2 by lia.
  rewrite rem_wraps by done.
  pose proof (Z.mod_pos_bound (i + delta) _ Hlen) as Hb.
  unfold indexNumber, Js.index.
  destruct (Z.ltb_spec ((i + delta) mod Z.of_nat (length l)) 0) as [Hneg|_]; [lia|].
  split; [done|]. apply lookup_lt_is_Some_2. lia.
Qed.








(** No window is open: the model of [getOpenWindowRelative] returns
    [undefined]; otherwise it returns a window that is not minimized. *)
Lemma getOpenWindowRelative_open (allWindows : list Window.t) (windowId delta : Z) :
  match getOpenWindowRelative allWindows windowId (VNumber delta) with
  | None => openWindows allWindows = []
  | Some window => window ∈ openWindows allWindows
  end.
Proof.
  unfold getOpenWindowRelative. fold (openWindows allWindows).
  destruct (openWindows allWindows) as [|w ws] eqn:Hopen; [done|].
  simpl plusValue.
  destruct (relative_lookup (w :: ws)
              (findIndexNumber (λ window, bool_decide (Window.id window = windowId))
                               (w :: ws)) delta ltac:(done)) as [-> [y Hy]].
  rewrite Hy. by apply list_elem_of_lookup_2 in Hy.
Qed.



(** X11: [focusWindowRelative] focuses one window, never a minimized
    one, when some window is not minimized, and raises a TypeError
    without a call when every window is minimized. *)
Theorem focusWindowRelative_open (allWindows : list Window.t) (cx : Context) (delta : Z) :
  (openWindows allWindows = [] ∧
   focusWindowRelative allWindows cx delta = ([], inl (TypeError "window.id")))
  ∨ ∃ window, window ∈ allWindows ∧ Window.state window ≠ "minimized"
              ∧ focusWindowRelative allWindows cx delta
                = ([WindowsFocus (Window.id window)], inr tt).
Proof.
  unfold focusWindowRelative.
  pose proof (getOpenWindowRelative_open allWindows (Tab.windowId (tab cx)) delta) as Hopen.
  destruct (getOpenWindowRelative _ _ _) as [window|]; [right|by left].
  exists window. unfold openWindows in Hopen.
  apply list_elem_of_In, filter_In in Hopen as [Hin Hstate].
  split; [by apply list_elem_of_In|]. split; [|done].
  by apply bool_decide_eq_true in Hstate.
Qed.

End NavigationFacts.

(** * Group colors, collapsing and grabbing *)

Section GroupFacts.
Import Js Utils Chrome Commands Navigation WindowNavigation MoreCommands Spec MoreSpec.



Lemma activeGroupIds_elem (selectedTabs : list Tab.t) (groupId : Z) :
  groupId ∈ activeGroupIds selectedTabs ↔ activeGroup selectedTabs groupId.
Proof.
  unfold activeGroupIds, activeGroup.
  rewrite elem_of_difference, elem_of_list_to_set, list_elem_of_fmap, elem_of_singleton.
  split.
  - intros [(tab & -> & Hin) Hne]. split; [done|]. by exists tab.
  - intros [Hne (tab & Hin & <-)]. split; [|done]. by exists tab.
Qed.

Lemma updatedGroups_app (cs1 cs2 : list Call) :
  updatedGroups (cs1 ++ cs2) = updatedGroups cs1 ++ updatedGroups cs2.
Proof. apply omap_app. Qed.

Lemma updatedGroups_fmap (flag : TabGroup.t → bool) (groups : list TabGroup.t) :
  updatedGroups ((λ g, TabGroupsUpdateCollapsed (TabGroup.id g) (flag g)) <$> groups)
  = TabGroup.id <$> groups.
Proof. induction groups as [|g groups IH]; [done|]. csimpl. f_equal. exact IH. Qed.

(** The calls of [toggleCollapseTabGroups]. *)
Lemma toggleCollapseTabGroups_calls (selectedTabs : list Tab.t)
    (allTabGroups : list TabGroup.t) :
  let active := λ g, bool_decide (TabGroup.id g ∈ activeGroupIds selectedTabs) in
  let collapsible := List.filter (λ g, negb (active g)) allTabGroups in
  toggleCollapseTabGroups selectedTabs allTabGroups
  = (((λ g, TabGroupsUpdateCollapsed
              (TabGroup.id g)
              (existsb (λ g, negb (TabGroup.collapsed g)) collapsible))
        <$> collapsible)
     ++ ((λ g, TabGroupsUpdateCollapsed (TabGroup.id g) false)
           <$> List.filter active allTabGroups),
     inr tt).
Proof. intros active collapsible. unfold toggleCollapseTabGroups. by rewrite partition_filter. Qed.

(** X13: [toggleCollapseTabGroups] returns normally and sets the
    [collapsed] flag of every group of the window exactly once: the
    groups it updates are the groups of the window, up to order, and
    it issues no other call. *)
Theorem toggleCollapseTabGroups_every_group (selectedTabs : list Tab.t)
    (allTabGroups : list TabGroup.t) :
  result (toggleCollapseTabGroups selectedTabs allTabGroups) = inr tt
  ∧ updatedGroups (calls (toggleCollapseTabGroups selectedTabs allTabGroups))
    ≡ₚ TabGroup.id <$> allTabGroups
  ∧ length (calls (toggleCollapseTabGroups selectedTabs allTabGroups))
    = length allTabGroups.
Proof.
  rewrite toggleCollapseTabGroups_calls. unfold result, calls. cbn [fst snd].
  split; [done|].
  set (active := λ g, bool_decide (TabGroup.id g ∈ activeGroupIds selectedTabs)).
  pose proof (filter_split_perm active allTabGroups) as Hperm. split.
  - rewrite updatedGroups_app.
    rewrite (updatedGroups_fmap (λ _, existsb _ _)), (updatedGroups_fmap (λ _, false)).
    rewrite <- fmap_app. apply fmap_Permutation.
    rewrite <- Hperm at 3. apply Permutation_app_comm.
  - rewrite length_app, !length_fmap, Nat.add_comm, <- length_app.
    by apply Permutation_length.
Qed.

(** X14: the flag [toggleCollapseTabGroups] sets: a group with a
    selected tab is expanded; every other group is collapsed when some
    group without a selected tab is expanded, and expanded when all of
    them are collapsed. *)
Theorem toggleCollapseTabGroups_flags (selectedTabs : list Tab.t)
    (allTabGroups : list TabGroup.t) (groupId : Z) (flag : bool) :
  TabGroupsUpdateCollapsed groupId flag
    ∈ calls (toggleCollapseTabGroups selectedTabs allTabGroups) →
  (activeGroup selectedTabs groupId → flag = false)
  ∧ (¬ activeGroup selectedTabs groupId →
     (flag = true
      ↔ ∃ g, g ∈ allTabGroups ∧ ¬ activeGroup selectedTabs (TabGroup.id g)
             ∧ TabGroup.collapsed g = false)).
Proof.
  rewrite toggleCollapseTabGroups_calls. unfold calls. cbn [fst].
  set (active := λ g, bool_decide (TabGroup.id g ∈ activeGroupIds selectedTabs)).
  set (collapsible := List.filter (λ g, negb (active g)) allTabGroups).
  assert (∀ g, g ∈ collapsible
               ↔ g ∈ allTabGroups ∧ ¬ activeGroup selectedTabs (TabGroup.id g)) as Hcoll.
  { intros g. unfold collapsible, active.
    rewrite list_elem_of_In, filter_In, <- list_elem_of_In, <- activeGroupIds_elem.
    apply and_iff_compat_l. rewrite negb_true_iff. apply bool_decide_eq_false. }
  assert (existsb (λ g, negb (TabGroup.collapsed g)) collapsible = true
          ↔ ∃ g, g ∈ allTabGroups ∧ ¬ activeGroup selectedTabs (TabGroup.id g)
                 ∧ TabGroup.collapsed g = false) as Hsome.
  { rewrite existsb_exists. split.
    - intros (g & Hg%list_elem_of_In%Hcoll & Hflag%negb_true_iff).
      exists g. by destruct Hg.
    - intros (g & Hg & Hact & Hflag). exists g. split.
      + apply list_elem_of_In, Hcoll. done.
      + by apply negb_true_iff. }
  intros [Hin|Hin]%elem_of_app.
  - apply list_elem_of_fmap in Hin as (g & Heq & Hg%Hcoll). inversion Heq; subst.
    destruct Hg as [_ Hact]. split; [done|]. intros _. done.
  - apply list_elem_of_fmap in Hin as (g & Heq & Hg). inversion Heq; subst.
    apply list_elem_of_In, filter_In in Hg as [_ Hact]. unfold active in Hact.
    apply bool_decide_eq_true, activeGroupIds_elem in Hact. split; [done|].
    intros Hnot. done.
Qed.

Lemma toggleCollapseTabGroups_flags_witness :
  (activeGroup [Scenario.BeforeVisible.A] Scenario.G1 → true = false)
  ∧ (¬ activeGroup [Scenario.BeforeVisible.A] Scenario.G1 →
     (true = true
      ↔ ∃ g, g ∈ Scenario.BeforeVisible.tabGroups
             ∧ ¬ activeGroup [Scenario.BeforeVisible.A] (TabGroup.id g)
             ∧ TabGroup.collapsed g = false)).
Proof.
  apply (toggleCollapseTabGroups_flags [Scenario.BeforeVisible.A]
                                       Scenario.BeforeVisible.tabGroups
                                       Scenario.G1 true).
  apply list_elem_of_lookup. by exists 0%nat.
Defined.

End GroupFacts.

(** * grabTab and moveTabPreviousWindow *)

Section GrabFacts.
Import Js Utils Chrome Commands Navigation WindowNavigation MoreCommands Spec MoreSpec.

Lemma slice_take {A} (array : list A) (i : nat) :
  (i ≤ length array)%nat → slice array 0 (Some (Z.of_nat i)) = take i array.
Proof.
  intros Hi. unfold slice, sliceBound. simpl (0 <? 0).
  destruct (Z.ltb_spec (Z.of_nat i) 0) as [Hneg|_]; [lia|].
  rewrite Z.min_l by lia. rewrite Z.min_l by lia. simpl. rewrite drop_0.
  f_equal. lia.
Qed.

Lemma slice_drop {A} (array : list A) (i : nat) :
  (i ≤ length array)%nat → slice array (Z.of_nat i) None = drop i array.
Proof.
  intros Hi. unfold slice, sliceBound.
  destruct (Z.ltb_spec (Z.of_nat i) 0) as [Hneg|_]; [lia|].
  rewrite Z.min_l by lia. rewrite Nat2Z.id.
  apply take_ge. rewrite length_drop. lia.
Qed.

Lemma movedIds_app (ops1 ops2 : list Op) :
  movedIds (ops1 ++ ops2) = movedIds ops1 ++ movedIds ops2.
Proof. apply omap_app. Qed.

Lemma movedIds_moves {A} (f : A → Z) (moveProperties : MoveProperties) (l : list A) :
  movedIds ((λ x, TabsMove (f x) moveProperties) <$> l) = f <$> l.
Proof. induction l as [|x l IH]; [done|]. csimpl. f_equal. exact IH. Qed.

(** The run of [grabTab] when the current tab is the selected tab at
    position [i]. *)
Lemma grabTab_run (tabs : list Tab.t) (cx : Context) (i : nat) (current : Tab.t) :
  NoDup (Tab.id <$> tabs) → tabs !! i = Some current →
  Tab.id current = Tab.id (tab cx) →
  grabTab tabs cx
  = (((λ t, TabsMove (Tab.id t) {| windowId := None; index := Tab.index (tab cx) |})
        <$> take i tabs)
     ++ ((λ t, TabsMove (Tab.id t) {| windowId := None; index := Tab.index (tab cx) + 1 |})
           <$> reverse (drop (S i) tabs))
     ++ (if bool_decide (Tab.groupId (tab cx) ≠ TAB_GROUP_ID_NONE)
         then [TabsGroup ((take i tabs ≫= λ t, if Tab.pinned t then [] else [Tab.id t])
                          ++ (Tab.id <$> drop (S i) tabs))
                         (Tab.groupId (tab cx))]
         else []),
     inr tt).
Proof.
  intros Hnd Hi Hid. unfold grabTab. rewrite <- Hid.
  rewrite (findIndexNumber_lookup Tab.id tabs i current Hnd Hi).
  pose proof (lookup_lt_Some _ _ _ Hi) as Hlt.
  rewrite slice_take by lia.
  replace (Z.of_nat i + 1) with (Z.of_nat (S i)) by lia.
  rewrite slice_drop by lia.
  rewrite !moveTabs_run. unfold getTabId.
  rewrite <- fmap_reverse, <- !list_fmap_compose.
  rewrite (bind_ok _ _ _ tt eq_refl). rewrite (bind_ok _ _ _ tt eq_refl).
  case_bool_decide; simpl; by rewrite ?app_nil_r.
Qed.

(** X15: when the current tab is one of the selected tabs and tab ids
    are distinct, [grabTab] returns normally and moves every other
    selected tab exactly once, and never the current tab. *)
Theorem grabTab_moves_others (tabs : list Tab.t) (cx : Context) (i : nat)
    (current : Tab.t) :
  NoDup (Tab.id <$> tabs) → tabs !! i = Some current →
  Tab.id current = Tab.id (tab cx) →
  outcome (grabTab tabs cx) = inr tt
  ∧ movedIds (issued (grabTab tabs cx)) ≡ₚ Tab.id <$> (take i tabs ++ drop (S i) tabs)
  ∧ Tab.id (tab cx) ∉ movedIds (issued (grabTab tabs cx)).
Proof.
  intros Hnd Hi Hid. rewrite (grabTab_run tabs cx i current Hnd Hi Hid).
  unfold outcome, issued. cbn [fst snd]. split; [done|].
  assert (movedIds
            (((λ t, TabsMove (Tab.id t) {| windowId := None; index := Tab.index (tab cx) |})
                <$> take i tabs)
             ++ ((λ t, TabsMove (Tab.id t)
                                {| windowId := None; index := Tab.index (tab cx) + 1 |})
                   <$> reverse (drop (S i) tabs))
             ++ (if bool_decide (Tab.groupId (tab cx) ≠ TAB_GROUP_ID_NONE)
                 then [TabsGroup ((take i tabs ≫= λ t, if Tab.pinned t then [] else [Tab.id t])
                                  ++ (Tab.id <$> drop (S i) tabs))
                                 (Tab.groupId (tab cx))]
                 else []))
          = Tab.id <$> (take i tabs ++ reverse (drop (S i) tabs))) as ->.
  { rewrite !movedIds_app, !movedIds_moves, fmap_app.
    case_bool_decide; simpl; by rewrite app_nil_r. }
  assert (take i tabs ++ reverse (drop (S i) tabs) ≡ₚ take i tabs ++ drop (S i) tabs)
    as Hperm by (by rewrite reverse_Permutation).
  split; [by rewrite Hperm|]. rewrite Hperm, <- Hid.
  rewrite <- (take_drop_middle tabs i current Hi) in Hnd.
  rewrite fmap_app, fmap_cons in Hnd.
  apply NoDup_app in Hnd as (_ & Hleft & Hright).
  apply NoDup_cons in Hright as [Hright _].
  rewrite fmap_app. intros [Hin|Hin]%elem_of_app.
  - apply (Hleft _ Hin). by left.
  - done.
Qed.

Lemma grabTab_moves_others_witness :
  outcome (grabTab Scenario.FullGroup.tabs (Example.cx Scenario.FullGroup.A)) = inr tt
  ∧ movedIds (issued (grabTab Scenario.FullGroup.tabs (Example.cx Scenario.FullGroup.A)))
    ≡ₚ Tab.id <$> (take 1 Scenario.FullGroup.tabs ++ drop 2 Scenario.FullGroup.tabs)
  ∧ Tab.id (tab (Example.cx Scenario.FullGroup.A))
    ∉ movedIds (issued (grabTab Scenario.FullGroup.tabs (Example.cx Scenario.FullGroup.A))).
Proof.
  apply (grabTab_moves_others Scenario.FullGroup.tabs (Example.cx Scenario.FullGroup.A)
                              1 Scenario.FullGroup.A).
  - apply (bool_decide_unpack _). vm_compute. exact I.
  - reflexivity.
  - reflexivity.
Defined.

(** X16: under the same conditions, the tabs [grabTab] adds to a group
    go to the group of the current tab, which is a group; they are the
    selected tabs after the current tab and the unpinned selected tabs
    before it, and no call adds tabs to a group when the current tab
    is in none. *)
Theorem grabTab_groups (tabs : list Tab.t) (cx : Context) (i : nat) (current : Tab.t)
    (tabIds : list Z) (groupId : Z) :
  NoDup (Tab.id <$> tabs) → tabs !! i = Some current →
  Tab.id current = Tab.id (tab cx) →
  TabsGroup tabIds groupId ∈ issued (grabTab tabs cx) →
  groupId = Tab.groupId (tab cx) ∧ groupId ≠ TAB_GROUP_ID_NONE
  ∧ ∀ tabId, tabId ∈ tabIds
             ↔ ∃ j t, tabs !! j = Some t ∧ Tab.id t = tabId
                      ∧ ((j < i)%nat ∧ Tab.pinned t = false ∨ (i < j)%nat).
Proof.
  intros Hnd Hi Hid. rewrite (grabTab_run tabs cx i current Hnd Hi Hid).
  unfold issued. cbn [fst].
  intros [Hin|[Hin|Hin]%elem_of_app]%elem_of_app.
  - apply list_elem_of_fmap in Hin as (t & Heq & _). discriminate.
  - apply list_elem_of_fmap in Hin as (t & Heq & _). discriminate.
  - case_bool_decide as Hgroup; [|by apply elem_of_nil in Hin].
    apply list_elem_of_singleton in Hin. inversion Hin; subst tabIds groupId.
    do 2 (split; [done|]). intros tabId. rewrite elem_of_app. split.
    + intros [Hleft|Hright].
      * apply list_elem_of_bind in Hleft as (t & Ht & (j & Hj)%list_elem_of_lookup).
        destruct (Tab.pinned t) eqn:Hpin; [by apply elem_of_nil in Ht|].
        apply list_elem_of_singleton in Ht. subst tabId.
        apply lookup_take_Some in Hj as [Hj Hlt]. exists j, t. eauto.
      * apply list_elem_of_fmap in Hright as (t & -> & (j & Hj)%list_elem_of_lookup).
        rewrite lookup_drop in Hj. exists (S i + j)%nat, t.
        split; [done|]. split; [done|]. right. lia.
    + intros (j & t & Hj & <- & [[Hlt Hpin]|Hgt]).
      * left. apply list_elem_of_bind. exists t. rewrite Hpin.
        split; [by apply list_elem_of_singleton|].
        apply list_elem_of_lookup. exists j. by rewrite lookup_take_lt.
      * right. apply list_elem_of_fmap. exists t. split; [done|].
        apply list_elem_of_lookup. exists (j - S i)%nat. rewrite lookup_drop.
        by replace (S i + (j - S i))%nat with j by lia.
Qed.

Lemma grabTab_groups_witness :
  Scenario.G1 = Tab.groupId (tab (Example.cx Scenario.FullGroup.A))
  ∧ Scenario.G1 ≠ TAB_GROUP_ID_NONE
  ∧ ∀ tabId, tabId ∈ [102; 103]
             ↔ ∃ j t, Scenario.FullGroup.tabs !! j = Some t ∧ Tab.id t = tabId
                      ∧ ((j < 1)%nat ∧ Tab.pinned t = false ∨ (1 < j)%nat).
Proof.
  apply (grabTab_groups Scenario.FullGroup.tabs (Example.cx Scenario.FullGroup.A)
                        1 Scenario.FullGroup.A [102; 103] Scenario.G1).
  - apply (bool_decide_unpack _). vm_compute. exact I.
  - reflexivity.
  - reflexivity.
  - apply list_elem_of_lookup. by exists 3%nat.
Defined.

End GrabFacts.

Section PreviousWindowFacts.
Import Js Utils Chrome Commands Navigation WindowNavigation MoreCommands Spec MoreSpec.
Variable movedTab : Z → MoveProperties → Tab.t.
Variable updatedTab : Z → Tab.t.
Variable groupTabs : Z → list Tab.t.
Variable gotTab : Z → Tab.t.

(** X17: when the window of the current tab is the only window that is
    not minimized, the previous open window is that window itself and
    [moveTabPreviousWindow] returns without a call; when every window
    is minimized it raises a TypeError without a call. *)
Theorem moveTabPreviousWindow_alone (allWindows : list Window.t) (cx : Context)
    (tabs : list Tab.t) :
  (∀ window, window ∈ openWindows allWindows →
             Window.id window = Tab.windowId (tab cx)) →
  moveTabPreviousWindow movedTab updatedTab groupTabs gotTab allWindows cx tabs
  = if decide (openWindows allWindows = [])
    then ([], inl (TypeError "previousWindow.id"))
    else ([], inr tt).
Proof.
  intros Hall. unfold moveTabPreviousWindow.
  pose proof (getOpenWindowRelative_open allWindows (Tab.windowId (tab cx)) (-1)) as Hopen.
  destruct (getOpenWindowRelative _ _ _) as [window|].
  - rewrite decide_False by (intros Hnil; rewrite Hnil in Hopen; by apply elem_of_nil in Hopen).
    simpl defined. rewrite (bind_silent _ _ window) by done.
    unfold moveTabsToWindow. by rewrite bool_decide_eq_true_2 by (symmetry; by apply Hall).
  - by rewrite decide_True.
Qed.

End PreviousWindowFacts.

Section PreviousWindowWitness.
Import Js Utils Chrome Commands Navigation WindowNavigation MoreCommands Spec MoreSpec.

Lemma moveTabPreviousWindow_alone_witness :
  moveTabPreviousWindow Example.movedTab Example.updatedTab Example.groupTabs
                        Example.gotTab
                        [Window.mk 1 "normal"; Window.mk 2 "minimized"]
                        (Example.cx Scenario.FullGroup.A) Scenario.FullGroup.tabs
  = if decide (openWindows [Window.mk 1 "normal"; Window.mk 2 "minimized"] = [])
    then ([], inl (TypeError "previousWindow.id"))
    else ([], inr tt).
Proof.
  apply (moveTabPreviousWindow_alone
           Example.movedTab Example.updatedTab Example.groupTabs Example.gotTab
           [Window.mk 1 "normal"; Window.mk 2 "minimized"]
           (Example.cx Scenario.FullGroup.A) Scenario.FullGroup.tabs).
  intros window Hin. apply list_elem_of_singleton in Hin. by subst window.
Defined.

End PreviousWindowWitness.

(** * moveTabEdgeDirection on every tab strip *)

Section EdgeRunFacts.
Import Js Utils Chrome Commands Navigation MoreCommands Spec MoreSpec.

Lemma filter_nil_forallb {A} (p : A → bool) (l : list A) :
  length (List.filter (λ x, negb (p x)) l) = 0%nat ↔ forallb p l = true.
Proof.
  induction l as [|x l IH]; simpl; [done|].
  destruct (p x); simpl; [done|]. split; [lia|done].
Qed.

(** What the callback of the edge move issues for one chunk of the
    strip: one move of the group when the chunk is a fully selected
    group, and one move per selected tab otherwise. *)
Lemma moveEdgeChunk_entry (direction : Direction) (tabs pinnedTabs : list Tab.t)
    (groupId : Z) (run : list Tab.t) :
  run ≠ [] → Forall (λ tab, byGroup tab = groupId) run → run ⊆ tabs →
  ∃ props,
    moveEdgeChunk direction tabs pinnedTabs (edgeEntry (groupId, run))
    = (if bool_decide (groupId ≠ TAB_GROUP_ID_NONE) && forallb isSelected run
       then [TabGroupsMove groupId props]
       else (λ tab, TabsMove (Tab.id tab) props) <$> List.filter isSelected run,
       inr tt).
Proof.
  intros Hne Hkey Hincl. unfold edgeEntry. rewrite partition_filter.
  unfold moveEdgeChunk.
  destruct (bool_decide (groupId ≠ TAB_GROUP_ID_NONE)); cbn [andb].
  - destruct (forallb isSelected run) eqn:Hall.
    + rewrite bool_decide_eq_true_2 by (by apply filter_nil_forallb). by eexists.
    + assert (length (List.filter (λ x, negb (isSelected x)) run) ≠ 0%nat) as Hlen.
      { intros Hlen%filter_nil_forallb. congruence. }
      rewrite bool_decide_eq_false_2 by done. rewrite bool_decide_eq_true_2 by done.
      assert (∃ x, x ∈ run) as [x Hxrun].
      { destruct run as [|x run']; [done|]. exists x. by left. }
      destruct (groupBy_lookup tabs byGroup x) as (group & Hgroup & Hx);
        [by apply Hincl|].
      rewrite (proj1 (Forall_forall _ _) Hkey x Hxrun) in Hgroup.
      unfold tabsByGroup. rewrite Hgroup.
      rewrite (bind_silent _ _ group) by done.
      destruct (at_nonempty group (edgeIndex direction)) as [edgeTab HedgeTab].
      { intros ->. by apply elem_of_nil in Hx. }
      { destruct direction; auto. }
      rewrite HedgeTab. rewrite (bind_silent _ _ edgeTab) by done.
      rewrite moveTabs_run. unfold getTabId. rewrite <- list_fmap_compose.
      by eexists.
  - rewrite moveTabs_run. unfold getTabId. rewrite <- list_fmap_compose. by eexists.
Qed.

Lemma toOrdered_elem {A} (direction : Direction) (l : list A) (x : A) :
  x ∈ toOrdered direction l ↔ x ∈ l.
Proof. destruct direction; simpl; [done|]. apply elem_of_reverse. Qed.

(** The run of [moveTabEdgeDirection]: the moves of the selected pinned
    tabs, then what the callback issues for each chunk of the unpinned
    tabs, in the order of travel. *)
Lemma moveTabEdgeDirection_run (direction : Direction) (tabs : list Tab.t) :
  ∃ chunks,
    chunked byGroup (splitPinned tabs).2 chunks
    ∧ moveTabEdgeDirection direction tabs
      = (((λ tab, TabsMove (Tab.id tab)
                    {| windowId := None; index := edgeIndex direction |})
            <$> List.filter isSelected (toOrdered direction (splitPinned tabs).1))
         ++ concat ((λ c, issued (moveEdgeChunk direction tabs (splitPinned tabs).1
                                                (edgeEntry c)))
                      <$> toOrdered direction chunks),
         inr tt).
Proof.
  destruct (splitPinned_spec tabs) as (Htabs & _ & _).
  destruct (chunk_byGroup (splitPinned tabs).2) as (chunks & Hchunk & Hch).
  exists chunks. split; [done|]. unfold moveTabEdgeDirection.
  destruct (splitPinned tabs) as [pinnedTabs otherTabs]. cbn [fst snd] in *.
  unfold edgePartition. rewrite Hchunk.
  rewrite (bind_silent _ _ (edgeEntry <$> chunks)) by done.
  rewrite moveTabs_run. unfold getTabId at 1. rewrite <- list_fmap_compose.
  erewrite bind_ok by done.
  assert (toOrdered direction (edgeEntry <$> chunks)
          = edgeEntry <$> toOrdered direction chunks) as ->.
  { destruct direction; simpl; [done|]. by rewrite fmap_reverse. }
  rewrite forEach_ok.
  - cbn [issued outcome fst snd]. by rewrite <- list_fmap_compose.
  - intros entry ([g r] & -> & Hin%toOrdered_elem)%list_elem_of_fmap.
    apply list_elem_of_lookup in Hin as (j & Hj).
    pose proof (proj1 (Forall_lookup _ _) (chunked_uniform _ _ _ Hch) _ _ Hj)
      as [Hne Hkey].
    pose proof (chunked_run_incl _ _ _ _ _ _ Hch Hj) as Hincl.
    destruct (moveEdgeChunk_entry direction tabs pinnedTabs g r Hne Hkey) as [props ->];
      [|done].
    intros x Hx. rewrite Htabs. apply elem_of_app. right. by apply Hincl.
Qed.

(** X18: on every tab strip and in both directions,
    [moveTabEdgeDirection] returns normally; the tabs it moves one by
    one are selected tabs of the strip, the groups it moves are groups
    of selected tabs, and it issues no other call. *)
Theorem moveTabEdgeDirection_sound (direction : Direction) (tabs : list Tab.t) :
  outcome (moveTabEdgeDirection direction tabs) = inr tt
  ∧ Forall (λ op,
              match op with
              | TabsMove tabId _ =>
                  ∃ tab, tab ∈ tabs ∧ isSelected tab = true ∧ Tab.id tab = tabId
              | TabGroupsMove groupId _ =>
                  groupId ≠ TAB_GROUP_ID_NONE
                  ∧ ∃ tab, tab ∈ tabs ∧ isSelected tab = true
                           ∧ Tab.groupId tab = groupId
              | _ => False
              end)
           (issued (moveTabEdgeDirection direction tabs)).
Proof.
  destruct (moveTabEdgeDirection_run direction tabs) as (chunks & Hch & ->).
  destruct (splitPinned_spec tabs) as (Htabs & _ & _).
  split; [done|]. cbn [issued fst]. apply Forall_app. split.
  - apply Forall_fmap, Forall_forall.
    intros tab [Hin%list_elem_of_In%toOrdered_elem Hsel]%list_elem_of_In%filter_In.
    simpl. exists tab. split; [|done]. rewrite Htabs. apply elem_of_app. by left.
  - apply Forall_concat, Forall_fmap, Forall_forall.
    intros [g r] (j & Hj)%toOrdered_elem%list_elem_of_lookup. unfold compose.
    pose proof (proj1 (Forall_lookup _ _) (chunked_uniform _ _ _ Hch) _ _ Hj)
      as [Hne Hkey].
    pose proof (chunked_run_incl _ _ _ _ _ _ Hch Hj) as Hincl.
    assert (r ⊆ tabs) as Hsub.
    { intros x Hx. rewrite Htabs. apply elem_of_app. right. by apply Hincl. }
    destruct (moveEdgeChunk_entry direction tabs (splitPinned tabs).1 g r Hne Hkey Hsub)
      as [props ->].
    cbn [issued fst]. simpl in Hkey.
    destruct (bool_decide (g ≠ TAB_GROUP_ID_NONE)) eqn:Hg; cbn [andb].
    + apply bool_decide_eq_true in Hg.
      destruct (forallb isSelected r) eqn:Hall.
      * constructor; [|constructor]. split; [done|].
        destruct r as [|x r]; [done|]. exists x.
        simpl in Hall. apply andb_true_iff in Hall as [Hx _].
        split; [apply Hsub; by left|]. split; [done|].
        by inversion Hkey.
      * apply Forall_fmap, Forall_forall.
        intros tab [Hin%list_elem_of_In Hsel]%list_elem_of_In%filter_In. simpl.
        exists tab. split; [by apply Hsub|done].
    + apply Forall_fmap, Forall_forall.
      intros tab [Hin%list_elem_of_In Hsel]%list_elem_of_In%filter_In. simpl.
      exists tab. split; [by apply Hsub|done].
Qed.

(** X19: [moveTabEdgeDirection] leaves no selected tab behind: every
    selected tab of the strip is moved on its own, or the group it
    belongs to is moved. *)
Theorem moveTabEdgeDirection_covers (direction : Direction) (tabs : list Tab.t)
    (tab : Tab.t) :
  tab ∈ tabs → isSelected tab = true →
  (∃ props, TabsMove (Tab.id tab) props ∈ issued (moveTabEdgeDirection direction tabs))
  ∨ (∃ props, TabGroupsMove (Tab.groupId tab) props
                ∈ issued (moveTabEdgeDirection direction tabs)).
Proof.
  intros Hin Hsel.
  destruct (moveTabEdgeDirection_run direction tabs) as (chunks & Hch & ->).
  destruct (splitPinned_spec tabs) as (Htabs & _ & _).
  cbn [issued fst]. rewrite Htabs in Hin. apply elem_of_app in Hin as [Hpin|Hother].
  - left. eexists. apply elem_of_app. left.
    apply list_elem_of_fmap. exists tab. split; [done|].
    apply list_elem_of_In, filter_In. split; [|done].
    by apply list_elem_of_In, toOrdered_elem.
  - rewrite <- (chunked_concat _ _ _ Hch) in Hother.
    apply elem_of_concat in Hother as (j & r & Hj & Hr).
    rewrite list_lookup_fmap in Hj.
    destruct (chunks !! j) as [[g r']|] eqn:Hcj; [|done].
    simpl in Hj. inversion Hj; subst r'.
    pose proof (proj1 (Forall_lookup _ _) (chunked_uniform _ _ _ Hch) _ _ Hcj)
      as [Hne Hkey].
    pose proof (chunked_run_incl _ _ _ _ _ _ Hch Hcj) as Hincl.
    assert (r ⊆ tabs) as Hsub.
    { intros x Hx. rewrite Htabs. apply elem_of_app. right. by apply Hincl. }
    destruct (moveEdgeChunk_entry direction tabs (splitPinned tabs).1 g r Hne Hkey Hsub)
      as [props Hrun].
    assert (issued (moveEdgeChunk direction tabs (splitPinned tabs).1 (edgeEntry (g, r)))
            ⊆ concat ((λ c, issued (moveEdgeChunk direction tabs (splitPinned tabs).1
                                                   (edgeEntry c)))
                        <$> toOrdered direction chunks)) as Hops.
    { assert ((g, r) ∈ toOrdered direction chunks) as (k & Hk)%list_elem_of_lookup
        by (by eapply toOrdered_elem, list_elem_of_lookup_2).
      apply (concat_lookup_incl _ k). by rewrite list_lookup_fmap, Hk. }
    rewrite Hrun in Hops. cbn [issued fst] in Hops.
    simpl in Hkey. pose proof (proj1 (Forall_forall _ _) Hkey tab Hr) as Hgroup.
    unfold byGroup in Hgroup.
    destruct (bool_decide (g ≠ TAB_GROUP_ID_NONE) && forallb isSelected r).
    + right. exists props. apply elem_of_app. right. apply Hops.
      rewrite Hgroup. by left.
    + left. exists props. apply elem_of_app. right. apply Hops.
      apply list_elem_of_fmap. exists tab. split; [done|].
      apply list_elem_of_In, filter_In. split; [by apply list_elem_of_In|done].
Qed.

Lemma moveTabEdgeDirection_covers_witness :
  (∃ props, TabsMove (Tab.id Scenario.PartialGroup.A) props
              ∈ issued (moveTabEdgeDirection Forward Scenario.PartialGroup.tabs))
  ∨ (∃ props, TabGroupsMove (Tab.groupId Scenario.PartialGroup.A) props
                ∈ issued (moveTabEdgeDirection Forward Scenario.PartialGroup.tabs)).
Proof.
  apply (moveTabEdgeDirection_covers Forward Scenario.PartialGroup.tabs
                                     Scenario.PartialGroup.A).
  - apply list_elem_of_lookup. by exists 0%nat.
  - reflexivity.
Defined.

End EdgeRunFacts.

(** * moveTabDirection and the positional moves *)

Section DirectionFacts.
Import Js Utils Chrome Commands Navigation MoreCommands Spec MoreSpec.

(** The body of the pinned loop never returns: it raises before any
    call, or right after its one move. *)
Lemma movePinnedChunk_raises (direction : Direction) (tabs : list Tab.t)
    (entry : bool * list Tab.t) :
  (∃ e, movePinnedChunk direction tabs entry = ([], inl e))
  ∨ ∃ tabId props,
      movePinnedChunk direction tabs entry
      = ([TabsMove tabId props], inl (TypeError "moveTabs.push is not a function")).
Proof.
  destruct entry as [key tabSelection]. unfold movePinnedChunk.
  destruct (at_ tabSelection (focusIndex direction)) as [focusTab|]; [|left; by eexists].
  rewrite (bind_silent _ _ focusTab) by done.
  destruct (at_ tabSelection (anchorIndex direction)) as [anchorTab|]; [|left; by eexists].
  rewrite (bind_silent _ _ anchorTab) by done.
  destruct (Js.index tabs _) as [targetTab|]; [|left; by eexists].
  rewrite (bind_silent _ _ targetTab) by done.
  right. by do 2 eexists.
Qed.

(** A loop whose body never returns runs its body at most once. *)
Lemma everySelectedChunk_once (tabPartition : list (bool * list Tab.t))
    (body : bool * list Tab.t → M unit) :
  (∀ entry, ∃ ops e, body entry = (ops, inl e)) →
  everySelectedChunk tabPartition body = ([], inr tt)
  ∨ ∃ entry, everySelectedChunk tabPartition body = body entry.
Proof.
  intros Hbody. unfold everySelectedChunk. case_bool_decide as Hlen; [|by left].
  destruct (length tabPartition) as [|fuel]; [done|]. simpl.
  destruct (tabPartition !! firstSelectedIndex tabPartition) as [entry|]; [|by left].
  right. exists entry. destruct (Hbody entry) as (ops & e & ->). done.
Qed.

Lemma runBranch_regroups (direction : Direction) (tabSelection : list Tab.t)
    (targetTab : option Tab.t) (branch : Branch) :
  Forall (λ op, regroups op = true)
         (issued (runBranch direction tabSelection targetTab branch)).
Proof.
  destruct branch, direction, targetTab as [tab|]; by repeat constructor.
Qed.

Lemma moveOtherChunk_regroups (direction : Direction) (tabs : list Tab.t)
    (tabGroups : list TabGroup.t) (entry : bool * list Tab.t) :
  Forall (λ op, regroups op = true)
         (issued (moveOtherChunk direction tabs tabGroups entry)).
Proof.
  destruct entry as [key tabSelection]. unfold moveOtherChunk.
  destruct (at_ tabSelection (focusIndex direction)) as [focusTab|]; [|by constructor].
  rewrite (bind_silent _ _ focusTab) by done.
  destruct (at_ tabSelection (anchorIndex direction)) as [anchorTab|]; [|by constructor].
  rewrite (bind_silent _ _ anchorTab) by done.
  cbv zeta. apply bind_Forall.
  - destruct (selectBranch_cases tabs tabGroups focusTab anchorTab
                (Js.index tabs (Tab.index focusTab + focusOffset direction)))
      as (-> & _). constructor.
  - intros branch _. apply runBranch_regroups.
Qed.

Lemma dropOtherBoundary_regroups (direction : Direction) (tabs : list Tab.t)
    (tabPartition : list (bool * list Tab.t)) :
  Forall (λ op, regroups op = true)
         (issued (dropOtherBoundary direction tabs tabPartition)).
Proof.
  unfold dropOtherBoundary. case_bool_decide; [|constructor].
  destruct (at_ tabPartition (focusIndex direction)) as [[[] run]|];
    [|constructor|constructor].
  rewrite (bind_silent _ _ (true, run)) by done. cbv beta iota.
  destruct (at_ run (anchorIndex direction)) as [anchorTab|]; [|constructor].
  rewrite (bind_silent _ _ anchorTab) by done.
  destruct (at_ run (focusIndex direction)) as [focusTab|]; [|constructor].
  rewrite (bind_silent _ _ focusTab) by done.
  rewrite !and_then_ret. apply bind_Forall.
  - repeat case_match; try constructor.
    unfold otherLength. by destruct (groupIdToSelPartition tabs !! _) as [[? ?]|].
  - intros c _. apply bind_Forall; [|constructor].
    destruct c, direction; by repeat constructor.
Qed.

(** X20: [moveTabDirection] completes no positional move.  On every
    tab strip and in both directions, either the run consists of one
    [chrome.tabs.move], issued for a pinned chunk, and ends in the
    TypeError raised by [moveTabs.push], or every call of the run adds
    tabs to a group or removes tabs from their group: no tab and no
    group is moved. *)
Theorem moveTabDirection_never_moves (direction : Direction) (tabs : list Tab.t)
    (tabGroups : list TabGroup.t) :
  (∃ tabId props,
     moveTabDirection direction tabs tabGroups
     = ([TabsMove tabId props], inl (TypeError "moveTabs.push is not a function")))
  ∨ Forall (λ op, regroups op = true)
           (issued (moveTabDirection direction tabs tabGroups)).
Proof.
  unfold moveTabDirection.
  destruct (splitPinned tabs) as [pinnedTabs otherTabs].
  destruct (chunk_chunked isSelected pinnedTabs ltac:(done)) as (pinnedChunks & -> & _).
  destruct (chunk_chunked isSelected otherTabs ltac:(done)) as (otherChunks & -> & _).
  rewrite (bind_silent (lift (inr _)) _ _ eq_refl).
  destruct (dropPinnedBoundary_spec direction pinnedChunks) as [Hsilent _].
  destruct (dropPinnedBoundary direction pinnedChunks) as [ops [e|rest]];
    cbn [issued fst] in Hsilent; subst ops; [right; constructor|].
  rewrite (bind_silent _ _ rest) by done.
  destruct (everySelectedChunk_once rest (movePinnedChunk direction tabs))
    as [->|[entry ->]].
  { intros entry.
    destruct (movePinnedChunk_raises direction tabs entry) as [[e ->]|(? & ? & ->)];
      by do 2 eexists. }
  - rewrite (bind_silent _ _ tt) by done.
    rewrite (bind_silent (lift (inr _)) _ _ eq_refl). right.
    apply bind_Forall; [apply dropOtherBoundary_regroups|].
    intros rest2 _. unfold everySelectedChunk. case_bool_decide; [|constructor].
    apply forStep2_Forall. intros j entry _. apply moveOtherChunk_regroups.
  - destruct (movePinnedChunk_raises direction tabs entry)
      as [[e ->]|(tabId & props & ->)].
    + right. constructor.
    + left. by exists tabId, props.
Qed.

End DirectionFacts.

(** * Selection commands *)

Section SelectionFacts.
Import Js Utils Chrome Commands Navigation MoreCommands Spec MoreSpec.

(** X21: [selectTabsInGroup] returns normally with one
    [chrome.tabs.highlight] that starts with the current tab; for the
    division of the strip into maximal runs of tabs that are pinned or
    share a group id, the tabs it highlights after the current tab are
    exactly the tabs of the runs that hold a selected tab, so that no
    selected tab is left out. *)
Theorem selectTabsInGroup_extends (allTabs : list Tab.t) (cx : Context) :
  ∃ chunks indices,
    chunked byPinnedOrGroup allTabs chunks
    ∧ selectTabsInGroup allTabs cx
      = ([TabsHighlight (Tab.index (tab cx) :: indices) (Tab.windowId (tab cx))], inr tt)
    ∧ (∀ i, i ∈ indices
            ↔ ∃ k run t, (k, run) ∈ chunks ∧ existsb isSelected run = true
                         ∧ t ∈ run ∧ Tab.index t = i)
    ∧ (∀ t, t ∈ allTabs → isSelected t = true → Tab.index t ∈ indices).
Proof.
  destruct (chunk_chunked byPinnedOrGroup allTabs ltac:(done)) as (chunks & Hchunk & Hch).
  exists chunks. eexists. split; [done|]. split.
  { unfold selectTabsInGroup. rewrite Hchunk.
    rewrite (bind_silent _ _ chunks) by done. reflexivity. }
  assert (∀ i, i ∈ concat ((λ '(_, tabs), if existsb isSelected tabs
                                           then Tab.index <$> tabs else [])
                             <$> chunks)
               ↔ ∃ k run t, (k, run) ∈ chunks ∧ existsb isSelected run = true
                            ∧ t ∈ run ∧ Tab.index t = i) as Hiff.
  { intros i. split.
    - intros (j & l & Hj & Hi)%elem_of_concat. rewrite list_lookup_fmap in Hj.
      destruct (chunks !! j) as [[k run]|] eqn:Hcj; [|done].
      simpl in Hj. inversion Hj; subst l.
      destruct (existsb isSelected run) eqn:Hsome; [|by apply elem_of_nil in Hi].
      apply list_elem_of_fmap in Hi as (t & -> & Ht).
      exists k, run, t. split; [by eapply list_elem_of_lookup_2|done].
    - intros (k & run & t & (j & Hj)%list_elem_of_lookup & Hsome & Ht & <-).
      apply (concat_lookup_incl _ j (Tab.index <$> run)).
      + rewrite list_lookup_fmap, Hj. simpl. by rewrite Hsome.
      + apply list_elem_of_fmap. by exists t. }
  split; [exact Hiff|].
  intros t Ht Hsel. apply Hiff.
  rewrite <- (chunked_concat _ _ _ Hch) in Ht.
  apply elem_of_concat in Ht as (j & run & Hj & Ht).
  rewrite list_lookup_fmap in Hj.
  destruct (chunks !! j) as [[k run']|] eqn:Hcj; [|done].
  simpl in Hj. inversion Hj; subst run'.
  exists k, run, t. split; [by eapply list_elem_of_lookup_2|].
  split; [|done]. apply existsb_exists. exists t.
  split; [by apply list_elem_of_In|done].
Qed.

(** The position of the first selected tab. *)
Lemma findIndexNumber_first {A} (p : A → bool) (l : list A) (i : nat) (x : A) :
  l !! i = Some x → p x = true → Forall (λ y, p y = false) (take i l) →
  findIndexNumber p l = Z.of_nat i.
Proof.
  intros Hi Hx Hbefore. unfold findIndexNumber.
  pose proof (findIndex_spec p l) as Hspec.
  destruct (findIndex p l) as [n|].
  - destruct Hspec as (Hpre & y & Hn & Hy). f_equal.
    destruct (Nat.lt_trichotomy n i) as [Hlt|[->|Hgt]]; [|done|].
    + pose proof (proj1 (Forall_lookup _ _) Hbefore n y) as Hfalse.
      rewrite lookup_take_lt in Hfalse by done. specialize (Hfalse Hn).
      simpl in Hfalse. congruence.
    + pose proof (proj1 (Forall_lookup _ _) Hpre i x) as Hfalse.
      rewrite lookup_take_lt in Hfalse by done. specialize (Hfalse Hi).
      simpl in Hfalse. congruence.
  - pose proof (proj1 (Forall_lookup _ _) Hspec i x Hi) as Hfalse.
    simpl in Hfalse. congruence.
Qed.

(** X22: when the leftmost selected tab is at position [i],
    [selectRightTabs] highlights the current tab and then every tab
    from position [i] to the end of the strip, so that every selected
    tab stays selected. *)
Theorem selectRightTabs_from_leftmost (tabs : list Tab.t) (cx : Context) (i : nat)
    (leftmost : Tab.t) :
  tabs !! i = Some leftmost → isSelected leftmost = true →
  Forall (λ t, isSelected t = false) (take i tabs) →
  selectRightTabs tabs cx
  = ([TabsHighlight (Tab.index (tab cx) :: (Tab.index <$> drop i tabs))
                    (Tab.windowId (tab cx))], inr tt)
  ∧ ∀ t, t ∈ tabs → isSelected t = true → Tab.index t ∈ Tab.index <$> drop i tabs.
Proof.
  intros Hi Hsel Hbefore. split.
  - unfold selectRightTabs.
    rewrite (findIndexNumber_first (λ t, Tab.highlighted t) tabs i leftmost Hi Hsel Hbefore).
    rewrite slice_drop by (apply lookup_lt_Some in Hi; lia). done.
  - intros t Ht Hselt. apply list_elem_of_fmap. exists t. split; [done|].
    rewrite <- (take_drop i tabs) in Ht. apply elem_of_app in Ht as [Ht|Ht]; [|done].
    pose proof (proj1 (Forall_forall _ _) Hbefore t Ht) as Hfalse.
    simpl in Hfalse. congruence.
Qed.

Lemma selectRightTabs_from_leftmost_witness :
  selectRightTabs Scenario.FullGroup.tabs (Example.cx Scenario.FullGroup.B)
  = ([TabsHighlight (Tab.index (tab (Example.cx Scenario.FullGroup.B))
                       :: (Tab.index <$> drop 1 Scenario.FullGroup.tabs))
                    (Tab.windowId (tab (Example.cx Scenario.FullGroup.B)))], inr tt)
  ∧ ∀ t, t ∈ Scenario.FullGroup.tabs → isSelected t = true →
         Tab.index t ∈ Tab.index <$> drop 1 Scenario.FullGroup.tabs.
Proof.
  apply (selectRightTabs_from_leftmost Scenario.FullGroup.tabs
                                       (Example.cx Scenario.FullGroup.B)
                                       1 Scenario.FullGroup.A).
  - reflexivity.
  - reflexivity.
  - by repeat constructor.
Defined.

End SelectionFacts.

(** * moveTabsToWindow on every tab strip *)

Section WindowRunFacts.
Import Js Utils Chrome Commands Navigation MoreCommands Spec MoreSpec.
Variable movedTab : Z → MoveProperties → Tab.t.
Variable updatedTab : Z → Tab.t.
Variable groupTabs : Z → list Tab.t.
Variable gotTab : Z → Tab.t.

Lemma filter_length_all {A} (p : A → bool) (l : list A) :
  length (List.filter p l) = length l → Forall (λ x, p x = true) l.
Proof.
  induction l as [|x l IH]; simpl; [constructor|].
  pose proof (sublist_length _ _ (filter_sublist p l)) as Hle.
  destruct (p x) eqn:Hx; simpl; intros Hlen; [|lia].
  constructor; [done|]. apply IH. lia.
Qed.

Lemma concat_singletons {A B} (f : A → B) (l : list A) :
  concat ((λ x, [f x]) <$> l) = f <$> l.
Proof. induction l as [|x l IH]; [done|]. csimpl. by rewrite IH. Qed.

(** The run of [moveTabsToWindow] towards another window. *)
Lemma moveTabsToWindow_run (cx : Context) (windowId : Z) (tabs : list Tab.t) :
  Tab.windowId (tab cx) ≠ windowId →
  ∃ chunks highlighted,
    chunked byGroup (splitPinned tabs).2 chunks
    ∧ moveTabsToWindow movedTab updatedTab groupTabs gotTab cx windowId tabs
      = (((λ tab, TabsMove (Tab.id tab) {| windowId := Some windowId; index := -1 |})
            <$> List.filter isSelected (splitPinned tabs).1)
         ++ concat (windowChunkOps windowId <$> chunks)
         ++ ((λ tab, TabsUpdatePinned
                       (Tab.id (movedTab (Tab.id tab)
                                         {| windowId := Some windowId; index := -1 |})))
               <$> List.filter isSelected (splitPinned tabs).1)
         ++ [WindowsUpdateFocused windowId; TabsHighlight highlighted windowId],
         inr tt).
Proof.
  intros Hwindow. unfold moveTabsToWindow.
  rewrite bool_decide_eq_false_2 by done.
  destruct (splitPinned tabs) as [pinnedTabs otherTabs]. cbn [fst snd].
  destruct (chunk_byGroup otherTabs) as (chunks & Hchunk & Hch).
  exists chunks. eexists. split; [done|].
  rewrite moveTabs_run. erewrite bind_ok by done.
  rewrite Hchunk. rewrite (bind_silent (lift (inr chunks)) _ chunks) by done.
  rewrite (forEach_ok _ chunks).
  2:{ intros [g r] _. cbv beta iota zeta.
      destruct (_ && _); [done|]. by rewrite moveTabs_run. }
  erewrite bind_ok by done. cbn [issued outcome fst snd].
  rewrite forEach_ok by done.
  erewrite bind_ok by done. cbn [issued outcome fst snd].
  apply (f_equal2 pair); [|done].
  apply (f_equal2 app); [by rewrite <- list_fmap_compose|].
  apply (f_equal2 app).
  { f_equal. apply list_fmap_ext. intros _ [g r] _. unfold windowChunkOps.
    cbv beta iota zeta. cbn [fst snd].
    destruct (_ && _); [done|]. rewrite moveTabs_run. cbn [issued fst].
    by rewrite <- list_fmap_compose. }
  apply (f_equal2 app); [|reflexivity].
  rewrite (concat_singletons (λ t, TabsUpdatePinned (Tab.id t))).
  by rewrite <- !list_fmap_compose.
Qed.

(** X23: towards another window, [moveTabsToWindow] returns normally;
    every move goes to the end of that window, the tabs it moves one
    by one are selected tabs of the strip, the groups it moves are
    groups of selected tabs, the tabs it pins again are the tabs the
    host returns for the moves of the selected pinned tabs, and the
    window it focuses and highlights tabs in is the destination. *)
Theorem moveTabsToWindow_sound (cx : Context) (windowId : Z) (tabs : list Tab.t) :
  Tab.windowId (tab cx) ≠ windowId →
  outcome (moveTabsToWindow movedTab updatedTab groupTabs gotTab cx windowId tabs) = inr tt
  ∧ Forall (λ op,
              match op with
              | TabsMove tabId props =>
                  props = {| windowId := Some windowId; index := -1 |}
                  ∧ ∃ tab, tab ∈ tabs ∧ isSelected tab = true ∧ Tab.id tab = tabId
              | TabGroupsMove groupId props =>
                  props = {| windowId := Some windowId; index := -1 |}
                  ∧ groupId ≠ TAB_GROUP_ID_NONE
                  ∧ ∃ tab, tab ∈ tabs ∧ isSelected tab = true
                           ∧ Tab.groupId tab = groupId
              | TabsUpdatePinned tabId =>
                  ∃ tab, tab ∈ tabs ∧ isSelected tab = true ∧ Tab.pinned tab = true
                         ∧ tabId = Tab.id (movedTab (Tab.id tab)
                                             {| windowId := Some windowId; index := -1 |})
              | WindowsUpdateFocused focused => focused = windowId
              | TabsHighlight _ highlightWindow => highlightWindow = windowId
              | _ => False
              end)
           (issued (moveTabsToWindow movedTab updatedTab groupTabs gotTab cx windowId tabs)).
Proof.
  intros Hwindow.
  destruct (moveTabsToWindow_run cx windowId tabs Hwindow)
    as (chunks & highlighted & Hch & ->).
  destruct (splitPinned_spec tabs) as (Htabs & Hpinned & _).
  split; [done|]. cbn [issued fst]. repeat apply Forall_app_2.
  - apply Forall_fmap, Forall_forall.
    intros t [Hin%list_elem_of_In Hsel]%list_elem_of_In%filter_In. simpl.
    split; [done|]. exists t. split; [|done]. rewrite Htabs. apply elem_of_app. by left.
  - apply Forall_concat, Forall_fmap, Forall_forall.
    intros [g r] (j & Hj)%list_elem_of_lookup. unfold compose, windowChunkOps.
    cbn [fst snd].
    pose proof (proj1 (Forall_lookup _ _) (chunked_uniform _ _ _ Hch) _ _ Hj)
      as [Hne Hkey].
    pose proof (chunked_run_incl _ _ _ _ _ _ Hch Hj) as Hincl.
    assert (r ⊆ tabs) as Hsub.
    { intros x Hx. rewrite Htabs. apply elem_of_app. right. by apply Hincl. }
    simpl in Hne, Hkey.
    assert (Forall (λ op,
              match op with
              | TabsMove tabId props =>
                  props = {| windowId := Some windowId; index := -1 |}
                  ∧ ∃ tab, tab ∈ tabs ∧ isSelected tab = true ∧ Tab.id tab = tabId
              | TabGroupsMove groupId props =>
                  props = {| windowId := Some windowId; index := -1 |}
                  ∧ groupId ≠ TAB_GROUP_ID_NONE
                  ∧ ∃ tab, tab ∈ tabs ∧ isSelected tab = true
                           ∧ Tab.groupId tab = groupId
              | TabsUpdatePinned tabId =>
                  ∃ tab, tab ∈ tabs ∧ isSelected tab = true ∧ Tab.pinned tab = true
                         ∧ tabId = Tab.id (movedTab (Tab.id tab)
                                             {| windowId := Some windowId; index := -1 |})
              | WindowsUpdateFocused focused => focused = windowId
              | TabsHighlight _ highlightWindow => highlightWindow = windowId
              | _ => False
              end)
              ((λ tab, TabsMove (Tab.id tab) {| windowId := Some windowId; index := -1 |})
                 <$> List.filter isSelected r)) as Hmoves.
    { apply Forall_fmap, Forall_forall.
      intros t [Hin%list_elem_of_In Hsel]%list_elem_of_In%filter_In. simpl.
      split; [done|]. exists t. split; [by apply Hsub|done]. }
    destruct (bool_decide (g ≠ TAB_GROUP_ID_NONE)) eqn:Hg; cbn [andb]; [|done].
    apply bool_decide_eq_true in Hg.
    case_bool_decide as Hlen; [|done].
    apply filter_length_all in Hlen.
    constructor; [|constructor]. do 2 (split; [done|]).
    destruct r as [|x r]; [done|]. exists x.
    split; [apply Hsub; by left|]. inversion Hlen; inversion Hkey; subst. done.
  - apply Forall_fmap, Forall_forall.
    intros t [Hin%list_elem_of_In Hsel]%list_elem_of_In%filter_In. simpl.
    exists t. split; [rewrite Htabs; apply elem_of_app; by left|].
    split; [done|]. split; [|done].
    by apply (proj1 (Forall_forall _ _) Hpinned).
  - by repeat constructor.
Qed.

(** X24: towards another window, [moveTabsToWindow] leaves no selected
    tab behind: every selected tab of the strip is moved on its own, or
    the group it belongs to is moved. *)
Theorem moveTabsToWindow_covers (cx : Context) (windowId : Z) (tabs : list Tab.t)
    (t : Tab.t) :
  Tab.windowId (tab cx) ≠ windowId → t ∈ tabs → isSelected t = true →
  TabsMove (Tab.id t) {| windowId := Some windowId; index := -1 |}
    ∈ issued (moveTabsToWindow movedTab updatedTab groupTabs gotTab cx windowId tabs)
  ∨ TabGroupsMove (Tab.groupId t) {| windowId := Some windowId; index := -1 |}
      ∈ issued (moveTabsToWindow movedTab updatedTab groupTabs gotTab cx windowId tabs).
Proof.
  intros Hwindow Hin Hsel.
  destruct (moveTabsToWindow_run cx windowId tabs Hwindow)
    as (chunks & highlighted & Hch & ->).
  destruct (splitPinned_spec tabs) as (Htabs & _ & _).
  cbn [issued fst]. rewrite Htabs in Hin. apply elem_of_app in Hin as [Hpin|Hother].
  - left. apply elem_of_app. left. apply list_elem_of_fmap. exists t. split; [done|].
    apply list_elem_of_In, filter_In. split; [by apply list_elem_of_In|done].
  - rewrite <- (chunked_concat _ _ _ Hch) in Hother.
    apply elem_of_concat in Hother as (j & r & Hj & Hr).
    rewrite list_lookup_fmap in Hj.
    destruct (chunks !! j) as [[g r']|] eqn:Hcj; [|done].
    simpl in Hj. inversion Hj; subst r'.
    pose proof (proj1 (Forall_lookup _ _) (chunked_uniform _ _ _ Hch) _ _ Hcj)
      as [Hne Hkey].
    simpl in Hkey. pose proof (proj1 (Forall_forall _ _) Hkey t Hr) as Hgroup.
    unfold byGroup in Hgroup.
    assert (windowChunkOps windowId (g, r) ⊆ concat (windowChunkOps windowId <$> chunks))
      as Hops.
    { apply (concat_lookup_incl _ j). by rewrite list_lookup_fmap, Hcj. }
    unfold windowChunkOps in Hops at 1. cbn [fst snd] in Hops.
    destruct (bool_decide (g ≠ TAB_GROUP_ID_NONE)
              && bool_decide (length (List.filter isSelected r) = length r)).
    + right. apply elem_of_app. right. apply elem_of_app. left. apply Hops.
      rewrite Hgroup. by left.
    + left. apply elem_of_app. right. apply elem_of_app. left. apply Hops.
      apply list_elem_of_fmap. exists t. split; [done|].
      apply list_elem_of_In, filter_In. split; [by apply list_elem_of_In|done].
Qed.

End WindowRunFacts.

Section WindowRunWitnesses.
Import Js Utils Chrome Commands Navigation MoreCommands Spec MoreSpec.

Lemma moveTabsToWindow_sound_witness :
  outcome (moveTabsToWindow Example.movedTab Example.updatedTab Example.groupTabs
                            Example.gotTab (Example.cx Scenario.FullGroup.A) 2
                            Scenario.FullGroup.tabs) = inr tt
  ∧ Forall (λ op,
              match op with
              | TabsMove tabId props =>
                  props = {| windowId := Some 2; index := -1 |}
                  ∧ ∃ tab, tab ∈ Scenario.FullGroup.tabs ∧ isSelected tab = true
                           ∧ Tab.id tab = tabId
              | TabGroupsMove groupId props =>
                  props = {| windowId := Some 2; index := -1 |}
                  ∧ groupId ≠ TAB_GROUP_ID_NONE
                  ∧ ∃ tab, tab ∈ Scenario.FullGroup.tabs ∧ isSelected tab = true
                           ∧ Tab.groupId tab = groupId
              | TabsUpdatePinned tabId =>
                  ∃ tab, tab ∈ Scenario.FullGroup.tabs ∧ isSelected tab = true
                         ∧ Tab.pinned tab = true
                         ∧ tabId = Tab.id (Example.movedTab
                                             (Tab.id tab)
                                             {| windowId := Some 2; index := -1 |})
              | WindowsUpdateFocused focused => focused = 2
              | TabsHighlight _ highlightWindow => highlightWindow = 2
              | _ => False
              end)
           (issued (moveTabsToWindow Example.movedTab Example.updatedTab Example.groupTabs
                                     Example.gotTab (Example.cx Scenario.FullGroup.A) 2
                                     Scenario.FullGroup.tabs)).
Proof.
  apply (moveTabsToWindow_sound Example.movedTab Example.updatedTab Example.groupTabs
                                Example.gotTab (Example.cx Scenario.FullGroup.A) 2
                                Scenario.FullGroup.tabs).
  done.
Defined.

Lemma moveTabsToWindow_covers_witness :
  TabsMove (Tab.id Scenario.PartialGroup.A) {| windowId := Some 2; index := -1 |}
    ∈ issued (moveTabsToWindow Example.movedTab Example.updatedTab Example.groupTabs
                               Example.gotTab (Example.cx Scenario.PartialGroup.A) 2
                               Scenario.PartialGroup.tabs)
  ∨ TabGroupsMove (Tab.groupId Scenario.PartialGroup.A)
                  {| windowId := Some 2; index := -1 |}
      ∈ issued (moveTabsToWindow Example.movedTab Example.updatedTab Example.groupTabs
                                 Example.gotTab (Example.cx Scenario.PartialGroup.A) 2
                                 Scenario.PartialGroup.tabs).
Proof.
  apply (moveTabsToWindow_covers Example.movedTab Example.updatedTab Example.groupTabs
                                 Example.gotTab (Example.cx Scenario.PartialGroup.A) 2
                                 Scenario.PartialGroup.tabs Scenario.PartialGroup.A).
  - done.
  - apply list_elem_of_lookup. by exists 0%nat.
  - reflexivity.
Defined.

End WindowRunWitnesses.

(** * duplicateTab *)

Section DuplicateFacts.
Import Js Utils Chrome Commands Navigation MoreCommands Spec MoreSpec.
Variable duplicated : Z → Tab.t.

Lemma andThen_unfold {A B} (m : Run A) (k : A → Run B) :
  m ≫= k = match m with
           | (cs, inl e) => (cs, inl e)
           | (cs, inr a) => (cs ++ calls (k a), result (k a))
           end.
Proof.
  unfold mbind, Run_bind, andThen. destruct m as [cs [e|a]]; [done|].
  by destruct (k a).
Qed.

Lemma filter_concat {A} (p : A → bool) (ls : list (list A)) :
  List.filter p (concat ls) = concat (List.filter p <$> ls).
Proof.
  induction ls as [|l ls IH]; [done|]. csimpl. by rewrite List.filter_app, IH.
Qed.

(** The first element of a list that satisfies [p]. *)
Lemma first_split {A} (p : A → bool) (l : list A) (x : A) :
  x ∈ l → p x = true →
  ∃ pre y post, l = pre ++ y :: post ∧ p y = true ∧ Forall (λ z, p z = false) pre.
Proof.
  induction l as [|a l IH]; intros Hin Hx; [by apply elem_of_nil in Hin|].
  destruct (p a) eqn:Ha.
  - exists [], a, l. by repeat split.
  - apply elem_of_cons in Hin as [->|Hin]; [congruence|].
    destruct (IH Hin Hx) as (pre & y & post & -> & Hy & Hpre).
    exists (a :: pre), y, post. split; [done|]. split; [done|]. by constructor.
Qed.

(** One turn of the loop of [duplicateTab]. *)
Lemma duplicateChunk_run (duplicatedTabMap : list (Z * Z)) (groupId : Z)
    (run : list Tab.t) :
  duplicateChunk duplicated duplicatedTabMap (edgeEntry (groupId, run))
  = ((λ tab, TabsDuplicate (Tab.id tab)) <$> List.filter isSelected run,
     if fullySelectedGroup (groupId, run)
     then inl (ReferenceError "groupId")
     else inr (foldl (λ entries tab,
                        mapSet (Tab.id tab) (Tab.index (duplicated (Tab.id tab))) entries)
                     duplicatedTabMap (List.filter isSelected run))).
Proof.
  unfold edgeEntry, duplicateChunk, fullySelectedGroup. rewrite partition_filter.
  rewrite andThen_unfold. cbn [fst snd].
  destruct (bool_decide (groupId ≠ TAB_GROUP_ID_NONE)); cbn [andb].
  - destruct (forallb isSelected run) eqn:Hall.
    + rewrite bool_decide_eq_true_2 by (by apply filter_nil_forallb).
      unfold calls, result. simpl. by rewrite app_nil_r.
    + rewrite bool_decide_eq_false_2.
      * unfold calls, result. simpl. by rewrite app_nil_r.
      * intros Hlen%filter_nil_forallb. congruence.
  - unfold calls, result. simpl. by rewrite app_nil_r.
Qed.

(** The loop over chunks none of which is a fully selected group. *)
Lemma duplicateLoop_ok (chunks : list (Z * list Tab.t)) (duplicatedTabMap : list (Z * Z)) :
  Forall (λ c, fullySelectedGroup c = false) chunks →
  forEachFrom (duplicateChunk duplicated) duplicatedTabMap (edgeEntry <$> chunks)
  = ((λ tab, TabsDuplicate (Tab.id tab)) <$> List.filter isSelected (concat chunks.*2),
     inr (foldl (λ entries tab,
                   mapSet (Tab.id tab) (Tab.index (duplicated (Tab.id tab))) entries)
                duplicatedTabMap (List.filter isSelected (concat chunks.*2)))).
Proof.
  revert duplicatedTabMap.
  induction chunks as [|[g run] chunks IH]; intros duplicatedTabMap Hnone; [done|].
  inversion Hnone as [|? ? Hc Hrest]; subst.
  rewrite !fmap_cons. cbn [forEachFrom concat snd].
  rewrite duplicateChunk_run, Hc, andThen_unfold, (IH _ Hrest).
  unfold calls, result. cbn [fst snd].
  by rewrite List.filter_app, fmap_app, foldl_app.
Qed.

(** The loop stops at the first chunk that is a fully selected group. *)
Lemma duplicateLoop_raises (pre post : list (Z * list Tab.t)) (c : Z * list Tab.t)
    (duplicatedTabMap : list (Z * Z)) :
  Forall (λ c, fullySelectedGroup c = false) pre → fullySelectedGroup c = true →
  forEachFrom (duplicateChunk duplicated) duplicatedTabMap
              (edgeEntry <$> (pre ++ c :: post))
  = ((λ tab, TabsDuplicate (Tab.id tab))
       <$> List.filter isSelected (concat (pre ++ [c]).*2),
     inl (ReferenceError "groupId")).
Proof.
  revert duplicatedTabMap.
  induction pre as [|[g run] pre IH]; intros duplicatedTabMap Hnone Hfull.
  - destruct c as [g run]. rewrite app_nil_l, !fmap_cons.
    cbn [forEachFrom concat snd fmap list_fmap].
    rewrite duplicateChunk_run, Hfull, andThen_unfold. simpl. by rewrite app_nil_r.
  - inversion Hnone as [|? ? Hc Hrest]; subst.
    rewrite <- !app_comm_cons, !fmap_cons. cbn [forEachFrom concat snd].
    rewrite duplicateChunk_run, Hc, andThen_unfold, (IH _ Hrest Hfull).
    unfold calls, result. cbn [fst snd]. by rewrite List.filter_app, !fmap_app.
Qed.

(** X25: when some group of the strip is fully selected,
    [duplicateTab] raises a ReferenceError: it duplicates the selected
    tabs up to and including the first fully selected group, reads
    [groupId] before its declaration in the block that should
    duplicate the group, and issues no other call, so that no group is
    created and nothing is highlighted. *)
Theorem duplicateTab_full_group_raises (tabs : list Tab.t) (cx : Context)
    (chunks : list (Z * list Tab.t)) (groupId : Z) (run : list Tab.t) :
  chunk tabs byGroup = inr chunks →
  (groupId, run) ∈ chunks → groupId ≠ TAB_GROUP_ID_NONE →
  forallb isSelected run = true →
  ∃ pre first post,
    chunks = pre ++ first :: post
    ∧ fullySelectedGroup first = true
    ∧ Forall (λ c, fullySelectedGroup c = false) pre
    ∧ duplicateTab duplicated tabs cx
      = ((λ tab, TabsDuplicate (Tab.id tab))
           <$> List.filter isSelected (concat (pre ++ [first]).*2),
         inl (ReferenceError "groupId")).
Proof.
  intros Hchunk Hin Hgroup Hall.
  destruct (first_split fullySelectedGroup chunks (groupId, run) Hin)
    as (pre & first & post & -> & Hfirst & Hpre).
  { unfold fullySelectedGroup. cbn [fst snd]. by rewrite bool_decide_eq_true_2, Hall. }
  exists pre, first, post. do 3 (split; [done|]).
  unfold duplicateTab. rewrite Hchunk.
  by rewrite (duplicateLoop_raises pre post first [] Hpre Hfirst), andThen_unfold.
Qed.

Lemma mapSet_fresh {V} (key : Z) (value : V) (entries : list (Z * V)) :
  key ∉ entries.*1 → mapSet key value entries = entries ++ [(key, value)].
Proof.
  induction entries as [|[k v] entries IH]; intros Hfresh; [done|]. simpl.
  rewrite fmap_cons, not_elem_of_cons in Hfresh. destruct Hfresh as [Hne Hfresh].
  rewrite bool_decide_eq_false_2 by done. by rewrite IH.
Qed.

Lemma mapSet_all {A V} (key : A → Z) (value : A → V) (l : list A) (entries : list (Z * V)) :
  NoDup (entries.*1 ++ (key <$> l)) →
  foldl (λ entries x, mapSet (key x) (value x) entries) entries l
  = entries ++ ((λ x, (key x, value x)) <$> l).
Proof.
  revert entries. induction l as [|x l IH]; intros entries Hnd; simpl.
  - by rewrite app_nil_r.
  - rewrite fmap_cons in Hnd. pose proof Hnd as Hnd'.
    apply NoDup_app in Hnd as (_ & Hdisj & _).
    rewrite mapSet_fresh by (intros Hin; apply (Hdisj _ Hin); by left).
    rewrite IH.
    + by rewrite <- app_assoc.
    + rewrite fmap_app. simpl. by rewrite <- app_assoc.
Qed.

(** X26: when no group of the strip is fully selected and tab ids are
    distinct, [duplicateTab] returns normally: it duplicates every
    selected tab once, in strip order, and then highlights the
    duplicate of the current tab, if that tab is selected, followed by
    all the duplicates. *)
Theorem duplicateTab_plain (tabs : list Tab.t) (cx : Context)
    (chunks : list (Z * list Tab.t)) :
  chunk tabs byGroup = inr chunks →
  Forall (λ c, fullySelectedGroup c = false) chunks →
  NoDup (Tab.id <$> tabs) →
  duplicateTab duplicated tabs cx
  = (((λ t, TabsDuplicate (Tab.id t)) <$> List.filter isSelected tabs)
     ++ [TabsHighlightIndices
           (mapGet (Tab.id (tab cx))
                   ((λ t, (Tab.id t, Tab.index (duplicated (Tab.id t))))
                      <$> List.filter isSelected tabs)
            :: ((λ t, Some (Tab.index (duplicated (Tab.id t))))
                  <$> List.filter isSelected tabs))
           (Tab.windowId (tab cx))],
     inr tt).
Proof.
  intros Hchunk Hnone Hnd.
  assert (concat chunks.*2 = tabs) as Hcat.
  { destruct (chunk_byGroup tabs) as (chunks' & Hrun & Hch).
    rewrite Hchunk in Hrun. inversion Hrun; subst chunks'. by destruct Hch. }
  unfold duplicateTab. rewrite Hchunk, (duplicateLoop_ok chunks [] Hnone), Hcat.
  rewrite mapSet_all.
  2:{ simpl. apply (sublist_NoDup _ _ Hnd). apply fmap_sublist, filter_sublist. }
  rewrite andThen_unfold. unfold calls, result. cbn [fst snd app].
  do 4 f_equal. rewrite <- !list_fmap_compose. done.
Qed.

End DuplicateFacts.

Section DuplicateWitnesses.
Import Js Utils Chrome Commands Navigation MoreCommands Spec MoreSpec.

Lemma duplicateTab_full_group_raises_witness :
  ∃ pre first post,
    [(TAB_GROUP_ID_NONE, [Scenario.FullGroup.P1]);
     (Scenario.G1, [Scenario.FullGroup.A; Scenario.FullGroup.B]);
     (TAB_GROUP_ID_NONE, [Scenario.FullGroup.C])]
    = pre ++ first :: post
    ∧ fullySelectedGroup first = true
    ∧ Forall (λ c, fullySelectedGroup c = false) pre
    ∧ duplicateTab Example.duplicated Scenario.FullGroup.tabs
                   (Example.cx Scenario.FullGroup.A)
      = ((λ tab, TabsDuplicate (Tab.id tab))
           <$> List.filter isSelected (concat (pre ++ [first]).*2),
         inl (ReferenceError "groupId")).
Proof.
  apply (duplicateTab_full_group_raises
           Example.duplicated Scenario.FullGroup.tabs (Example.cx Scenario.FullGroup.A)
           _ Scenario.G1 [Scenario.FullGroup.A; Scenario.FullGroup.B]).
  - reflexivity.
  - apply list_elem_of_lookup. by exists 1%nat.
  - done.
  - reflexivity.
Defined.

Lemma duplicateTab_plain_witness :
  duplicateTab Example.duplicated Scenario.PartialGroup.tabs
               (Example.cx Scenario.PartialGroup.A)
  = (((λ t, TabsDuplicate (Tab.id t)) <$> List.filter isSelected Scenario.PartialGroup.tabs)
     ++ [TabsHighlightIndices
           (mapGet (Tab.id (tab (Example.cx Scenario.PartialGroup.A)))
                   ((λ t, (Tab.id t, Tab.index (Example.duplicated (Tab.id t))))
                      <$> List.filter isSelected Scenario.PartialGroup.tabs)
            :: ((λ t, Some (Tab.index (Example.duplicated (Tab.id t))))
                  <$> List.filter isSelected Scenario.PartialGroup.tabs))
           (Tab.windowId (tab (Example.cx Scenario.PartialGroup.A)))],
     inr tt).
Proof.
  apply (duplicateTab_plain
           Example.duplicated Scenario.PartialGroup.tabs (Example.cx Scenario.PartialGroup.A)
           [(Scenario.G1, [Scenario.PartialGroup.A; Scenario.PartialGroup.B]);
            (TAB_GROUP_ID_NONE, [Scenario.PartialGroup.C])]).
  - reflexivity.
  - by repeat constructor.
  - apply (bool_decide_unpack _). vm_compute. exact I.
Defined.

End DuplicateWitnesses.

(** * selectTabDirection on a strip with one selected run *)

Section SelectDirectionFacts.
Import Js Utils Chrome Commands Navigation MoreCommands Spec MoreSpec.

Lemma slice_nat {A} (array : list A) (s e : nat) :
  (s ≤ e ≤ length array)%nat →
  slice array (Z.of_nat s) (Some (Z.of_nat e)) = take (e - s) (drop s array).
Proof.
  intros Hse. unfold slice, sliceBound.
  destruct (Z.ltb_spec (Z.of_nat s) 0) as [Hneg|_]; [lia|].
  destruct (Z.ltb_spec (Z.of_nat e) 0) as [Hneg|_]; [lia|].
  rewrite !Z.min_l by lia. rewrite Nat2Z.id. f_equal. lia.
Qed.

(** The fuel of the loop is enough: any amount that covers the
    entries from [index] on yields the same run. *)
Lemma forStep2Push_fuel {A B} (fuel fuel' index : nat) (tabPartition : list A)
    (body : A → M (list B)) (pushed : list B) :
  (length tabPartition ≤ index + fuel)%nat → (length tabPartition ≤ index + fuel')%nat →
  forStep2Push fuel index tabPartition body pushed
  = forStep2Push fuel' index tabPartition body pushed.
Proof.
  revert fuel' index pushed.
  induction fuel as [|fuel IH]; intros fuel' index pushed Hfuel Hfuel'.
  - destruct fuel' as [|fuel']; [done|]. simpl.
    by rewrite lookup_ge_None_2 by lia.
  - destruct fuel' as [|fuel']; simpl.
    + by rewrite lookup_ge_None_2 by lia.
    + destruct (tabPartition !! index) as [entry|] eqn:Hentry; [|done].
      apply lookup_lt_Some in Hentry.
      rewrite !bind_unfold. destruct (body entry) as [ops [e|items]]; [done|].
      by rewrite (IH fuel' (index + 2)%nat) by lia.
Qed.

(** The chunks by selection of a strip with one selected run. *)
Lemma chunk_oneRun (pre run post : list Tab.t) :
  oneRun pre run post →
  chunk (pre ++ run ++ post) (λ tab, Tab.highlighted tab)
  = inr (block false pre ++ [(true, run)] ++ block false post).
Proof.
  intros (_ & Hne & Hrun & Hpre & Hpost).
  destruct (chunk_chunked (λ tab, Tab.highlighted tab) (pre ++ run ++ post) ltac:(done))
    as (chunks & -> & Hch).
  f_equal. apply (chunked_unique (λ tab, Tab.highlighted tab) (pre ++ run ++ post)); [done|].
  assert (∀ keys : list bool,
            keys = [true] ∨ keys = [false; true] ∨ keys = [true; false]
            ∨ keys = [false; true; false] →
            adjacent_differ keys) as Hkeys.
  { intros keys Hcases i a b Ha Hb.
    destruct Hcases as [-> | [-> | [-> | ->]]]; destruct i as [|[|[|i]]];
      simpl in *; congruence. }
  destruct pre as [|p pre], post as [|q post]; simpl; split; simpl;
    rewrite ?app_nil_r; try done.
  all: try (apply Hkeys; tauto).
  all: repeat (constructor; [by split|]); constructor.
Qed.

(** The loop visits the selected run and nothing else. *)
Lemma forStep2Push_oneRun {B} (pre run post : list Tab.t)
    (body : bool * list Tab.t → M (list B)) (pushed items : list B) :
  body (true, run) = ret items →
  forStep2Push (length (block false pre ++ [(true, run)] ++ block false post))
               (firstSelectedIndex (block false pre ++ [(true, run)] ++ block false post))
               (block false pre ++ [(true, run)] ++ block false post) body pushed
  = ret (pushed ++ items).
Proof.
  intros Hbody.
  destruct pre as [|p pre], post as [|q post]; simpl;
    by rewrite Hbody, (bind_silent _ _ items).
Qed.

Section OneRun.
Variables pre run post : list Tab.t.
Hypothesis Hstrip : oneRun pre run post.

Lemma oneRun_first : ∃ t, at_ run 0 = Some t ∧ Tab.index t = Z.of_nat (length pre).
Proof.
  destruct Hstrip as (Hidx & Hne & _). destruct run as [|t run']; [done|].
  exists t. split; [done|]. apply Hidx.
  rewrite lookup_app_r by lia. by rewrite Nat.sub_diag.
Qed.

Lemma oneRun_last :
  ∃ t, at_ run (-1) = Some t
       ∧ Tab.index t = Z.of_nat (length pre) + Z.of_nat (length run) - 1.
Proof.
  destruct Hstrip as (Hidx & Hne & _).
  destruct run as [|t run' _] using rev_ind; [done|].
  exists t. split; [by rewrite at_last|].
  rewrite (Hidx (length pre + length run')%nat t).
  - rewrite length_app. simpl. lia.
  - rewrite lookup_app_r by lia. rewrite <- app_assoc.
    rewrite lookup_app_r by lia.
    by replace (length pre + length run' - length pre - length run')%nat with 0%nat by lia.
Qed.

Lemma oneRun_neighbour (i : nat) (t : Tab.t) :
  (pre ++ run ++ post) !! i = Some t →
  isSelected t = bool_decide (length pre ≤ i < length pre + length run)%nat.
Proof.
  destruct Hstrip as (_ & _ & Hrun & Hpre & Hpost). intros Hi.
  destruct (decide (i < length pre)%nat) as [Hlt|Hge].
  - rewrite lookup_app_l in Hi by done.
    rewrite (proj1 (Forall_lookup _ _) Hpre _ _ Hi).
    symmetry. apply bool_decide_eq_false. lia.
  - rewrite lookup_app_r in Hi by lia.
    destruct (decide (i - length pre < length run)%nat) as [Hlt|Hge'].
    + rewrite lookup_app_l in Hi by done.
      rewrite (proj1 (Forall_lookup _ _) Hrun _ _ Hi).
      symmetry. apply bool_decide_eq_true. lia.
    + rewrite lookup_app_r in Hi by lia.
      rewrite (proj1 (Forall_lookup _ _) Hpost _ _ Hi).
      symmetry. apply bool_decide_eq_false. lia.
Qed.

(** The range of the selected run when the selection is extended. *)
Lemma selectionRange_extended (direction : Direction) :
  selectionRange direction (pre ++ run ++ post)
                 (match direction with Backward => -1 | Forward => 0 end)
                 (match direction with Backward => 0 | Forward => -1 end)
                 (true, run)
  = ret (Tab.index <$> extended direction pre run post).
Proof.
  destruct oneRun_first as (first & Hfirst & Ha).
  destruct oneRun_last as (final & Hfinal & Hb).
  destruct Hstrip as (_ & Hne & _).
  assert (0 < length run)%nat as Hlen by (destruct run; simpl; [done|lia]).
  unfold selectionRange, clamp. rewrite !length_app.
  destruct direction.
  - rewrite Hfinal, (bind_silent _ _ final) by done.
    rewrite Hfirst, (bind_silent _ _ first) by done.
    rewrite Ha, Hb.
    assert ((if Z.of_nat (length pre) + Z.of_nat (length run) - 1
                <? Z.max 0 (Z.min (Z.of_nat (length pre) + -1)
                                  (Z.of_nat (length pre + (length run + length post)) - 1))
             then (Z.of_nat (length pre) + Z.of_nat (length run) - 1,
                   Z.max 0 (Z.min (Z.of_nat (length pre) + -1)
                                  (Z.of_nat (length pre + (length run + length post)) - 1)))
             else (Z.max 0 (Z.min (Z.of_nat (length pre) + -1)
                                  (Z.of_nat (length pre + (length run + length post)) - 1)),
                   Z.of_nat (length pre) + Z.of_nat (length run) - 1))
            = (Z.of_nat (length pre - 1), Z.of_nat (length pre + length run) - 1)) as ->.
    { destruct (Z.ltb_spec (Z.of_nat (length pre) + Z.of_nat (length run) - 1)
                  (Z.max 0 (Z.min (Z.of_nat (length pre) + -1)
                                  (Z.of_nat (length pre + (length run + length post)) - 1))));
        [lia|]. f_equal; lia. }
    replace (Z.of_nat (length pre + length run) - 1 + 1)
      with (Z.of_nat (length pre + length run)) by lia.
    rewrite slice_nat by (rewrite !length_app; lia).
    unfold ret, extended. do 3 f_equal.
    rewrite drop_app_le by lia.
    rewrite take_app_ge by (rewrite length_drop; lia).
    f_equal. rewrite length_drop.
    replace (length pre + length run - (length pre - 1) - (length pre - (length pre - 1)))%nat
      with (length run) by lia.
    by rewrite take_app_length.
  - rewrite Hfirst, (bind_silent _ _ first) by done.
    rewrite Hfinal, (bind_silent _ _ final) by done.
    rewrite Ha, Hb.
    assert ((if Z.of_nat (length pre)
                <? Z.max 0 (Z.min (Z.of_nat (length pre) + Z.of_nat (length run) - 1 + 1)
                                  (Z.of_nat (length pre + (length run + length post)) - 1))
             then (Z.of_nat (length pre),
                   Z.max 0 (Z.min (Z.of_nat (length pre) + Z.of_nat (length run) - 1 + 1)
                                  (Z.of_nat (length pre + (length run + length post)) - 1)))
             else (Z.max 0 (Z.min (Z.of_nat (length pre) + Z.of_nat (length run) - 1 + 1)
                                  (Z.of_nat (length pre + (length run + length post)) - 1)),
                   Z.of_nat (length pre)))
            = (Z.of_nat (length pre),
               Z.of_nat (length pre + length run + Nat.min 1 (length post)) - 1)) as ->.
    { destruct (Z.ltb_spec (Z.of_nat (length pre))
                  (Z.max 0 (Z.min (Z.of_nat (length pre) + Z.of_nat (length run) - 1 + 1)
                                  (Z.of_nat (length pre + (length run + length post)) - 1))));
        f_equal; lia. }
    replace (Z.of_nat (length pre + length run + Nat.min 1 (length post)) - 1 + 1)
      with (Z.of_nat (length pre + length run + Nat.min 1 (length post))) by lia.
    rewrite slice_nat by (rewrite !length_app; lia).
    unfold ret, extended. do 3 f_equal.
    rewrite drop_app_length.
    replace (length pre + length run + Nat.min 1 (length post) - length pre)%nat
      with (length run + Nat.min 1 (length post))%nat by lia.
    rewrite take_app_ge by lia. f_equal.
    replace (length run + Nat.min 1 (length post) - length run)%nat
      with (Nat.min 1 (length post)) by lia.
    destruct post as [|q post']; [done|]. simpl. by rewrite take_0.
Qed.

(** The range of the selected run when the selection shrinks. *)
Lemma selectionRange_shrunk (direction : Direction) :
  (2 ≤ length run)%nat →
  selectionRange direction (pre ++ run ++ post)
                 (match direction with Backward => 0 | Forward => -1 end)
                 (match direction with Backward => -1 | Forward => 0 end)
                 (true, run)
  = ret (Tab.index <$> shrunk direction run).
Proof.
  intros Hlen.
  destruct oneRun_first as (first & Hfirst & Ha).
  destruct oneRun_last as (final & Hfinal & Hb).
  unfold selectionRange, clamp. rewrite !length_app.
  destruct direction.
  - rewrite Hfirst, (bind_silent _ _ first) by done.
    rewrite Hfinal, (bind_silent _ _ final) by done.
    rewrite Ha, Hb.
    assert ((if Z.of_nat (length pre)
                <? Z.max 0 (Z.min (Z.of_nat (length pre) + Z.of_nat (length run) - 1 + -1)
                                  (Z.of_nat (length pre + (length run + length post)) - 1))
             then (Z.of_nat (length pre),
                   Z.max 0 (Z.min (Z.of_nat (length pre) + Z.of_nat (length run) - 1 + -1)
                                  (Z.of_nat (length pre + (length run + length post)) - 1)))
             else (Z.max 0 (Z.min (Z.of_nat (length pre) + Z.of_nat (length run) - 1 + -1)
                                  (Z.of_nat (length pre + (length run + length post)) - 1)),
                   Z.of_nat (length pre)))
            = (Z.of_nat (length pre), Z.of_nat (length pre + (length run - 1)) - 1)) as ->.
    { destruct (Z.ltb_spec (Z.of_nat (length pre))
                  (Z.max 0 (Z.min (Z.of_nat (length pre) + Z.of_nat (length run) - 1 + -1)
                                  (Z.of_nat (length pre + (length run + length post)) - 1))));
        f_equal; lia. }
    replace (Z.of_nat (length pre + (length run - 1)) - 1 + 1)
      with (Z.of_nat (length pre + (length run - 1))) by lia.
    rewrite slice_nat by (rewrite !length_app; lia).
    unfold ret, shrunk. do 3 f_equal.
    rewrite drop_app_length.
    replace (length pre + (length run - 1) - length pre)%nat with (length run - 1)%nat by lia.
    by rewrite take_app_le by lia.
  - rewrite Hfinal, (bind_silent _ _ final) by done.
    rewrite Hfirst, (bind_silent _ _ first) by done.
    rewrite Ha, Hb.
    assert ((if Z.of_nat (length pre) + Z.of_nat (length run) - 1
                <? Z.max 0 (Z.min (Z.of_nat (length pre) + 1)
                                  (Z.of_nat (length pre + (length run + length post)) - 1))
             then (Z.of_nat (length pre) + Z.of_nat (length run) - 1,
                   Z.max 0 (Z.min (Z.of_nat (length pre) + 1)
                                  (Z.of_nat (length pre + (length run + length post)) - 1)))
             else (Z.max 0 (Z.min (Z.of_nat (length pre) + 1)
                                  (Z.of_nat (length pre + (length run + length post)) - 1)),
                   Z.of_nat (length pre) + Z.of_nat (length run) - 1))
            = (Z.of_nat (length pre + 1), Z.of_nat (length pre + length run) - 1)) as ->.
    { destruct (Z.ltb_spec (Z.of_nat (length pre) + Z.of_nat (length run) - 1)
                  (Z.max 0 (Z.min (Z.of_nat (length pre) + 1)
                                  (Z.of_nat (length pre + (length run + length post)) - 1))));
        [lia|]. f_equal; lia. }
    replace (Z.of_nat (length pre + length run) - 1 + 1)
      with (Z.of_nat (length pre + length run)) by lia.
    rewrite slice_nat by (rewrite !length_app; lia).
    unfold ret, shrunk. do 3 f_equal.
    rewrite <- drop_drop, drop_app_length.
    replace (length pre + length run - (length pre + 1))%nat with (length run - 1)%nat by lia.
    rewrite drop_app_le by lia. rewrite take_app_ge by (rewrite length_drop; lia).
    rewrite length_drop, Nat.sub_diag, take_0. by rewrite app_nil_r.
Qed.

(** Reading the selection state of a neighbour of the current tab. *)
Lemma neighbour_facing (what : string) (position : Z) :
  0 ≤ position < Z.of_nat (length (pre ++ run ++ post)) →
  Tab.highlighted <$> defined what (Js.index (pre ++ run ++ post) position)
  = ret (bool_decide (Z.of_nat (length pre) ≤ position
                      < Z.of_nat (length pre + length run))).
Proof.
  intros Hpos. unfold Js.index.
  destruct (Z.ltb_spec position 0) as [Hneg|_]; [lia|].
  destruct (lookup_lt_is_Some_2 (pre ++ run ++ post) (Z.to_nat position)) as [t Ht]; [lia|].
  rewrite Ht. pose proof (oneRun_neighbour _ _ Ht) as Hsel. unfold isSelected in Hsel.
  unfold fmap, M_fmap. simpl. unfold ret. do 2 f_equal. rewrite Hsel.
  apply bool_decide_ext. lia.
Qed.

(** The ends of the selection when the current tab is at the near end
    of the run, and when it lies past it. *)
Lemma selectionEnds_near (direction : Direction) (currentTab : Tab.t) :
  Tab.index currentTab = nearEnd direction pre run →
  selectionEnds direction currentTab (pre ++ run ++ post)
  = ret (match direction with Backward => (-1, 0) | Forward => (0, -1) end).
Proof.
  intros Hnear. destruct Hstrip as (_ & Hne & _).
  assert (0 < length run)%nat as Hlen by (destruct run; simpl; [done|lia]).
  unfold selectionEnds, nearEnd in *. rewrite Hnear. destruct direction.
  - destruct (Z.ltb_spec (Z.of_nat (length pre + length run) - 1)
                (Z.of_nat (length (pre ++ run ++ post)) - 1)) as [Hlt|Hge].
    + rewrite neighbour_facing by lia. rewrite bool_decide_eq_false_2 by lia.
      by rewrite (bind_silent _ _ false).
    + by rewrite (bind_silent _ _ false).
  - destruct (Z.ltb_spec 0 (Z.of_nat (length pre))) as [Hlt|Hge].
    + rewrite neighbour_facing by (rewrite !length_app; lia).
      rewrite bool_decide_eq_false_2 by lia.
      by rewrite (bind_silent _ _ false).
    + by rewrite (bind_silent _ _ false).
Qed.

Lemma selectionEnds_past (direction : Direction) (currentTab : Tab.t) :
  pastNearEnd direction pre run (Tab.index currentTab) →
  selectionEnds direction currentTab (pre ++ run ++ post)
  = ret (match direction with Backward => (0, -1) | Forward => (-1, 0) end).
Proof.
  intros Hpast. unfold selectionEnds, pastNearEnd in *. destruct direction.
  - destruct (Z.ltb_spec (Tab.index currentTab)
                (Z.of_nat (length (pre ++ run ++ post)) - 1)) as [Hlt|Hge].
    + rewrite neighbour_facing by lia. rewrite bool_decide_eq_true_2 by lia.
      by rewrite (bind_silent _ _ true).
    + rewrite !length_app in Hge. lia.
  - destruct (Z.ltb_spec 0 (Tab.index currentTab)) as [Hlt|Hge]; [|lia].
    rewrite neighbour_facing by (rewrite !length_app; lia).
    rewrite bool_decide_eq_true_2 by lia.
    by rewrite (bind_silent _ _ true).
Qed.

(** The run of [selectTabDirection] once the ends of the selection and
    the range of the selected run are known. *)
Lemma selectTabDirection_oneRun (direction : Direction) (cx : Context)
    (anchorIndex focusIndex : Z) (range : list Z) :
  selectionEnds direction (tab cx) (pre ++ run ++ post) = ret (anchorIndex, focusIndex) →
  selectionRange direction (pre ++ run ++ post) anchorIndex focusIndex (true, run)
  = ret range →
  selectTabDirection direction (pre ++ run ++ post) cx
  = ([TabsHighlight (Tab.index (tab cx) :: range) (Tab.windowId (tab cx))], inr tt).
Proof.
  intros Hends Hrange. unfold selectTabDirection. cbv zeta.
  rewrite Hends, (bind_silent _ _ (anchorIndex, focusIndex)) by done.
  rewrite (chunk_oneRun pre run post Hstrip).
  rewrite (bind_silent (lift (inr _)) _ _ eq_refl).
  assert (∃ first, (block false pre ++ [(true, run)] ++ block false post) !! 0%nat
                   = Some first) as [first ->].
  { destruct pre; simpl; by eexists. }
  rewrite (bind_silent _ _ first) by done.
  rewrite (forStep2Push_oneRun pre run post _ _ range Hrange).
  by rewrite (bind_silent _ _ ([Tab.index (tab cx)] ++ range)).
Qed.

End OneRun.

(** X27: on a strip whose selection is one run of tabs, with the
    current tab at the end of the run opposite to the direction,
    [selectTabDirection] extends the selection by one tab: it
    highlights the current tab, the run, and the tab that follows the
    run in the direction, if there is one; at the end of the strip the
    selection stays as it is. *)
Theorem selectTabDirection_extends (direction : Direction) (pre run post : list Tab.t)
    (cx : Context) :
  oneRun pre run post →
  Tab.index (tab cx) = nearEnd direction pre run →
  selectTabDirection direction (pre ++ run ++ post) cx
  = ([TabsHighlight (Tab.index (tab cx) :: (Tab.index <$> extended direction pre run post))
                    (Tab.windowId (tab cx))], inr tt).
Proof.
  intros Hstrip Hnear.
  apply (selectTabDirection_oneRun pre run post Hstrip direction cx
           (match direction with Backward => -1 | Forward => 0 end)
           (match direction with Backward => 0 | Forward => -1 end)).
  - rewrite (selectionEnds_near pre run post Hstrip direction (tab cx) Hnear).
    by destruct direction.
  - by apply selectionRange_extended.
Qed.

(** X28: on such a strip, with the current tab in the run but not at
    the end opposite to the direction, [selectTabDirection] shrinks
    the selection by one tab: it highlights the current tab and the
    run without the tab at that end. *)
Theorem selectTabDirection_shrinks (direction : Direction) (pre run post : list Tab.t)
    (cx : Context) :
  oneRun pre run post →
  pastNearEnd direction pre run (Tab.index (tab cx)) →
  selectTabDirection direction (pre ++ run ++ post) cx
  = ([TabsHighlight (Tab.index (tab cx) :: (Tab.index <$> shrunk direction run))
                    (Tab.windowId (tab cx))], inr tt).
Proof.
  intros Hstrip Hpast.
  apply (selectTabDirection_oneRun pre run post Hstrip direction cx
           (match direction with Backward => 0 | Forward => -1 end)
           (match direction with Backward => -1 | Forward => 0 end)).
  - rewrite (selectionEnds_past pre run post Hstrip direction (tab cx) Hpast).
    by destruct direction.
  - apply selectionRange_shrunk; [done|].
    unfold pastNearEnd in Hpast. destruct direction; lia.
Qed.

Lemma oneRun_example :
  oneRun [Scenario.FullGroup.P1] [Scenario.FullGroup.A; Scenario.FullGroup.B]
         [Scenario.FullGroup.C].
Proof.
  split; [|by repeat constructor].
  intros i t Hi. destruct i as [|[|[|[|i]]]]; simpl in Hi; by inversion Hi.
Defined.

Lemma selectTabDirection_extends_witness :
  selectTabDirection Forward
    ([Scenario.FullGroup.P1] ++ [Scenario.FullGroup.A; Scenario.FullGroup.B]
     ++ [Scenario.FullGroup.C])
    (Example.cx Scenario.FullGroup.A)
  = ([TabsHighlight
        (Tab.index (tab (Example.cx Scenario.FullGroup.A))
         :: (Tab.index <$> extended Forward [Scenario.FullGroup.P1]
                             [Scenario.FullGroup.A; Scenario.FullGroup.B]
                             [Scenario.FullGroup.C]))
        (Tab.windowId (tab (Example.cx Scenario.FullGroup.A)))], inr tt).
Proof.
  apply (selectTabDirection_extends Forward [Scenario.FullGroup.P1]
           [Scenario.FullGroup.A; Scenario.FullGroup.B] [Scenario.FullGroup.C]
           (Example.cx Scenario.FullGroup.A)).
  - exact oneRun_example.
  - reflexivity.
Defined.

Lemma selectTabDirection_shrinks_witness :
  selectTabDirection Forward
    ([Scenario.FullGroup.P1] ++ [Scenario.FullGroup.A; Scenario.FullGroup.B]
     ++ [Scenario.FullGroup.C])
    (Example.cx Scenario.FullGroup.B)
  = ([TabsHighlight
        (Tab.index (tab (Example.cx Scenario.FullGroup.B))
         :: (Tab.index <$> shrunk Forward [Scenario.FullGroup.A; Scenario.FullGroup.B]))
        (Tab.windowId (tab (Example.cx Scenario.FullGroup.B)))], inr tt).
Proof.
  apply (selectTabDirection_shrinks Forward [Scenario.FullGroup.P1]
           [Scenario.FullGroup.A; Scenario.FullGroup.B] [Scenario.FullGroup.C]
           (Example.cx Scenario.FullGroup.B)).
  - exact oneRun_example.
  - simpl. lia.
Defined.

End SelectDirectionFacts.

(** * flipTabSelection on a strip with one selected run *)

Section FlipFacts.
Import Js Utils Chrome Commands Navigation MoreCommands Spec MoreSpec.

(** The fuel of the two scans is enough: from a position of the strip,
    any amount above the number of tabs yields the same run. *)
Lemma scanForward_fuel (fuel fuel' : nat) (allTabs : list Tab.t) (focusIndex : Z) :
  -1 ≤ focusIndex →
  Z.of_nat (length allTabs) - focusIndex ≤ Z.of_nat fuel →
  Z.of_nat (length allTabs) - focusIndex ≤ Z.of_nat fuel' →
  scanForward fuel allTabs focusIndex = scanForward fuel' allTabs focusIndex.
Proof.
  revert fuel' focusIndex.
  induction fuel as [|fuel IH]; intros fuel' focusIndex Hpos Hfuel Hfuel'.
  - destruct fuel' as [|fuel']; [done|]. simpl.
    destruct (Z.ltb_spec focusIndex (Z.of_nat (length allTabs) - 1)); [lia|].
    by rewrite (bind_silent _ _ false).
  - destruct fuel' as [|fuel']; simpl.
    + destruct (Z.ltb_spec focusIndex (Z.of_nat (length allTabs) - 1)); [lia|].
      by rewrite (bind_silent _ _ false).
    + rewrite !bind_unfold.
      destruct (if focusIndex <? Z.of_nat (length allTabs) - 1 then _ else _)
        as [ops [e|[]]]; [done| |done].
      by rewrite (IH fuel' (focusIndex + 1)) by lia.
Qed.

Lemma scanBackward_fuel (fuel fuel' : nat) (allTabs : list Tab.t) (focusIndex : Z) :
  focusIndex < Z.of_nat fuel → focusIndex < Z.of_nat fuel' →
  scanBackward fuel allTabs focusIndex = scanBackward fuel' allTabs focusIndex.
Proof.
  revert fuel' focusIndex.
  induction fuel as [|fuel IH]; intros fuel' focusIndex Hfuel Hfuel'.
  - destruct fuel' as [|fuel']; [done|]. simpl.
    destruct (Z.ltb_spec 0 focusIndex); [lia|].
    by rewrite (bind_silent _ _ false).
  - destruct fuel' as [|fuel']; simpl.
    + destruct (Z.ltb_spec 0 focusIndex); [lia|].
      by rewrite (bind_silent _ _ false).
    + rewrite !bind_unfold.
      destruct (if 0 <? focusIndex then _ else _) as [ops [e|[]]]; [done| |done].
      by rewrite (IH fuel' (focusIndex - 1)) by lia.
Qed.

Section OneRun.
Variables pre run post : list Tab.t.
Hypothesis Hstrip : oneRun pre run post.

(** From a tab of the run, the forward scan stops at the last tab of
    the run and the backward scan at its first tab. *)
Lemma scanForward_run (steps fuel : nat) (position : Z) :
  Z.of_nat (length pre) ≤ position →
  position + Z.of_nat steps = nearEnd Backward pre run →
  (steps < fuel)%nat →
  scanForward fuel (pre ++ run ++ post) position = ret (nearEnd Backward pre run).
Proof.
  unfold nearEnd. revert fuel position.
  induction steps as [|steps IH]; intros fuel position Hpos Hsteps Hfuel;
    (destruct fuel as [|fuel]; [lia|]); simpl.
  - destruct (Z.ltb_spec position (Z.of_nat (length (pre ++ run ++ post)) - 1)).
    + rewrite (neighbour_facing pre run post Hstrip) by lia.
      rewrite bool_decide_eq_false_2 by lia.
      rewrite (bind_silent _ _ false) by done. unfold ret. do 2 f_equal. lia.
    + rewrite (bind_silent _ _ false) by done. unfold ret. do 2 f_equal. lia.
  - destruct (Z.ltb_spec position (Z.of_nat (length (pre ++ run ++ post)) - 1)) as [_|Hge].
    + rewrite (neighbour_facing pre run post Hstrip) by (rewrite !length_app; lia).
      rewrite bool_decide_eq_true_2 by lia.
      rewrite (bind_silent _ _ true) by done. apply IH; lia.
    + rewrite !length_app in Hge. lia.
Qed.

Lemma scanBackward_run (steps fuel : nat) (position : Z) :
  position ≤ nearEnd Backward pre run →
  position - Z.of_nat steps = nearEnd Forward pre run →
  (steps < fuel)%nat →
  scanBackward fuel (pre ++ run ++ post) position = ret (nearEnd Forward pre run).
Proof.
  unfold nearEnd. revert fuel position.
  induction steps as [|steps IH]; intros fuel position Hpos Hsteps Hfuel;
    (destruct fuel as [|fuel]; [lia|]); simpl.
  - destruct (Z.ltb_spec 0 position).
    + rewrite (neighbour_facing pre run post Hstrip) by (rewrite !length_app; lia).
      rewrite bool_decide_eq_false_2 by lia.
      rewrite (bind_silent _ _ false) by done. unfold ret. do 2 f_equal. lia.
    + rewrite (bind_silent _ _ false) by done. unfold ret. do 2 f_equal. lia.
  - destruct (Z.ltb_spec 0 position) as [_|Hge]; [|lia].
    rewrite (neighbour_facing pre run post Hstrip) by (rewrite !length_app; lia).
    rewrite bool_decide_eq_true_2 by lia.
    rewrite (bind_silent _ _ true) by done. apply IH; lia.
Qed.

End OneRun.

(** X29: on a strip whose selection is one run of tabs that holds the
    current tab, [flipTabSelection] makes the other end of the run the
    first highlighted tab: the last tab of the run from any tab but
    the last, and the first tab of the run from the last; the tabs it
    highlights after it are the selected tabs. *)
Theorem flipTabSelection_flips (pre run post selectedTabs : list Tab.t) (cx : Context) :
  oneRun pre run post →
  nearEnd Forward pre run ≤ Tab.index (tab cx) ≤ nearEnd Backward pre run →
  flipTabSelection (pre ++ run ++ post) selectedTabs cx
  = ([TabsHighlight
        ((if bool_decide (Tab.index (tab cx) = nearEnd Backward pre run)
          then nearEnd Forward pre run
          else nearEnd Backward pre run)
         :: (Tab.index <$> selectedTabs))
        (Tab.windowId (tab cx))], inr tt).
Proof.
  intros Hstrip Hpos. unfold flipTabSelection. cbv zeta.
  rewrite (scanForward_run pre run post Hstrip
             (Z.to_nat (nearEnd Backward pre run - Tab.index (tab cx)))).
  2:{ unfold nearEnd in Hpos. lia. }
  2:{ lia. }
  2:{ unfold nearEnd in *. rewrite !length_app. lia. }
  rewrite (bind_silent _ _ (nearEnd Backward pre run)) by done.
  case_bool_decide as Hlast.
  - rewrite (scanBackward_run pre run post Hstrip
               (Z.to_nat (nearEnd Backward pre run - nearEnd Forward pre run))).
    2:{ lia. }
    2:{ unfold nearEnd in *. lia. }
    2:{ unfold nearEnd in *. rewrite !length_app. lia. }
    by rewrite (bind_silent _ _ (nearEnd Forward pre run)).
  - by rewrite (bind_silent _ _ (nearEnd Backward pre run)).
Qed.

Lemma flipTabSelection_flips_witness :
  flipTabSelection
    ([Scenario.FullGroup.P1] ++ [Scenario.FullGroup.A; Scenario.FullGroup.B]
     ++ [Scenario.FullGroup.C])
    [Scenario.FullGroup.A; Scenario.FullGroup.B]
    (Example.cx Scenario.FullGroup.B)
  = ([TabsHighlight
        ((if bool_decide (Tab.index (tab (Example.cx Scenario.FullGroup.B))
                          = nearEnd Backward [Scenario.FullGroup.P1]
                                    [Scenario.FullGroup.A; Scenario.FullGroup.B])
          then nearEnd Forward [Scenario.FullGroup.P1]
                       [Scenario.FullGroup.A; Scenario.FullGroup.B]
          else nearEnd Backward [Scenario.FullGroup.P1]
                       [Scenario.FullGroup.A; Scenario.FullGroup.B])
         :: (Tab.index <$> [Scenario.FullGroup.A; Scenario.FullGroup.B]))
        (Tab.windowId (tab (Example.cx Scenario.FullGroup.B)))], inr tt).
Proof.
  apply (flipTabSelection_flips [Scenario.FullGroup.P1]
           [Scenario.FullGroup.A; Scenario.FullGroup.B] [Scenario.FullGroup.C]
           [Scenario.FullGroup.A; Scenario.FullGroup.B]
           (Example.cx Scenario.FullGroup.B)).
  - exact oneRun_example.
  - simpl. lia.
Defined.

End FlipFacts.
